(** * Verification of [ludo_mcts.py]

    A shallow embedding of the two-player Ludo rules engine ([LudoState]) and
    of the Monte Carlo Tree Search agent ([MCTSNode], [MCTS],
    [choose_blue_move]) together with the properties the specification states
    about them.

    Layout:
    - the rules on values: a [LudoState] record holding the two token lists
      and the player to move; the read-only methods are functions of it and
      [apply_action] is its transition function;
    - the rules on objects ([Module Obj]): Python lists and [LudoState]
      instances live in a store and are reached through references, so that
      [clone], in-place mutation and aliasing are explicit;
    - the search engine, a state-and-exception monad over the store, the node
      table and the random source;
    - the theorems. *)

From Stdlib Require Import ZArith PrimFloat SpecFloat FloatOps.
From stdpp Require Import base decidable option list gmap.

Local Open Scope Z_scope.

(* A decimal literal such as [1.4] denotes the binary64 number nearest to
   it, here as in Python. *)
#[local] Set Warnings "-inexact-float".

(** ** Constants and players *)

(** [Player = str  # "Blue" or "Red"] *)
Inductive Player := Blue | Red.

#[global] Instance Player_eq_dec : EqDecision Player.
Proof. solve_decision. Defined.

#[global] Instance Player_countable : Countable Player.
Proof.
  refine (inj_countable' (λ p, match p with Blue => true | Red => false end)
                         (λ b : bool, if b then Blue else Red) _).
  by intros [].
Defined.

(** [Action = Tuple[int, int]  # (token_index, target_position)] *)
Definition Action : Type := Z * Z.

Definition TRACK_LEN : Z := 40.
Definition FINISH_LEN : Z := 4.
Definition BLUE_START : Z := 0.
Definition RED_START : Z := TRACK_LEN `div` 2.
Definition HOME : Z := -1.

Definition other_player (player : Player) : Player :=
  if decide (player = Blue) then Red else Blue.

(** Exceptions the program can raise. *)
Inductive exn := ValueError | IndexError | KeyError.

(** ** Python list primitives *)

(** [x in l] on a list. *)
Definition py_in (x : Z) (l : list Z) : bool := bool_decide (x ∈ l).

(** [l[i]] addresses position [i] for [0 <= i < len(l)] and position
    [i + len(l)] for [-len(l) <= i < 0]; any other index raises
    [IndexError]. *)
Definition py_index (len : nat) (i : Z) : option nat :=
  if bool_decide (0 ≤ i < Z.of_nat len) then Some (Z.to_nat i)
  else if bool_decide (- Z.of_nat len ≤ i < 0) then Some (Z.to_nat (i + Z.of_nat len))
  else None.

(** ** The rules on values *)

Record LudoState := mkLudoState {
  blue_tokens : list Z;
  red_tokens : list Z;
  current_player : Player
}.

Definition _current_tokens (s : LudoState) : list Z :=
  if decide (current_player s = Blue) then blue_tokens s else red_tokens s.

Definition _opponent_tokens (s : LudoState) : list Z :=
  if decide (current_player s = Blue) then red_tokens s else blue_tokens s.

Definition _all_finished (tokens : list Z) : bool :=
  forallb (λ pos, bool_decide (TRACK_LEN + FINISH_LEN - 1 ≤ pos)) tokens.

Definition _track_to_global (pos : Z) (player : Player) : Z :=
  let start := if decide (player = Blue) then BLUE_START else RED_START in
  (start + pos) `mod` TRACK_LEN.

Fixpoint _track_positions (tokens : list Z) (player : Player) : list Z :=
  match tokens with
  | [] => []
  | pos :: rest =>
      if bool_decide (0 ≤ pos < TRACK_LEN)
      then _track_to_global pos player :: _track_positions rest player
      else _track_positions rest player
  end.

Definition is_terminal (s : LudoState) : bool :=
  _all_finished (blue_tokens s) || _all_finished (red_tokens s).

Definition winner (s : LudoState) : option Player :=
  if _all_finished (blue_tokens s) then Some Blue
  else if _all_finished (red_tokens s) then Some Red
  else None.

(** The body of the loop of [get_legal_actions] for one token: the target the
    token is offered, or [None] where the loop [continue]s without appending. *)
Definition legal_target (tokens own_track_positions : list Z)
    (dice_roll pos : Z) : option Z :=
  if bool_decide (pos = HOME) then
    if bool_decide (dice_roll ≠ 6) then None
    else
      let target := 0 in
      if py_in target own_track_positions then None else Some target
  else if bool_decide (TRACK_LEN + FINISH_LEN ≤ pos) then None
  else
    let target := pos + dice_roll in
    if bool_decide (TRACK_LEN + FINISH_LEN ≤ target) then None
    else if bool_decide (TRACK_LEN ≤ target) then
      if py_in target tokens then None else Some target
    else if py_in target own_track_positions then None
    else Some target.

Definition get_legal_actions (s : LudoState) (dice_roll : Z) : list Action :=
  let tokens := _current_tokens s in
  let own_track_positions := _track_positions tokens (current_player s) in
  omap (λ '(idx, pos),
          (λ target, (Z.of_nat idx, target))
            <$> legal_target tokens own_track_positions dice_roll pos)
       (imap pair tokens).

(** The loop of [_capture_opponent], from index [idx] on, over the remaining
    [n] positions of the list it mutates. *)
Fixpoint capture_loop (n idx : nat) (opponent : list Z)
    (opponent_player : Player) (target_global : Z) : list Z :=
  match n with
  | O => opponent
  | S n' =>
      match opponent !! idx with
      | None => opponent
      | Some pos =>
          let opponent' :=
            if bool_decide (0 ≤ pos < TRACK_LEN) then
              if bool_decide (_track_to_global pos opponent_player = target_global)
              then <[idx := HOME]> opponent
              else opponent
            else opponent in
          capture_loop n' (S idx) opponent' opponent_player target_global
      end
  end.

Definition _capture_opponent (opponent : list Z) (opponent_player : Player)
    (target_global : Z) : list Z :=
  capture_loop (length opponent) 0 opponent opponent_player target_global.

(** The state with the mover's and the opponent's token lists replaced and
    the turn passed on. *)
Definition moved (s : LudoState) (tokens opponent_tokens : list Z) : LudoState :=
  if decide (current_player s = Blue)
  then mkLudoState tokens opponent_tokens (other_player (current_player s))
  else mkLudoState opponent_tokens tokens (other_player (current_player s)).

(** [apply_action] as a transition on values, for a state whose two token
    lists are separate list objects (as in every state [clone] builds). *)
Definition apply_action (s : LudoState) (action : Action) : exn + LudoState :=
  let '(token_index, target) := action in
  let tokens := _current_tokens s in
  let opponent_tokens := _opponent_tokens s in
  match py_index (length tokens) token_index with
  | None => inl IndexError
  | Some i =>
      if bool_decide (tokens !! i = Some HOME) && bool_decide (target ≠ 0)
      then inl ValueError
      else
        let opponent_tokens' :=
          if bool_decide (target < TRACK_LEN) then
            let target_global := _track_to_global target (current_player s) in
            let opponent_track_positions :=
              _track_positions opponent_tokens (other_player (current_player s)) in
            if py_in target_global opponent_track_positions
            then _capture_opponent opponent_tokens
                   (other_player (current_player s)) target_global
            else opponent_tokens
          else opponent_tokens in
        inr (moved s (<[i := target]> tokens) opponent_tokens')
  end.

Definition key (s : LudoState) : Player * list Z * list Z :=
  (current_player s, blue_tokens s, red_tokens s).

(** Well-formed positions and states. *)
Definition in_range (pos : Z) : Prop := -1 ≤ pos ≤ TRACK_LEN + FINISH_LEN - 1.

Definition well_formed (s : LudoState) : Prop :=
  Forall in_range (blue_tokens s) ∧ Forall in_range (red_tokens s).

Definition tokens_of (player : Player) (s : LudoState) : list Z :=
  if decide (player = Blue) then blue_tokens s else red_tokens s.


(** What the capture does to one opponent position: a token on the track
    whose absolute square is the target's goes home, any other stays. *)
Definition captured (opponent_player : Player) (target_global pos : Z) : Z :=
  if bool_decide (0 ≤ pos < TRACK_LEN ∧
                  _track_to_global pos opponent_player = target_global)
  then HOME else pos.

(** The mover's tokens on the board (track or finish lane) are pairwise on
    different relative positions. *)
Definition no_stack (tokens : list Z) : Prop :=
  ∀ i j pos, tokens !! i = Some pos → tokens !! j = Some pos → pos ≠ HOME → i = j.

(** All tokens of a list are on the terminal finish value. *)
Definition all_home (tokens : list Z) : Prop :=
  Forall (λ pos, pos = TRACK_LEN + FINISH_LEN - 1) tokens.

(** ** The rules on objects

    Python lists and [LudoState] instances are objects: a variable holds a
    reference, [list.copy()] and the constructor allocate, and an assignment
    to an element or a field changes the one object every alias sees. *)

Module Obj.

(** References are positions in the store. *)
Abbreviation ref := nat (only parsing).

(** A [LudoState] instance: references to its two list objects, and the
    player to move. *)
Record Instance := mkInstance {
  self_blue_tokens : ref;
  self_red_tokens : ref;
  self_current_player : Player
}.

Record Store := mkStore {
  lists : list (list Z);
  instances : list Instance
}.

Definition tokens_at (σ : Store) (l : ref) : list Z :=
  default [] (lists σ !! l).

Definition instance_at (σ : Store) (self : ref) : Instance :=
  default (mkInstance 0 0 Blue) (instances σ !! self).

(** The value a [LudoState] instance currently has. *)
Definition view (σ : Store) (self : ref) : LudoState :=
  let o := instance_at σ self in
  mkLudoState (tokens_at σ (self_blue_tokens o))
              (tokens_at σ (self_red_tokens o))
              (self_current_player o).

(** [l[i] = x] *)
Definition set_item (l : ref) (i : nat) (x : Z) (σ : Store) : Store :=
  mkStore (<[l := <[i := x]> (tokens_at σ l)]> (lists σ)) (instances σ).

(** [self.current_player = player] *)
Definition set_current_player (self : ref) (player : Player) (σ : Store) : Store :=
  let o := instance_at σ self in
  mkStore (lists σ)
          (<[self := mkInstance (self_blue_tokens o) (self_red_tokens o) player]>
             (instances σ)).

(** [l.copy()] *)
Definition copy (l : ref) (σ : Store) : ref * Store :=
  (length (lists σ), mkStore (lists σ ++ [tokens_at σ l]) (instances σ)).

(** [LudoState(blue_tokens=b, red_tokens=r, current_player=p)] *)
Definition new (b r : ref) (p : Player) (σ : Store) : ref * Store :=
  (length (instances σ), mkStore (lists σ) (instances σ ++ [mkInstance b r p])).

Definition clone (self : ref) (σ : Store) : ref * Store :=
  let o := instance_at σ self in
  let '(b, σ1) := copy (self_blue_tokens o) σ in
  let '(r, σ2) := copy (self_red_tokens o) σ1 in
  new b r (self_current_player o) σ2.

Definition is_terminal (self : ref) (σ : Store) : bool :=
  is_terminal (view σ self).

Definition winner (self : ref) (σ : Store) : option Player :=
  winner (view σ self).

Definition get_legal_actions (self : ref) (dice_roll : Z) (σ : Store) : list Action :=
  get_legal_actions (view σ self) dice_roll.

Definition key (self : ref) (σ : Store) : Player * list Z * list Z :=
  key (view σ self).

Definition _current_tokens (self : ref) (σ : Store) : ref :=
  let o := instance_at σ self in
  if decide (self_current_player o = Blue)
  then self_blue_tokens o else self_red_tokens o.

Definition _opponent_tokens (self : ref) (σ : Store) : ref :=
  let o := instance_at σ self in
  if decide (self_current_player o = Blue)
  then self_red_tokens o else self_blue_tokens o.

(** The loop of [_capture_opponent] reads and writes the one list object
    [opponent] refers to. *)
Fixpoint capture_loop (n idx : nat) (opponent : ref)
    (opponent_player : Player) (target_global : Z) (σ : Store) : Store :=
  match n with
  | O => σ
  | S n' =>
      match tokens_at σ opponent !! idx with
      | None => σ
      | Some pos =>
          let σ' :=
            if bool_decide (0 ≤ pos < TRACK_LEN) then
              if bool_decide (_track_to_global pos opponent_player = target_global)
              then set_item opponent idx HOME σ
              else σ
            else σ in
          capture_loop n' (S idx) opponent opponent_player target_global σ'
      end
  end.

Definition _capture_opponent (self : ref) (target_global : Z) (σ : Store) : Store :=
  let opponent := _opponent_tokens self σ in
  let opponent_player := other_player (self_current_player (instance_at σ self)) in
  capture_loop (length (tokens_at σ opponent)) 0 opponent opponent_player
    target_global σ.

(** [apply_action] mutates the instance and its lists in place; it
    returns the exception it raised, if any, and the store it leaves. *)
Definition apply_action (self : ref) (action : Action) (σ : Store)
    : option exn * Store :=
  let '(token_index, target) := action in
  let tokens := _current_tokens self σ in
  let opponent_tokens := _opponent_tokens self σ in
  let current_player := self_current_player (instance_at σ self) in
  match py_index (length (tokens_at σ tokens)) token_index with
  | None => (Some IndexError, σ)
  | Some i =>
      if bool_decide (tokens_at σ tokens !! i = Some HOME)
         && bool_decide (target ≠ 0)
      then (Some ValueError, σ)
      else
        let σ1 :=
          if bool_decide (target < TRACK_LEN) then
            let target_global := _track_to_global target current_player in
            let opponent_track_positions :=
              _track_positions (tokens_at σ opponent_tokens)
                (other_player current_player) in
            if py_in target_global opponent_track_positions
            then _capture_opponent self target_global σ
            else σ
          else σ in
        let σ2 := set_item tokens i target σ1 in
        (None, set_current_player self (other_player current_player) σ2)
  end.

(** The instance [self] and the objects it refers to are allocated. *)
Definition allocated (σ : Store) (self : ref) : Prop :=
  ∃ o, instances σ !! self = Some o ∧
       (self_blue_tokens o < length (lists σ))%nat ∧
       (self_red_tokens o < length (lists σ))%nat.

End Obj.

(** ** The search engine *)

(** The canonical state key [(current_player, tuple(blue), tuple(red))]. *)
Definition Key : Type := Player * list Z * list Z.

(** *** Python dictionaries

    A [dict] keeps its keys in insertion order, which [items()] exposes:
    assigning to a key that is present keeps its place, a new key goes to
    the end. *)
Definition dict (K V : Type) : Type := list (K * V).

Fixpoint dict_get {K V} `{EqDecision K} (d : dict K V) (k : K) : option V :=
  match d with
  | [] => None
  | (k', v) :: d' => if decide (k = k') then Some v else dict_get d' k
  end.

Fixpoint dict_set {K V} `{EqDecision K} (d : dict K V) (k : K) (v : V) : dict K V :=
  match d with
  | [] => [(k, v)]
  | (k', v') :: d' =>
      if decide (k = k') then (k, v) :: d' else (k', v') :: dict_set d' k v
  end.

(** [k in d] *)
Definition dict_in {K V} `{EqDecision K} (k : K) (d : dict K V) : bool :=
  bool_decide (is_Some (dict_get d k)).

(** [max(l, key=key)]: the first element whose key no later element
    exceeds; [None] stands for the [ValueError] on an empty sequence. *)
Fixpoint max_loop {A B} (gt : B → B → bool) (key : A → B)
    (best : A) (best_key : B) (l : list A) : A :=
  match l with
  | [] => best
  | x :: l' =>
      if gt (key x) best_key then max_loop gt key x (key x) l'
      else max_loop gt key best best_key l'
  end.

Definition py_max {A B} (gt : B → B → bool) (key : A → B) (l : list A) : option A :=
  match l with
  | [] => None
  | x :: l' => Some (max_loop gt key x (key x) l')
  end.

(** *** Floating point and the modules [math] and [random]

    Python's [float] is IEEE 754 binary64, as are Rocq's primitive floats;
    an [int] operand is converted by rounding to nearest even. *)
Definition float_of_int (n : Z) : float :=
  SF2Prim (binary_normalize 53 1024 n 0 false).

(** [a > b] on floats. *)
Definition float_gt (a b : float) : bool := PrimFloat.ltb b a.

(** The functions of [math] and the generator behind [random] are not part
    of the program: [math_log] and [math_sqrt] stand for [math.log] and
    [math.sqrt] (called here on arguments on which they do not raise), and
    [rand i] is the [i]-th raw draw of the generator. *)
Class Runtime := {
  math_log : float → float;
  math_sqrt : float → float;
  rand : nat → nat
}.

Module MCTSNode.

Record t := mk {
  state_key : Key;
  children : dict Action Key;
  N : dict Action Z;
  W : dict Action float;
  total_visits : Z
}.

Definition __init__ (state_key : Key) : t := mk state_key [] [] [] 0.

(** [self.N[action]] is read where [self.N.get(action, 0)] is not 0, so
    where the key is present. *)
Definition q_value (self : t) (action : Action) : float :=
  if bool_decide (default 0 (dict_get (N self) action) = 0) then 0%float
  else (default 0%float (dict_get (W self) action)
        / float_of_int (default 0%Z (dict_get (N self) action)))%float.

Definition uct_score `{Runtime} (self : t) (action : Action) (cpuct : float)
    (player : Player) : float :=
  let n_sa := default 0 (dict_get (N self) action) in
  if bool_decide (n_sa = 0) then infinity
  else
    let sign := if decide (player = Blue) then 1%float else (-1)%float in
    let exploitation := (sign * q_value self action)%float in
    let exploration :=
      (cpuct * math_sqrt (math_log (float_of_int (total_visits self + 1)%Z)
                          / float_of_int n_sa))%float in
    (exploitation + exploration)%float.

End MCTSNode.

(** *** The state of a run and its monad *)

(** What the engine reads and writes: the object store, the node table
    [self.nodes] of the [MCTS] instance at work, and the number of draws
    taken from the random generator. *)
Record World := mkWorld {
  store : Obj.Store;
  nodes : gmap Key MCTSNode.t;
  draws : nat
}.

(** How a computation ends: with a value, with an exception, or without an
    end within the steps granted to a [while True] loop. *)
Inductive outcome (A : Type) :=
  | Ret (a : A)
  | Raise (e : exn)
  | Timeout.
Arguments Ret {A} a.
Arguments Raise {A} e.
Arguments Timeout {A}.

Definition M (A : Type) : Type := World → outcome A * World.

Definition ret {A} (a : A) : M A := λ w, (Ret a, w).

Definition raise {A} (e : exn) : M A := λ w, (Raise e, w).

Definition bind {A B} (m : M A) (k : A → M B) : M B :=
  λ w, match m w with
       | (Ret a, w') => k a w'
       | (Raise e, w') => (Raise e, w')
       | (Timeout, w') => (Timeout, w')
       end.

Notation "'let*' x := m 'in' k" := (bind m (λ x, k))
  (at level 10, x pattern, m at level 100, k at level 200).
Notation "m ;; k" := (bind m (λ _, k))
  (at level 100, k at level 200, right associativity).

(** Reading from, computing on and changing the object store. *)
Definition read {A} (f : Obj.Store → A) : M A :=
  λ w, (Ret (f (store w)), w).

Definition alloc {A} (f : Obj.Store → A * Obj.Store) : M A :=
  λ w, let '(a, σ) := f (store w) in (Ret a, mkWorld σ (nodes w) (draws w)).

Definition write (f : Obj.Store → Obj.Store) : M unit :=
  λ w, (Ret (), mkWorld (f (store w)) (nodes w) (draws w)).

Definition apply_action_m (state : Obj.ref) (action : Action) : M unit :=
  λ w, match Obj.apply_action state action (store w) with
       | (Some e, σ) => (Raise e, mkWorld σ (nodes w) (draws w))
       | (None, σ) => (Ret (), mkWorld σ (nodes w) (draws w))
       end.

(** Reading and changing the node table. *)
Definition get_node (k : Key) : M (option MCTSNode.t) :=
  λ w, (Ret (nodes w !! k), w).

Definition update_nodes (f : gmap Key MCTSNode.t → gmap Key MCTSNode.t) : M unit :=
  λ w, (Ret (), mkWorld (store w) (f (nodes w)) (draws w)).

(** [random.randint(a, b)] and [random.choice(l)] take the next draw. *)
Definition randint `{Runtime} (a b : Z) : M Z :=
  λ w, (Ret (a + Z.of_nat (rand (draws w)) `mod` (b - a + 1)),
        mkWorld (store w) (nodes w) (S (draws w))).

Definition choice `{Runtime} {A} (l : list A) : M A :=
  λ w, match l !! (rand (draws w) `mod` length l)%nat with
       | Some x => (Ret x, mkWorld (store w) (nodes w) (S (draws w)))
       | None => (Raise IndexError, w)
       end.

Module MCTS.

(** The fields of an [MCTS] instance that are set once; its node table is
    the [nodes] of the [World]. *)
Record t := mk {
  cpuct : float;
  n_simulations : Z
}.

(** [MCTS(cpuct=1.4, n_simulations=1000)]: an argument left out takes its
    default, and the instance starts with an empty node table. *)
Definition __init__ (cpuct : option float) (n_simulations : option Z) : M t :=
  update_nodes (λ _, ∅);;
  ret (mk (default 1.4%float cpuct) (default 1000 n_simulations)).

Definition _value_to_winner (value : float) : option Player :=
  if float_gt value 0 then Some Blue
  else if PrimFloat.ltb value 0 then Some Red
  else None.

(** One step of the loop of [_backpropagate] on the node it is given. *)
Definition visit (action : Action) (outcome : float) (node : MCTSNode.t)
    : MCTSNode.t :=
  MCTSNode.mk (MCTSNode.state_key node) (MCTSNode.children node)
    (dict_set (MCTSNode.N node) action
       (default 0 (dict_get (MCTSNode.N node) action) + 1))
    (dict_set (MCTSNode.W node) action
       (default 0%float (dict_get (MCTSNode.W node) action) + outcome)%float)
    (MCTSNode.total_visits node + 1).

(** The path holds the nodes by the key under which the table holds them:
    a node is entered under its own [state_key] and never replaced. *)
Definition visit_entry (outcome : float) (nodes : gmap Key MCTSNode.t)
    (entry : Key * Action * Player) : gmap Key MCTSNode.t :=
  let '(k, action, _) := entry in alter (visit action outcome) k nodes.

Definition _backpropagate (path : list (Key * Action * Player))
    (winner : option Player) : M float :=
  let outcome :=
    match winner with
    | Some Blue => 1%float
    | Some Red => (-1)%float
    | None => 0%float
    end in
  update_nodes (λ nodes, foldl (visit_entry outcome) nodes path);;
  ret outcome.

(** [node.children[action] = child_key] *)
Definition set_child (action : Action) (child_key : Key) (node : MCTSNode.t)
    : MCTSNode.t :=
  MCTSNode.mk (MCTSNode.state_key node)
    (dict_set (MCTSNode.children node) action child_key)
    (MCTSNode.N node) (MCTSNode.W node) (MCTSNode.total_visits node).

Fixpoint _rollout `{Runtime} (state : Obj.ref) (max_depth : nat) : M float :=
  match max_depth with
  | O => ret 0%float
  | S depth =>
      let* terminal := read (Obj.is_terminal state) in
      if terminal : bool then
        let* winner := read (Obj.winner state) in
        match winner with
        | Some Blue => ret 1%float
        | Some Red => ret (-1)%float
        | None => ret 0%float
        end
      else
        let* dice_roll := randint 1 6 in
        let* legal_actions := read (Obj.get_legal_actions state dice_roll) in
        match legal_actions with
        | [] =>
            let* player := read (λ σ, current_player (Obj.view σ state)) in
            write (Obj.set_current_player state (other_player player));;
            _rollout state depth
        | _ :: _ =>
            let* action := choice legal_actions in
            apply_action_m state action;;
            _rollout state depth
        end
  end.

(** The loop of [_simulate], granted [fuel] iterations. *)
Fixpoint _simulate `{Runtime} (self : t) (fuel : nat) (state : Obj.ref)
    (path : list (Key * Action * Player)) : M float :=
  match fuel with
  | O => λ w, (Timeout, w)
  | S fuel' =>
      let* terminal := read (Obj.is_terminal state) in
      if terminal : bool then
        let* winner := read (Obj.winner state) in
        _backpropagate path winner
      else
        let* k := read (Obj.key state) in
        let* node := get_node k in
        match node with
        | None =>
            update_nodes (insert k (MCTSNode.__init__ k));;
            let* value := _rollout state 200 in
            _backpropagate path (_value_to_winner value)
        | Some node =>
            let* dice_roll := randint 1 6 in
            let* legal_actions := read (Obj.get_legal_actions state dice_roll) in
            let* player := read (λ σ, current_player (Obj.view σ state)) in
            match legal_actions with
            | [] =>
                write (Obj.set_current_player state (other_player player));;
                _simulate self fuel' state path
            | _ :: _ =>
                let untried :=
                  filter (λ action, ¬ dict_in action (MCTSNode.children node))
                         legal_actions in
                match untried with
                | _ :: _ =>
                    let* action := choice untried in
                    let* next_state := alloc (Obj.clone state) in
                    apply_action_m next_state action;;
                    let* child_key := read (Obj.key next_state) in
                    update_nodes (alter (set_child action child_key) k);;
                    let path := path ++ [(k, action, player)] in
                    let* value := _rollout next_state 200 in
                    _backpropagate path (_value_to_winner value)
                | [] =>
                    match py_max float_gt
                            (λ act, MCTSNode.uct_score node act (cpuct self) player)
                            legal_actions with
                    | None => raise ValueError
                    | Some action =>
                        let path := path ++ [(k, action, player)] in
                        apply_action_m state action;;
                        _simulate self fuel' state path
                    end
                end
            end
        end
  end.

(** [for _ in range(n): self._simulate(root_state.clone())] *)
Fixpoint simulations `{Runtime} (self : t) (fuel : nat) (root_state : Obj.ref)
    (n : nat) : M unit :=
  match n with
  | O => ret ()
  | S n' =>
      let* state := alloc (Obj.clone root_state) in
      _simulate self fuel state [];;
      simulations self fuel root_state n'
  end.

Definition search `{Runtime} (self : t) (fuel : nat) (root_state : Obj.ref)
    : M (option Action) :=
  let* root_key := read (Obj.key root_state) in
  let* present := get_node root_key in
  (if present is None
   then update_nodes (insert root_key (MCTSNode.__init__ root_key))
   else ret ());;
  simulations self fuel root_state (Z.to_nat (n_simulations self));;
  let* root_node := get_node root_key in
  match root_node with
  | None => raise KeyError
  | Some root_node =>
      match MCTSNode.N root_node with
      | [] => ret None
      | _ :: _ =>
          match py_max Z.gtb snd (MCTSNode.N root_node) with
          | None => raise ValueError
          | Some item => ret (Some (item.1))
          end
      end
  end.

End MCTS.

(** [choose_blue_move(state, n_simulations=1000)] *)
Definition choose_blue_move `{Runtime} (fuel : nat) (state : Obj.ref)
    (n_simulations : option Z) : M (option Action) :=
  let* player := read (λ σ, current_player (Obj.view σ state)) in
  if decide (player ≠ Blue) then raise ValueError
  else
    let* mcts := MCTS.__init__ None (Some (default 1000 n_simulations)) in
    MCTS.search mcts fuel state.

(** ** Relations between the worlds before and after a run *)

(** The objects with an instance reference below [n] or a list reference
    below [m] are the same in [σ'] as in [σ], and nothing is deallocated. *)
Definition frame (n m : nat) (σ σ' : Obj.Store) : Prop :=
  (∀ i, (i < n)%nat → Obj.instances σ' !! i = Obj.instances σ !! i) ∧
  (∀ l, (l < m)%nat → Obj.lists σ' !! l = Obj.lists σ !! l) ∧
  (length (Obj.instances σ) ≤ length (Obj.instances σ'))%nat ∧
  (length (Obj.lists σ) ≤ length (Obj.lists σ'))%nat.

(** The instance [state] and its two lists are allocated, and none of the
    three is among the objects below [n] and [m]. *)
Definition owned (n m : nat) (σ : Obj.Store) (state : Obj.ref) : Prop :=
  ∃ o, Obj.instances σ !! state = Some o ∧ (n ≤ state)%nat ∧
       (m ≤ Obj.self_blue_tokens o < length (Obj.lists σ))%nat ∧
       (m ≤ Obj.self_red_tokens o < length (Obj.lists σ))%nat.

(** The instance [state] and its two lists are among the objects below [n]
    and [m], all of which are allocated. *)
Definition below (n m : nat) (σ : Obj.Store) (state : Obj.ref) : Prop :=
  ∃ o, Obj.instances σ !! state = Some o ∧
       (state < n ≤ length (Obj.instances σ))%nat ∧
       (Obj.self_blue_tokens o < m)%nat ∧ (Obj.self_red_tokens o < m)%nat ∧
       (m ≤ length (Obj.lists σ))%nat.

(** Every node of the table [t] is still in [t'], and one with recorded
    visit counts has kept some. *)
Definition nodes_le (t t' : gmap Key MCTSNode.t) : Prop :=
  ∀ k node, t !! k = Some node →
    ∃ node', t' !! k = Some node' ∧
             (MCTSNode.N node ≠ [] → MCTSNode.N node' ≠ []).

(** The die the generator yields on the next draw. *)
Definition next_die `{Runtime} (w : World) : Z :=
  1 + Z.of_nat (rand (draws w)) `mod` 6.

(** Every node that the table [t] holds for a key on the path has a visit
    count recorded in [t']. *)
Definition visited (path : list (Key * Action * Player))
    (t t' : gmap Key MCTSNode.t) : Prop :=
  ∀ k action player, (k, action, player) ∈ path → is_Some (t !! k) →
    ∃ node', t' !! k = Some node' ∧ MCTSNode.N node' ≠ [].

(** A run that raises nothing and, whether it returns or is cut off, leaves
    a world in which [Q] holds. *)
Definition no_raise {A} (r : outcome A * World) (Q : World → Prop) : Prop :=
  match r.1 with
  | Raise _ => False
  | _ => Q r.2
  end.

(** A run that raises nothing, leaves a world in which [Q] holds and, if it
    returns, one in which [R] holds too. *)
Definition ensures {A} (r : outcome A * World) (Q R : World → Prop) : Prop :=
  match r.1 with
  | Raise _ => False
  | Timeout => Q r.2
  | Ret _ => Q r.2 ∧ R r.2
  end.

(** The world in which the simulations of [search] start: the root node is
    in the table. *)
Definition with_root (root_key : Key) (w : World) : World :=
  mkWorld (store w)
    (if nodes w !! root_key is None
     then <[root_key := MCTSNode.__init__ root_key]> (nodes w)
     else nodes w)
    (draws w).

(** What [search] returns, read off the node the table holds for the root
    once the simulations are done. *)
Definition root_choice (root_node : MCTSNode.t) : option Action :=
  match MCTSNode.N root_node with
  | [] => None
  | _ :: _ => fst <$> py_max Z.gtb snd (MCTSNode.N root_node)
  end.

(** ** Sample inputs

    A runtime to run examples on: the generator yields the draws it is
    given; the stand-ins for [math.log] and [math.sqrt] are arbitrary, and no
    theorem depends on them. *)
Definition sample_runtime (draw : nat → nat) : Runtime :=
  {| math_log := λ x, x; math_sqrt := PrimFloat.sqrt; rand := draw |}.

(** The store holding one [LudoState] instance, at reference 0, with its
    blue tokens in list 0 and its red tokens in list 1. *)
Definition sample_store (blue red : list Z) (player : Player) : Obj.Store :=
  Obj.mkStore [blue; red] [Obj.mkInstance 0 1 player].

(** The start of a game, every token at home and Blue to move, before any
    draw and with an empty node table. *)
Definition start_world : World :=
  mkWorld (sample_store [-1; -1; -1; -1] [-1; -1; -1; -1] Blue) ∅ 0.

(** ** Plies, and what a search keeps true of its table *)

(** The state after a pass,
    [state.current_player = other_player(state.current_player)]: the tokens
    stay and the turn goes to the other player. *)
Definition pass (s : LudoState) : LudoState :=
  mkLudoState (blue_tokens s) (red_tokens s) (other_player (current_player s)).

(** One ply as the loops of [_rollout] and [_simulate] play it: on a die
    drawn by [random.randint(1, 6)], an action taken from
    [get_legal_actions] is applied, or, where that list is empty, the turn
    is passed. *)
Inductive ply : LudoState → LudoState → Prop :=
  | ply_move s dice_roll action s' :
      1 ≤ dice_roll ≤ 6 → action ∈ get_legal_actions s dice_roll →
      apply_action s action = inr s' → ply s s'
  | ply_pass s dice_roll :
      1 ≤ dice_roll ≤ 6 → get_legal_actions s dice_roll = [] → ply s (pass s).

(** No two tokens of the list are on the same position of the finish lane
    (a position from [TRACK_LEN] on). *)
Definition finish_slots_apart (tokens : list Z) : Prop :=
  ∀ i j pos, tokens !! i = Some pos → tokens !! j = Some pos →
             TRACK_LEN ≤ pos → i = j.

(** A position as a game has it: every position is in range, no two
    tokens of a player share a position of the finish lane, and each player
    has at least two tokens. *)
Definition regular (s : LudoState) : Prop :=
  well_formed s ∧
  finish_slots_apart (blue_tokens s) ∧ finish_slots_apart (red_tokens s) ∧
  (2 ≤ length (blue_tokens s))%nat ∧ (2 ≤ length (red_tokens s))%nat.

(** What a move can do to a token of the opponent: nothing, or send it home
    from the track. *)
Definition kept_or_sent_home (pos pos' : Z) : Prop :=
  pos' = pos ∨ (pos' = HOME ∧ 0 ≤ pos < TRACK_LEN).

(** The value [_backpropagate] adds for a winner, which is also the value
    [_rollout] returns for the winner of a terminal state. *)
Definition outcome_of (winner : option Player) : float :=
  match winner with
  | Some Blue => 1%float
  | Some Red => (-1)%float
  | None => 0%float
  end.

(** The instance [state] is allocated and its two lists are different,
    allocated list objects, as in every instance [clone] builds. *)
Definition separate (σ : Obj.Store) (state : Obj.ref) : Prop :=
  ∃ o, Obj.instances σ !! state = Some o ∧
       Obj.self_blue_tokens o ≠ Obj.self_red_tokens o ∧
       (Obj.self_blue_tokens o < length (Obj.lists σ))%nat ∧
       (Obj.self_red_tokens o < length (Obj.lists σ))%nat.

(** The state a key stands for. *)
Definition state_of_key (k : Key) : LudoState := mkLudoState k.1.2 k.2 k.1.1.

(** [child_key] is the key of the state that [action], legal for some die
    in the state of key [k], leads to. *)
Definition successor (k : Key) (action : Action) (child_key : Key) : Prop :=
  ∃ dice_roll s', 1 ≤ dice_roll ≤ 6 ∧
    action ∈ get_legal_actions (state_of_key k) dice_roll ∧
    apply_action (state_of_key k) action = inr s' ∧ key s' = child_key.

(** [sum(d.values())] *)
Definition sum_values (d : dict Action Z) : Z := foldr (λ e acc, e.2 + acc) 0 d.

(** The node the table holds under [k] is consistent: it carries the key
    [k]; [total_visits] is the sum of the visit counts; every recorded
    count is at least 1; [W] has the keys of [N], in the same order; the
    values of [W] satisfy [Wok]; an action with a count has a child
    recorded; and a recorded child is the key of the state the action leads
    to. *)
Definition node_ok (Wok : float → Prop) (k : Key) (node : MCTSNode.t) : Prop :=
  MCTSNode.state_key node = k ∧
  MCTSNode.total_visits node = sum_values (MCTSNode.N node) ∧
  Forall (λ e, 1 ≤ e.2) (MCTSNode.N node) ∧
  (MCTSNode.W node).*1 = (MCTSNode.N node).*1 ∧
  Forall (λ e, Wok e.2) (MCTSNode.W node) ∧
  (∀ action, dict_in action (MCTSNode.N node) →
             dict_in action (MCTSNode.children node)) ∧
  (∀ action child_key,
     dict_get (MCTSNode.children node) action = Some child_key →
     successor k action child_key).

(** Every node of the table is consistent. *)
Definition table_ok (Wok : float → Prop) (t : gmap Key MCTSNode.t) : Prop :=
  map_Forall (node_ok Wok) t.

(** Every step of the path names a node of the table and an action for
    which that node records a child. *)
Definition expanded (t : gmap Key MCTSNode.t)
    (path : list (Key * Action * Player)) : Prop :=
  ∀ k action player, (k, action, player) ∈ path →
    ∃ node, t !! k = Some node ∧ dict_in action (MCTSNode.children node).

(** The three values a rollout or a simulation can yield. *)
Definition is_outcome (v : float) : Prop :=
  v = 1%float ∨ v = (-1)%float ∨ v = 0%float.

(** How often the path visits the node of key [k], and how often it does so
    with [action]. *)
Definition visits_at (k : Key) (path : list (Key * Action * Player)) : nat :=
  length (filter (λ e, e.1.1 = k) path).

Definition visits_of (k : Key) (action : Action)
    (path : list (Key * Action * Player)) : nat :=
  length (filter (λ e, e.1.1 = k ∧ e.1.2 = action) path).

(** Every token of both players is at home, and each player has one. *)
Definition nobody_out (s : LudoState) : Prop :=
  Forall (λ pos, pos = HOME) (blue_tokens s) ∧
  Forall (λ pos, pos = HOME) (red_tokens s) ∧
  blue_tokens s ≠ [] ∧ red_tokens s ≠ [].

(** * Properties *)

(** ** Auxiliary facts on the rules *)

(** Closes the first-order side goals left by case analyses. *)
Ltac fo_solver :=
  solve [ intuition (simplify_eq/=; eauto; try done; try congruence; try lia)
        | intuition (simplify_eq/=; try done);
          repeat match goal with H : ∃ _, _ |- _ => destruct H end;
          intuition (simplify_eq/=; eauto; try done; try congruence; try lia) ].


Lemma py_in_true x l : py_in x l = true ↔ x ∈ l.
Proof. unfold py_in. apply bool_decide_eq_true. Qed.

Lemma py_in_false x l : py_in x l = false ↔ x ∉ l.
Proof. unfold py_in. apply bool_decide_eq_false. Qed.

Lemma py_index_of_nat len (idx : nat) :
  (idx < len)%nat → py_index len (Z.of_nat idx) = Some idx.
Proof.
  intros. unfold py_index. rewrite bool_decide_eq_true_2 by lia.
  by rewrite Nat2Z.id.
Qed.

(** On Blue's track the absolute square is the relative position. *)
Lemma _track_to_global_Blue pos :
  0 ≤ pos < TRACK_LEN → _track_to_global pos Blue = pos.
Proof.
  intros. unfold _track_to_global, BLUE_START. simpl.
  rewrite Z.add_0_l. apply Z.mod_small. done.
Qed.

Lemma elem_of__track_positions x tokens player :
  x ∈ _track_positions tokens player ↔
  ∃ pos, pos ∈ tokens ∧ 0 ≤ pos < TRACK_LEN ∧ x = _track_to_global pos player.
Proof.
  induction tokens as [|p rest IH]; simpl.
  - split; [by intros ?%elem_of_nil | by intros (? & ?%elem_of_nil & _)].
  - case_bool_decide as Hp.
    + rewrite elem_of_cons, IH. split.
      * intros [-> | (pos & ? & ? & ?)]; [exists p | exists pos];
          rewrite elem_of_cons; fo_solver.
      * intros (pos & [-> | ?]%elem_of_cons & ? & ?); fo_solver.
    + rewrite IH. split.
      * intros (pos & ? & ? & ?). exists pos. rewrite elem_of_cons. fo_solver.
      * intros (pos & [-> | ?]%elem_of_cons & ? & ?); fo_solver.
Qed.

Lemma elem_of__track_positions_Blue x tokens :
  x ∈ _track_positions tokens Blue ↔ x ∈ tokens ∧ 0 ≤ x < TRACK_LEN.
Proof.
  rewrite elem_of__track_positions. split.
  - intros (pos & ? & ? & ->). by rewrite _track_to_global_Blue.
  - intros [? ?]. exists x. by rewrite _track_to_global_Blue.
Qed.

(** The actions offered are exactly the pairs of a token index and the target
    the loop body computes for the token at that index. *)
Lemma elem_of_get_legal_actions s dice_roll token_index target :
  (token_index, target) ∈ get_legal_actions s dice_roll ↔
  ∃ (idx : nat) pos,
    token_index = Z.of_nat idx ∧ _current_tokens s !! idx = Some pos ∧
    legal_target (_current_tokens s)
      (_track_positions (_current_tokens s) (current_player s))
      dice_roll pos = Some target.
Proof.
  unfold get_legal_actions. rewrite list_elem_of_omap. split.
  - intros ([idx pos] & Hin & Hf).
    apply elem_of_lookup_imap in Hin as (i & y & Heq & Hl). simplify_eq.
    destruct (legal_target _ _ _ _) as [t|] eqn:Ht; simplify_eq/=.
    by exists i, y.
  - intros (idx & pos & -> & Hl & Ht). exists (idx, pos). split.
    + apply elem_of_lookup_imap. by exists idx, pos.
    + by rewrite Ht.
Qed.

Lemma capture_loop_spec n idx opponent opponent_player target_global :
  (idx + n)%nat = length opponent →
  capture_loop n idx opponent opponent_player target_global =
  take idx opponent ++ (captured opponent_player target_global <$> drop idx opponent).
Proof.
  revert idx opponent. induction n as [|n IH]; intros idx l Hlen; simpl.
  - rewrite Nat.add_0_r in Hlen. subst idx.
    by rewrite take_ge, drop_all, app_nil_r.
  - destruct (l !! idx) as [pos|] eqn:Hl.
    2:{ apply lookup_ge_None in Hl. lia. }
    set (l' := if bool_decide (0 ≤ pos < TRACK_LEN) then _ else _).
    assert (l' = <[idx := captured opponent_player target_global pos]> l) as ->.
    { unfold l', captured. repeat case_bool_decide; try fo_solver.
      all: by rewrite list_insert_id. }
    rewrite IH by (rewrite length_insert; lia).
    rewrite drop_insert_lt by lia.
    rewrite (drop_S l pos idx Hl). simpl.
    rewrite (take_S_r (<[idx:=_]> l) idx (captured opponent_player target_global pos)).
    2:{ apply list_lookup_insert_eq. apply lookup_lt_Some in Hl. done. }
    rewrite take_insert_ge by lia.
    by rewrite <- app_assoc.
Qed.

Lemma _capture_opponent_spec opponent opponent_player target_global :
  _capture_opponent opponent opponent_player target_global =
  captured opponent_player target_global <$> opponent.
Proof.
  unfold _capture_opponent. by rewrite capture_loop_spec.
Qed.

Lemma captured_id opponent opponent_player target_global :
  target_global ∉ _track_positions opponent opponent_player →
  captured opponent_player target_global <$> opponent = opponent.
Proof.
  intros Hnot. rewrite <- (list_fmap_id opponent) at 2.
  apply list_fmap_ext. intros i pos Hl. unfold captured.
  case_bool_decide as Hc; [|done]. destruct Hc as [Hr Hg].
  exfalso. apply Hnot. apply elem_of__track_positions.
  exists pos. split; [by eapply list_elem_of_lookup_2 | by split].
Qed.

Lemma tokens_of_moved_opponent s tokens opponent_tokens :
  tokens_of (other_player (current_player s)) (moved s tokens opponent_tokens)
  = opponent_tokens.
Proof. unfold tokens_of, moved. by destruct (current_player s). Qed.

(** What a successful [apply_action] returns. *)
Lemma apply_action_inr s token_index target s' :
  apply_action s (token_index, target) = inr s' →
  ∃ i, py_index (length (_current_tokens s)) token_index = Some i ∧
       ¬ (_current_tokens s !! i = Some HOME ∧ target ≠ 0) ∧
       s' = moved s (<[i := target]> (_current_tokens s))
              (if bool_decide (target < TRACK_LEN)
               then captured (other_player (current_player s))
                      (_track_to_global target (current_player s))
                    <$> _opponent_tokens s
               else _opponent_tokens s).
Proof.
  unfold apply_action.
  destruct (py_index _ _) as [i|]; [|done].
  destruct (bool_decide (_ !! i = Some HOME) && bool_decide (target ≠ 0)) eqn:Hg;
    [done|].
  intros [= <-]. exists i. split; [done|]. split.
  - intros [H1 H2]. by rewrite !bool_decide_eq_true_2 in Hg.
  - f_equal. destruct (bool_decide (target < TRACK_LEN)); [|done].
    rewrite _capture_opponent_spec.
    destruct (py_in _ _) eqn:Hin; [done|].
    symmetry. apply captured_id. by apply py_in_false.
Qed.

(** An action offered by [get_legal_actions] is applied without an error. *)
Lemma legal_action_applies s dice_roll action :
  action ∈ get_legal_actions s dice_roll → ∃ s', apply_action s action = inr s'.
Proof.
  destruct action as [token_index target].
  intros (idx & pos & -> & Hl & Ht)%elem_of_get_legal_actions.
  unfold apply_action.
  rewrite py_index_of_nat by (by eapply lookup_lt_Some).
  rewrite Hl.
  destruct (bool_decide (Some pos = Some HOME) && bool_decide (target ≠ 0)) eqn:Hg;
    [|by eexists].
  apply andb_true_iff in Hg as [H1%bool_decide_eq_true H2%bool_decide_eq_true].
  simplify_eq. unfold legal_target in Ht.
  rewrite bool_decide_eq_true_2 in Ht by done.
  repeat case_match; simplify_eq.
Qed.

Lemma legal_target_range tokens own dice_roll pos target :
  1 ≤ dice_roll ≤ 6 → in_range pos →
  legal_target tokens own dice_roll pos = Some target →
  0 ≤ target < TRACK_LEN + FINISH_LEN.
Proof.
  unfold legal_target, in_range, HOME, TRACK_LEN, FINISH_LEN.
  intros. repeat case_bool_decide; repeat case_match; simplify_eq; lia.
Qed.

(** On Blue's turn, and on a well-formed position, a target is offered only
    where no token of the mover stands. *)
Lemma legal_target_free_Blue tokens dice_roll pos target :
  1 ≤ dice_roll ≤ 6 → in_range pos →
  legal_target tokens (_track_positions tokens Blue) dice_roll pos = Some target →
  target ∉ tokens.
Proof.
  unfold legal_target, in_range, HOME, TRACK_LEN, FINISH_LEN.
  intros Hd Hr Ht.
  repeat case_bool_decide; repeat case_match; simplify_eq;
    repeat match goal with
    | H : py_in _ _ = false |- _ => apply py_in_false in H
    end; try done.
  all: intros Hin; match goal with H : _ ∉ _track_positions _ _ |- _ => apply H end.
  all: apply elem_of__track_positions_Blue; unfold TRACK_LEN; split; [done|lia].
Qed.

(** ** Legal moves *)

Section legal_moves.
Variables (s : LudoState) (dice_roll : Z).
Hypothesis die : 1 ≤ dice_roll ≤ 6.

(** A legal action, once applied, leaves every position of both players
    in range. *)
Lemma legal_action_keeps_range action :
  well_formed s → action ∈ get_legal_actions s dice_roll →
  ∃ s', apply_action s action = inr s' ∧ well_formed s'.
Proof using die.
  intros [Hb Hr] Hin. destruct (legal_action_applies _ _ _ Hin) as [s' Hs'].
  exists s'. split; [done|]. destruct action as [token_index target].
  apply elem_of_get_legal_actions in Hin as (idx & pos & -> & Hl & Ht).
  apply apply_action_inr in Hs' as (i & Hi & _ & ->).
  assert (Forall in_range (_current_tokens s)) as Hcur.
  { unfold _current_tokens. by destruct (current_player s). }
  assert (Forall in_range (_opponent_tokens s)) as Hopp.
  { unfold _opponent_tokens. by destruct (current_player s). }
  assert (in_range target) as Htarget.
  { pose proof (Forall_lookup_1 _ _ _ _ Hcur Hl) as Hpos.
    apply legal_target_range in Ht; [|done..].
    unfold in_range. lia. }
  assert (Forall in_range (<[i:=target]> (_current_tokens s))) as Hcur'.
  { by apply Forall_insert. }
  set (opp' := if bool_decide (target < TRACK_LEN) then _ else _).
  assert (Forall in_range opp') as Hopp'.
  { unfold opp'. case_bool_decide; [|done].
    apply Forall_fmap. eapply Forall_impl; [exact Hopp|].
    intros x Hx. simpl. unfold captured. case_bool_decide; [|done].
    unfold in_range, HOME, TRACK_LEN, FINISH_LEN. lia. }
  unfold well_formed, moved. case_decide; simpl; by split.
Qed.

(** With Blue to move the own-occupancy test compares like with like, and
    a legal action never puts two of Blue's tokens on one position. *)
Lemma legal_action_no_stack_Blue action s' :
  current_player s = Blue → well_formed s → no_stack (blue_tokens s) →
  action ∈ get_legal_actions s dice_roll →
  apply_action s action = inr s' →
  no_stack (blue_tokens s').
Proof using die.
  intros Hturn [Hb _] Hns Hin Hs'. destruct action as [token_index target].
  apply elem_of_get_legal_actions in Hin as (idx & pos & -> & Hl & Ht).
  apply apply_action_inr in Hs' as (i & Hi & _ & ->).
  assert (_current_tokens s = blue_tokens s) as Hcur.
  { unfold _current_tokens. by rewrite decide_True. }
  rewrite Hcur, Hturn in *.
  rewrite py_index_of_nat in Hi by (by eapply lookup_lt_Some). simplify_eq.
  pose proof (Forall_lookup_1 _ _ _ _ Hb Hl) as Hpos.
  apply legal_target_free_Blue in Ht; [|done..].
  unfold moved. rewrite decide_True by done. simpl.
  intros j k p Hj Hk Hp.
  apply list_lookup_insert_Some in Hj as [(-> & -> & _) | (Hne & Hj)];
    apply list_lookup_insert_Some in Hk as [(-> & Heq & _) | (Hne' & Hk)];
    try done.
  - exfalso. apply Ht. apply list_elem_of_lookup. by exists k.
  - subst p. exfalso. apply Ht. apply list_elem_of_lookup. by exists j.
  - by eapply Hns.
Qed.
End legal_moves.

(** C7. For a die in 1..6 no action offered by [get_legal_actions] moves a
    token that stands on the terminal finish value 43, and no offered
    action has a target of 44 or more. *)
Theorem legal_actions_finished_immobile_no_overshoot
    (s : LudoState) (dice_roll token_index target : Z) :
  1 ≤ dice_roll ≤ 6 →
  (token_index, target) ∈ get_legal_actions s dice_roll →
  target < TRACK_LEN + FINISH_LEN ∧
  ∃ pos, 0 ≤ token_index ∧
         _current_tokens s !! Z.to_nat token_index = Some pos ∧
         pos ≠ TRACK_LEN + FINISH_LEN - 1.
Proof.
  intros Hd (idx & pos & -> & Hl & Ht)%elem_of_get_legal_actions.
  rewrite Nat2Z.id. revert Ht.
  unfold legal_target, HOME, TRACK_LEN, FINISH_LEN.
  intros Ht. split.
  - repeat case_bool_decide; repeat case_match; simplify_eq; lia.
  - exists pos. split; [lia|]. split; [done|].
    repeat case_bool_decide; repeat case_match; simplify_eq; lia.
Qed.

Lemma legal_actions_finished_immobile_no_overshoot_witness :
  let s := mkLudoState [43; 42; 38; -1] [-1; -1; -1; -1] Blue in
  (2, 39) ∈ get_legal_actions s 1 ∧
  39 < TRACK_LEN + FINISH_LEN ∧
  ∃ pos, 0 ≤ 2 ∧ _current_tokens s !! Z.to_nat 2 = Some pos ∧
         pos ≠ TRACK_LEN + FINISH_LEN - 1.
Proof.
  assert ((2, 39) ∈ get_legal_actions
            (mkLudoState [43; 42; 38; -1] [-1; -1; -1; -1] Blue) 1) as Hin
    by compute_done.
  split; [exact Hin|].
  apply (legal_actions_finished_immobile_no_overshoot _ 1 2 39); [lia | exact Hin].
Defined.

(** ** Entering from home *)

(** With Blue to move, a token at home is offered a move exactly when the
    die is 6 and no Blue token stands on relative position 0, and the move
    goes to relative position 0. *)
Lemma home_entry_Blue s dice_roll (idx : nat) target :
  current_player s = Blue → blue_tokens s !! idx = Some HOME →
  (Z.of_nat idx, target) ∈ get_legal_actions s dice_roll ↔
  dice_roll = 6 ∧ (0 ∉ blue_tokens s) ∧ target = 0.
Proof.
  intros Hturn Hhome. rewrite elem_of_get_legal_actions.
  assert (_current_tokens s = blue_tokens s) as ->.
  { unfold _current_tokens. by rewrite decide_True. }
  rewrite Hturn.
  assert (legal_target (blue_tokens s) (_track_positions (blue_tokens s) Blue)
            dice_roll HOME = Some target ↔
          dice_roll = 6 ∧ (0 ∉ blue_tokens s) ∧ target = 0) as Hbody.
  { unfold legal_target. rewrite bool_decide_eq_true_2 by done.
    case_bool_decide as Hd; [fo_solver|].
    simpl.
    destruct (py_in 0 _) eqn:Hin.
    - apply py_in_true, elem_of__track_positions_Blue in Hin. fo_solver.
    - apply py_in_false in Hin. rewrite elem_of__track_positions_Blue in Hin.
      unfold TRACK_LEN in Hin. split; [|fo_solver].
      intros [= <-]. split_and!; [done| |done]. intros ?. apply Hin. split; [done|lia]. }
  split.
  - intros (idx' & pos & Heq & Hl & Ht). apply Nat2Z.inj in Heq as <-.
    rewrite Hhome in Hl. simplify_eq. by apply Hbody.
  - intros H. exists idx, HOME. split_and!; [done..|]. by apply Hbody.
Qed.

(** With Red to move the relative target 0 is looked up among Red's
    absolute squares, so the entry is offered exactly when the die is 6 and
    no Red token stands on relative position 20. *)
Lemma home_entry_Red s dice_roll (idx : nat) target :
  current_player s = Red → red_tokens s !! idx = Some HOME →
  (Z.of_nat idx, target) ∈ get_legal_actions s dice_roll ↔
  dice_roll = 6 ∧ (RED_START ∉ red_tokens s) ∧ target = 0.
Proof.
  intros Hturn Hhome. rewrite elem_of_get_legal_actions.
  assert (_current_tokens s = red_tokens s) as ->.
  { unfold _current_tokens. rewrite Hturn. done. }
  rewrite Hturn.
  assert (0 ∈ _track_positions (red_tokens s) Red ↔ RED_START ∈ red_tokens s)
    as Hown.
  { rewrite elem_of__track_positions. unfold _track_to_global. simpl.
    change RED_START with 20. unfold TRACK_LEN. split.
    - intros (pos & Hin & Hr & Hm).
      assert (pos = 20) as -> by (revert Hm; Z.div_mod_to_equations; lia).
      done.
    - intros Hin. exists 20. split; [done|]. split; [lia|done]. }
  assert (legal_target (red_tokens s) (_track_positions (red_tokens s) Red)
            dice_roll HOME = Some target ↔
          dice_roll = 6 ∧ (RED_START ∉ red_tokens s) ∧ target = 0) as Hbody.
  { unfold legal_target. rewrite bool_decide_eq_true_2 by done.
    case_bool_decide as Hd; [fo_solver|].
    simpl.
    destruct (py_in 0 _) eqn:Hin.
    - apply py_in_true, Hown in Hin. fo_solver.
    - apply py_in_false in Hin. rewrite Hown in Hin. fo_solver. }
  split.
  - intros (idx' & pos & Heq & Hl & Ht). apply Nat2Z.inj in Heq as <-.
    rewrite Hhome in Hl. simplify_eq. by apply Hbody.
  - intros H. exists idx, HOME. split_and!; [done..|]. by apply Hbody.
Qed.

(** C2. The entry rule (a token at home is offered a move exactly when the
    die is 6 and the mover has no token on relative position 0) fails with
    Red to move: with a Red token on relative position 0 and a 6 rolled,
    every Red token at home is still offered the entry to position 0; and
    with Red's only token on the board on relative position 20 (absolute
    square 0) and position 0 free, no token at home is offered the entry. *)
Theorem red_home_entry_tests_absolute_square :
  let s := mkLudoState [-1; -1; -1; -1] [0; -1; -1; -1] Red in
  let s' := mkLudoState [-1; -1; -1; -1] [20; -1; -1; -1] Red in
  (0 ∈ _current_tokens s ∧
   get_legal_actions s 6 = [(0, 6); (1, 0); (2, 0); (3, 0)]) ∧
  ((0 ∉ _current_tokens s') ∧ get_legal_actions s' 6 = [(0, 26)]).
Proof.
  split; (split; [compute_done | vm_compute; reflexivity]).
Qed.

(** C1. A legal action can leave two of the mover's tokens on one relative
    position: with Red to move, one Red token on relative position 0, no
    two Red tokens sharing a position on the board and a 6 rolled, the
    action (1, 0) is offered, and applying it puts a second Red token on
    position 0. *)
Theorem red_home_entry_stacks_two_tokens :
  let s := mkLudoState [-1; -1; -1; -1] [0; -1; -1; -1] Red in
  well_formed s ∧ no_stack (red_tokens s) ∧
  (1, 0) ∈ get_legal_actions s 6 ∧
  apply_action s (1, 0) = inr (mkLudoState [-1; -1; -1; -1] [0; 0; -1; -1] Blue) ∧
  ¬ no_stack [0; 0; -1; -1].
Proof.
  simpl. split_and!.
  - split; simpl; repeat constructor; unfold TRACK_LEN, FINISH_LEN; lia.
  - intros i j pos Hi Hj Hp.
    destruct i as [|[|[|[|i]]]], j as [|[|[|[|j]]]]; simplify_eq/=; done.
  - compute_done.
  - vm_compute. reflexivity.
  - intros Hns. by specialize (Hns 0%nat 1%nat 0 eq_refl eq_refl ltac:(done)).
Qed.

(** ** Capture *)

(** The first scenario of the capture test: Blue's token moved from relative
    position 5 to relative position 20 stands on absolute square 20, where
    Red's token on its relative position 0 stands, and that token is sent
    home. *)
Lemma capture_scenario_blue_5_to_20 :
  let s := mkLudoState [5; -1; -1; -1] [0; -1; -1; -1] Blue in
  ∃ s', apply_action s (0, 20) = inr s' ∧
        red_tokens s !! 0%nat = Some 0 ∧ red_tokens s' !! 0%nat = Some HOME.
Proof. eexists. split; [vm_compute; reflexivity|]. by split. Qed.

(** C4 (amended). When [apply_action] succeeds with a target on the shared
    track (target < 40), the target is translated to the absolute square
    (player_offset + target) mod 40 and every opponent token on the track
    whose absolute square is that one is sent home, while opponent tokens at
    home, in the finish lane or on other squares are unchanged; a target in
    the finish lane (target >= 40) changes no opponent token.  From
    blue = [15,-1,-1,-1], red = [0,-1,-1,-1] the Blue action (0, 20) sends
    Red's token home; from blue = [5,-1,-1,-1] the same action does so too,
    and it is the action (0, 25) that leaves Red's token in place. *)
Theorem apply_action_capture (s s' : LudoState) (token_index target : Z) :
  apply_action s (token_index, target) = inr s' →
  tokens_of (other_player (current_player s)) s' =
    (if bool_decide (target < TRACK_LEN)
     then captured (other_player (current_player s))
            (_track_to_global target (current_player s)) <$> _opponent_tokens s
     else _opponent_tokens s) ∧
  apply_action (mkLudoState [15; -1; -1; -1] [0; -1; -1; -1] Blue) (0, 20)
    = inr (mkLudoState [20; -1; -1; -1] [-1; -1; -1; -1] Red) ∧
  apply_action (mkLudoState [5; -1; -1; -1] [0; -1; -1; -1] Blue) (0, 20)
    = inr (mkLudoState [20; -1; -1; -1] [-1; -1; -1; -1] Red) ∧
  apply_action (mkLudoState [5; -1; -1; -1] [0; -1; -1; -1] Blue) (0, 25)
    = inr (mkLudoState [25; -1; -1; -1] [0; -1; -1; -1] Red).
Proof.
  intros (i & _ & _ & ->)%apply_action_inr.
  split; [apply tokens_of_moved_opponent|].
  split_and!; vm_compute; reflexivity.
Qed.

Lemma apply_action_capture_witness :
  let s := mkLudoState [7; 7; 41; 8] [25; -1; 42; -1] Red in
  let s' := mkLudoState [-1; -1; 41; 8] [27; -1; 42; -1] Blue in
  apply_action s (0, 27) = inr s' ∧
  tokens_of Blue s' = [-1; -1; 41; 8].
Proof.
  assert (apply_action (mkLudoState [7; 7; 41; 8] [25; -1; 42; -1] Red) (0, 27)
          = inr (mkLudoState [-1; -1; 41; 8] [27; -1; 42; -1] Blue)) as H
    by (vm_compute; reflexivity).
  split; [exact H|].
  exact (proj1 (apply_action_capture _ _ 0 27 H)).
Defined.

(** ** Terminal states and the winner *)

Lemma _all_finished_true tokens :
  _all_finished tokens = true ↔
  Forall (λ pos, TRACK_LEN + FINISH_LEN - 1 ≤ pos) tokens.
Proof.
  unfold _all_finished. rewrite forallb_forall, Forall_forall.
  split; intros H x Hx.
  - apply list_elem_of_In, H in Hx. by apply bool_decide_eq_true in Hx.
  - apply bool_decide_eq_true, H. by apply list_elem_of_In.
Qed.

Lemma _all_finished_all_home tokens :
  Forall in_range tokens → (_all_finished tokens = true ↔ all_home tokens).
Proof.
  intros Hr. rewrite _all_finished_true. unfold all_home.
  rewrite !Forall_forall in *. split; intros H x Hx.
  - specialize (H x Hx). specialize (Hr x Hx). unfold in_range in Hr. lia.
  - rewrite (H x Hx). lia.
Qed.

(** That on every well-formed state a player is reported as the winner
    exactly when all of that player's tokens are on 43 fails where both
    players are complete: [winner] tests Blue first, and Red, with all four
    tokens on 43, is not reported. *)
Lemma winner_both_complete :
  let s := mkLudoState [43; 43; 43; 43] [43; 43; 43; 43] Blue in
  well_formed s ∧ all_home (tokens_of Red s) ∧ winner s ≠ Some Red.
Proof.
  simpl. split_and!.
  - split; simpl; repeat constructor; unfold TRACK_LEN, FINISH_LEN; lia.
  - unfold tokens_of. simpl. repeat constructor.
  - vm_compute. done.
Qed.

(** C6 (amended). On a well-formed state Blue is reported as the winner
    exactly when all of Blue's tokens are on 43; Red is reported as the
    winner exactly when all of Red's tokens are on 43 and not all of
    Blue's are; the state is terminal exactly when all tokens of at least
    one player are on 43; and a player with three tokens on 43 and the
    fourth below is not the winner, the state being terminal then only if
    the other player is complete. *)
Theorem winner_terminal_characterisation (s : LudoState) :
  well_formed s →
  (winner s = Some Blue ↔ all_home (blue_tokens s)) ∧
  (winner s = Some Red ↔ all_home (red_tokens s) ∧ ¬ all_home (blue_tokens s)) ∧
  (is_terminal s = true ↔ all_home (blue_tokens s) ∨ all_home (red_tokens s)) ∧
  (∀ player x,
     tokens_of player s ≡ₚ [43; 43; 43; x] → x < 43 →
     winner s ≠ Some player ∧
     (is_terminal s = true → all_home (tokens_of (other_player player) s))).
Proof.
  intros [Hb Hr].
  pose proof (_all_finished_all_home _ Hb) as HB.
  pose proof (_all_finished_all_home _ Hr) as HR.
  assert (winner s = Some Blue ↔ all_home (blue_tokens s)) as HwB.
  { unfold winner. rewrite <- HB.
    destruct (_all_finished (blue_tokens s)); [done|].
    destruct (_all_finished (red_tokens s)); split; done. }
  assert (winner s = Some Red ↔ all_home (red_tokens s) ∧ ¬ all_home (blue_tokens s))
    as HwR.
  { unfold winner. rewrite <- HB, <- HR.
    destruct (_all_finished (blue_tokens s)); [fo_solver|].
    destruct (_all_finished (red_tokens s)); fo_solver. }
  assert (is_terminal s = true ↔ all_home (blue_tokens s) ∨ all_home (red_tokens s))
    as Ht.
  { unfold is_terminal. rewrite orb_true_iff. by rewrite HB, HR. }
  split_and!; try done.
  intros player x Hperm Hx.
  assert (¬ all_home (tokens_of player s)) as Hnot.
  { unfold all_home. rewrite Hperm. intros Hall.
    apply Forall_cons in Hall as [_ Hall]. apply Forall_cons in Hall as [_ Hall].
    apply Forall_cons in Hall as [_ Hall]. apply Forall_cons in Hall as [Hall _].
    unfold TRACK_LEN, FINISH_LEN in Hall. lia. }
  unfold tokens_of in *. destruct player; simpl in *.
  - split; [by rewrite HwB|]. rewrite Ht. by intros [?|?].
  - split; [rewrite HwR; fo_solver|]. rewrite Ht. by intros [?|?].
Qed.

Lemma winner_terminal_characterisation_witness :
  let s := mkLudoState [43; 43; 12; 43] [43; 43; 43; 43] Blue in
  well_formed s ∧ winner s = Some Red ∧ is_terminal s = true.
Proof.
  assert (well_formed (mkLudoState [43; 43; 12; 43] [43; 43; 43; 43] Blue)) as Hwf.
  { split; simpl; repeat constructor; unfold TRACK_LEN, FINISH_LEN; lia. }
  split; [exact Hwf|].
  destruct (winner_terminal_characterisation _ Hwf) as (_ & HwR & Ht & _).
  split.
  - apply HwR. split.
    + repeat constructor.
    + intros Hall. apply Forall_cons in Hall as [_ Hall].
      apply Forall_cons in Hall as [_ Hall]. apply Forall_cons in Hall as [Hall _].
      unfold TRACK_LEN, FINISH_LEN in Hall. lia.
  - apply Ht. right. repeat constructor.
Defined.

(** ** The rules on objects *)

Lemma tokens_at__current_tokens σ self :
  Obj.tokens_at σ (Obj._current_tokens self σ) = _current_tokens (Obj.view σ self).
Proof.
  unfold Obj._current_tokens, _current_tokens, Obj.view. simpl.
  by destruct (decide _).
Qed.

Lemma tokens_at__opponent_tokens σ self :
  Obj.tokens_at σ (Obj._opponent_tokens self σ) = _opponent_tokens (Obj.view σ self).
Proof.
  unfold Obj._opponent_tokens, _opponent_tokens, Obj.view. simpl.
  by destruct (decide _).
Qed.

(** The method on the object raises exactly where the transition on the
    value it holds does, and with the same exception. *)
Lemma obj_apply_action_exn σ self action :
  (Obj.apply_action self action σ).1 =
  match apply_action (Obj.view σ self) action with
  | inl e => Some e
  | inr _ => None
  end.
Proof.
  destruct action as [token_index target].
  unfold Obj.apply_action, apply_action.
  rewrite tokens_at__current_tokens.
  destruct (py_index _ _) as [i|]; [|done].
  by destruct (bool_decide _ && bool_decide _).
Qed.

(** Where the method raises it has not come to any assignment yet. *)
Lemma obj_apply_action_exn_store σ self action :
  is_Some (Obj.apply_action self action σ).1 →
  (Obj.apply_action self action σ).2 = σ.
Proof.
  destruct action as [token_index target]. unfold Obj.apply_action.
  destruct (py_index _ _) as [i|]; [|done].
  destruct (bool_decide _ && bool_decide _); [done|]. by intros [? [=]].
Qed.

(** A token index that addresses no token raises [IndexError]. *)
Lemma obj_apply_action_index_error σ self token_index target :
  py_index (length (_current_tokens (Obj.view σ self))) token_index = None →
  Obj.apply_action self (token_index, target) σ = (Some IndexError, σ).
Proof.
  intros Hi. unfold Obj.apply_action. by rewrite tokens_at__current_tokens, Hi.
Qed.

(** C9. Whenever [apply_action] raises (its invalid-action error for a
    home token with a target other than 0, or the index error of a token
    index out of range), the store is as it was: no token of either player
    has moved, nothing is captured and the turn has not passed. *)
Theorem apply_action_raise_unchanged
    (σ σ' : Obj.Store) (self : Obj.ref) (action : Action) (e : exn) :
  Obj.apply_action self action σ = (Some e, σ') → σ' = σ.
Proof.
  destruct action as [token_index target]. unfold Obj.apply_action.
  (* the index error of [tokens[token_index]] *)
  destruct (py_index _ _) as [i|]; [|by intros [= _ <-]].
  (* the invalid-action error; past it nothing is raised *)
  destruct (bool_decide _ && bool_decide _); [by intros [= _ <-]|done].
Qed.

Lemma apply_action_raise_unchanged_witness :
  let σ := Obj.mkStore [[-1; 12; -1; -1]; [33; -1; -1; -1]]
                       [Obj.mkInstance 0%nat 1%nat Blue] in
  Obj.apply_action 0%nat (0, 5) σ = (Some ValueError, σ) ∧ σ = σ.
Proof.
  assert (Obj.apply_action 0%nat (0, 5)
            (Obj.mkStore [[-1; 12; -1; -1]; [33; -1; -1; -1]]
                         [Obj.mkInstance 0%nat 1%nat Blue])
          = (Some ValueError,
             Obj.mkStore [[-1; 12; -1; -1]; [33; -1; -1; -1]]
                         [Obj.mkInstance 0%nat 1%nat Blue])) as H
    by (vm_compute; reflexivity).
  split; [exact H|].
  exact (apply_action_raise_unchanged _ _ _ _ _ H).
Defined.

(** ** What a run leaves untouched in the store *)

Lemma frame_refl n m σ : frame n m σ σ.
Proof. by split_and!. Qed.

Lemma frame_trans n m σ1 σ2 σ3 :
  frame n m σ1 σ2 → frame n m σ2 σ3 → frame n m σ1 σ3.
Proof.
  intros (Hi & Hl & Hni & Hnl) (Hi' & Hl' & Hni' & Hnl'). split_and!.
  - intros i ?. rewrite Hi' by done. by apply Hi.
  - intros l ?. rewrite Hl' by done. by apply Hl.
  - lia.
  - lia.
Qed.

Lemma set_item_frame n m σ l i x :
  (m ≤ l)%nat → frame n m σ (Obj.set_item l i x σ).
Proof.
  intros Hl. unfold Obj.set_item. split_and!; simpl; try done.
  - intros l' ?. apply list_lookup_insert_ne. lia.
  - by rewrite length_insert.
Qed.

Lemma set_item_owned n m σ l i x state :
  owned n m σ state → owned n m (Obj.set_item l i x σ) state.
Proof.
  intros (o & Ho & ? & ? & ?). exists o. unfold Obj.set_item. simpl.
  by rewrite length_insert.
Qed.

Lemma set_current_player_frame n m σ state player :
  (n ≤ state)%nat → frame n m σ (Obj.set_current_player state player σ).
Proof.
  intros Hn. unfold Obj.set_current_player. split_and!; simpl; try done.
  - intros i ?. apply list_lookup_insert_ne. lia.
  - by rewrite length_insert.
Qed.

Lemma set_current_player_owned n m σ state state' player :
  owned n m σ state' → owned n m (Obj.set_current_player state player σ) state'.
Proof.
  intros (o & Ho & ? & ? & ?). unfold Obj.set_current_player, owned. simpl.
  destruct (decide (state = state')) as [->|Hne].
  - unfold Obj.instance_at. rewrite Ho. simpl.
    rewrite list_lookup_insert_eq by (by eapply lookup_lt_Some).
    eexists. split; [done|]. simpl. done.
  - rewrite list_lookup_insert_ne by done. by exists o.
Qed.

Lemma capture_loop_frame n m k idx opponent opponent_player target_global σ :
  (m ≤ opponent)%nat →
  frame n m σ (Obj.capture_loop k idx opponent opponent_player target_global σ) ∧
  ∀ state, owned n m σ state →
    owned n m (Obj.capture_loop k idx opponent opponent_player target_global σ) state.
Proof.
  intros Hm. revert idx σ. induction k as [|k IH]; intros idx σ; simpl.
  - split; [apply frame_refl|done].
  - destruct (Obj.tokens_at σ opponent !! idx) as [pos|]; [|split; [apply frame_refl|done]].
    set (σ' := if bool_decide (0 ≤ pos < TRACK_LEN) then _ else _).
    assert (frame n m σ σ' ∧ ∀ state, owned n m σ state → owned n m σ' state)
      as [Hf Ho].
    { unfold σ'. repeat case_bool_decide;
        (split; [first [by apply set_item_frame | apply frame_refl]
                | intros; first [by apply set_item_owned | done]]). }
    destruct (IH (S idx) σ') as [Hf' Ho']. split.
    + by eapply frame_trans.
    + intros state ?. by apply Ho', Ho.
Qed.

(** [apply_action] on an instance that owns its lists changes these three
    objects only. *)
Lemma obj_apply_action_frame n m σ state action :
  owned n m σ state →
  frame n m σ (Obj.apply_action state action σ).2 ∧
  owned n m (Obj.apply_action state action σ).2 state.
Proof.
  intros Hown. pose proof Hown as (o & Ho & Hn & Hb & Hr).
  destruct action as [token_index target]. unfold Obj.apply_action.
  destruct (py_index _ _) as [i|]; [|split; [apply frame_refl|done]].
  destruct (bool_decide _ && bool_decide _); [split; [apply frame_refl|done]|].
  simpl.
  assert ((m ≤ Obj._current_tokens state σ)%nat ∧
          (m ≤ Obj._opponent_tokens state σ)%nat) as [Hcur Hopp].
  { unfold Obj._current_tokens, Obj._opponent_tokens, Obj.instance_at.
    rewrite Ho. simpl. destruct (decide _); lia. }
  set (σ1 := if bool_decide (target < TRACK_LEN) then _ else _).
  assert (frame n m σ σ1 ∧ owned n m σ1 state) as [Hf1 Ho1].
  { unfold σ1. case_bool_decide; [|split; [apply frame_refl|done]].
    destruct (py_in _ _); [|split; [apply frame_refl|done]].
    unfold Obj._capture_opponent.
    destruct (capture_loop_frame n m
                (length (Obj.tokens_at σ (Obj._opponent_tokens state σ))) 0
                (Obj._opponent_tokens state σ)
                (other_player (Obj.self_current_player (Obj.instance_at σ state)))
                (_track_to_global target
                   (Obj.self_current_player (Obj.instance_at σ state))) σ Hopp)
      as [Hf Ho'].
    split; [done|by apply Ho']. }
  split.
  - eapply frame_trans; [exact Hf1|]. eapply frame_trans.
    + apply set_item_frame. exact Hcur.
    + apply set_current_player_frame. exact Hn.
  - by apply set_current_player_owned, set_item_owned.
Qed.

(** A clone is a new instance that owns two new lists holding what the
    lists of the instance it was made from hold. *)
Lemma clone_spec σ self o :
  Obj.instances σ !! self = Some o →
  (Obj.self_blue_tokens o < length (Obj.lists σ))%nat →
  (Obj.self_red_tokens o < length (Obj.lists σ))%nat →
  Obj.clone self σ =
  (length (Obj.instances σ),
   Obj.mkStore
     (Obj.lists σ ++ [Obj.tokens_at σ (Obj.self_blue_tokens o);
                      Obj.tokens_at σ (Obj.self_red_tokens o)])
     (Obj.instances σ ++
        [Obj.mkInstance (length (Obj.lists σ)) (S (length (Obj.lists σ)))
           (Obj.self_current_player o)])).
Proof.
  intros Ho Hb Hr. unfold Obj.clone, Obj.copy, Obj.new, Obj.instance_at.
  rewrite Ho. simpl. f_equal. f_equal.
  - rewrite <- app_assoc. simpl. do 3 f_equal.
    unfold Obj.tokens_at. simpl. by rewrite lookup_app_l.
  - rewrite length_app. simpl. do 3 f_equal. lia.
Qed.

Lemma clone_view σ self :
  Obj.allocated σ self →
  Obj.view (Obj.clone self σ).2 (Obj.clone self σ).1 = Obj.view σ self.
Proof.
  intros (o & Ho & Hb & Hr). rewrite (clone_spec _ _ _ Ho Hb Hr). simpl.
  unfold Obj.view, Obj.instance_at. simpl.
  rewrite lookup_app_r by done. rewrite Nat.sub_diag, Ho. simpl.
  unfold Obj.tokens_at. simpl.
  rewrite lookup_app_r by done. rewrite Nat.sub_diag. simpl.
  rewrite lookup_app_r by lia.
  replace (S (length (Obj.lists σ)) - length (Obj.lists σ))%nat with 1%nat by lia.
  done.
Qed.

Lemma clone_frame n m σ self :
  Obj.allocated σ self →
  (n ≤ length (Obj.instances σ))%nat → (m ≤ length (Obj.lists σ))%nat →
  frame n m σ (Obj.clone self σ).2 ∧
  owned n m (Obj.clone self σ).2 (Obj.clone self σ).1 ∧
  ∀ state, owned n m σ state → owned n m (Obj.clone self σ).2 state.
Proof.
  intros (o & Ho & Hb & Hr) Hn Hm. rewrite (clone_spec _ _ _ Ho Hb Hr). simpl.
  split_and!.
  - split_and!; simpl.
    + intros i ?. apply lookup_app_l. lia.
    + intros l ?. apply lookup_app_l. lia.
    + rewrite length_app. lia.
    + rewrite length_app. lia.
  - eexists. simpl. rewrite lookup_app_r by done. rewrite Nat.sub_diag. simpl.
    split; [done|]. rewrite length_app. simpl. lia.
  - intros state (o' & Ho' & ? & ? & ?). exists o'. simpl.
    rewrite lookup_app_l by (by eapply lookup_lt_Some).
    split; [done|]. rewrite length_app. simpl. lia.
Qed.

Lemma owned_allocated n m σ state : owned n m σ state → Obj.allocated σ state.
Proof. intros (o & ? & ? & ? & ?). exists o. split_and!; [done|lia..]. Qed.

Lemma below_allocated n m σ state : below n m σ state → Obj.allocated σ state.
Proof. intros (o & ? & ? & ? & ? & ?). exists o. split_and!; [done|lia..]. Qed.

Lemma below_frame n m σ σ' state :
  below n m σ state → frame n m σ σ' → below n m σ' state.
Proof.
  intros (o & Ho & ? & ? & ? & ?) (Hi & Hl & ? & ?). exists o.
  rewrite Hi by lia. split_and!; [done|lia..].
Qed.

(** Below the frame an instance keeps its value. *)
Lemma below_view n m σ σ' state :
  below n m σ state → frame n m σ σ' → Obj.view σ' state = Obj.view σ state.
Proof.
  intros (o & Ho & ? & ? & ? & ?) (Hi & Hl & ? & ?).
  unfold Obj.view, Obj.instance_at, Obj.tokens_at.
  rewrite Hi by lia. rewrite Ho. simpl.
  by rewrite (Hl (Obj.self_blue_tokens o)), (Hl (Obj.self_red_tokens o)) by lia.
Qed.

(** ** The node table only grows *)

Lemma nodes_le_refl t : nodes_le t t.
Proof. intros k node ?. by exists node. Qed.

Lemma nodes_le_trans t1 t2 t3 : nodes_le t1 t2 → nodes_le t2 t3 → nodes_le t1 t3.
Proof.
  intros H12 H23 k node Hk.
  destruct (H12 _ _ Hk) as (node2 & Hk2 & HN2).
  destruct (H23 _ _ Hk2) as (node3 & Hk3 & HN3).
  exists node3. split; [done|]. auto.
Qed.

Lemma nodes_le_insert t k node :
  t !! k = None → nodes_le t (<[k := node]> t).
Proof.
  intros Hk k' node' Hk'. exists node'. split; [|done].
  rewrite lookup_insert_ne; [done|]. intros ->. congruence.
Qed.

Lemma nodes_le_alter t k f :
  (∀ node, MCTSNode.N node ≠ [] → MCTSNode.N (f node) ≠ []) →
  nodes_le t (alter f k t).
Proof.
  intros Hf k' node Hk'. destruct (decide (k = k')) as [->|Hne].
  - exists (f node). split; [|by apply Hf].
    rewrite lookup_alter_eq. by rewrite Hk'.
  - exists node. split; [|done]. by rewrite lookup_alter_ne.
Qed.

Lemma dict_set_nonempty {K V} `{EqDecision K} (d : dict K V) k v :
  dict_set d k v ≠ [].
Proof. destruct d as [|[k' v'] d]; simpl; [done|]. by destruct (decide _). Qed.

Lemma nodes_le_backpropagate path outcome t :
  nodes_le t (foldl (MCTS.visit_entry outcome) t path).
Proof.
  revert t. induction path as [|[[k action] player] path IH]; intros t; simpl.
  - apply nodes_le_refl.
  - eapply nodes_le_trans; [|apply IH].
    apply nodes_le_alter. intros node _. simpl. apply dict_set_nonempty.
Qed.

Lemma visited_mono path path' t0 t1 t2 :
  visited path' t1 t2 → path ⊆ path' → nodes_le t0 t1 → visited path t0 t2.
Proof.
  intros Hv Hsub Hle k action player Hin [node Hk].
  destruct (Hle _ _ Hk) as (node1 & Hk1 & _).
  eapply Hv; [by apply Hsub|by eexists].
Qed.

(** Backpropagation records a visit on every node of the path. *)
Lemma visited_backpropagate path outcome t :
  visited path t (foldl (MCTS.visit_entry outcome) t path).
Proof.
  revert t. induction path as [|[[k a] p] path IH]; intros t k0 a0 p0 Hin Hsome.
  { by apply elem_of_nil in Hin. }
  simpl. apply elem_of_cons in Hin as [[= -> -> ->]|Hin].
  - destruct Hsome as [node Hk].
    destruct (nodes_le_backpropagate path outcome
                (alter (MCTS.visit a outcome) k t) k (MCTS.visit a outcome node))
      as (node' & Hk' & HN).
    { rewrite lookup_alter_eq. by rewrite Hk. }
    exists node'. split; [done|]. apply HN. simpl. apply dict_set_nonempty.
  - eapply IH; [done|]. destruct Hsome as [node Hk].
    destruct (nodes_le_alter t k (MCTS.visit a outcome)
                (λ _ _, dict_set_nonempty _ _ _) _ _ Hk) as (node' & Hk' & _).
    by eexists.
Qed.

(** ** Steps of the monad *)

Lemma world_eta w : mkWorld (store w) (nodes w) (draws w) = w.
Proof. by destruct w. Qed.

Lemma bind_ret {A B} (a : A) (k : A → M B) w : bind (ret a) k w = k a w.
Proof. reflexivity. Qed.

Lemma bind_read {A B} (f : Obj.Store → A) (k : A → M B) w :
  bind (read f) k w = k (f (store w)) w.
Proof. reflexivity. Qed.

Lemma bind_write {B} f (k : unit → M B) w :
  bind (write f) k w = k () (mkWorld (f (store w)) (nodes w) (draws w)).
Proof. reflexivity. Qed.

Lemma bind_alloc {A B} (f : Obj.Store → A * Obj.Store) (k : A → M B) w :
  bind (alloc f) k w =
  k (f (store w)).1 (mkWorld (f (store w)).2 (nodes w) (draws w)).
Proof. unfold bind, alloc. by destruct (f (store w)). Qed.

Lemma bind_get_node {B} key (k : option MCTSNode.t → M B) w :
  bind (get_node key) k w = k (nodes w !! key) w.
Proof. reflexivity. Qed.

Lemma bind_update_nodes {B} f (k : unit → M B) w :
  bind (update_nodes f) k w = k () (mkWorld (store w) (f (nodes w)) (draws w)).
Proof. reflexivity. Qed.

Lemma bind_randint `{Runtime} {B} (k : Z → M B) w :
  bind (randint 1 6) k w =
  k (next_die w) (mkWorld (store w) (nodes w) (S (draws w))).
Proof. reflexivity. Qed.

Lemma _backpropagate_spec path winner w :
  ∃ v t, nodes_le (nodes w) t ∧ visited path (nodes w) t ∧
    MCTS._backpropagate path winner w = (Ret v, mkWorld (store w) t (draws w)).
Proof.
  eexists _, _. split_and!; [| |reflexivity]; simpl.
  - apply nodes_le_backpropagate.
  - apply visited_backpropagate.
Qed.

(** [random.choice] on a list that is not empty returns one of its
    elements. *)
Lemma choice_spec `{Runtime} {A} (l : list A) w :
  l ≠ [] →
  ∃ x, x ∈ l ∧
       choice l w = (Ret x, mkWorld (store w) (nodes w) (S (draws w))).
Proof.
  intros Hl. unfold choice.
  destruct (l !! (rand (draws w) `mod` length l)%nat) as [x|] eqn:Hx.
  - exists x. split; [|done]. by eapply list_elem_of_lookup_2.
  - apply lookup_ge_None in Hx. destruct l; [done|]. simpl in Hx.
    pose proof (Nat.mod_upper_bound (rand (draws w)) (S (length l))). lia.
Qed.

(** An action taken from those [get_legal_actions] offers for the instance
    is applied without an exception, and changes nothing but the instance
    and its lists. *)
Lemma apply_action_m_legal state action dice_roll w :
  action ∈ Obj.get_legal_actions state dice_roll (store w) →
  ∃ σ', apply_action_m state action w = (Ret (), mkWorld σ' (nodes w) (draws w)) ∧
        ∀ n m, owned n m (store w) state →
               frame n m (store w) σ' ∧ owned n m σ' state.
Proof.
  intros Hin. apply legal_action_applies in Hin as [s' Hs'].
  pose proof (obj_apply_action_exn (store w) state action) as Hexn.
  rewrite Hs' in Hexn. unfold apply_action_m.
  destruct (Obj.apply_action state action (store w)) as [o σ'] eqn:Happ.
  simpl in Hexn. subst o. exists σ'. split; [done|].
  intros n m Hown.
  pose proof (obj_apply_action_frame n m _ _ action Hown) as Hf.
  by rewrite Happ in Hf.
Qed.

(** ** The rollout *)

(** [_rollout] returns: it raises nothing, it ends within its ply cap, it
    leaves the node table alone, and it mutates nothing but the instance it
    is given and the lists of that instance. *)
Lemma _rollout_spec `{Runtime} state max_depth w :
  ∃ v w', MCTS._rollout state max_depth w = (Ret v, w') ∧
          nodes w' = nodes w ∧
          ∀ n m, owned n m (store w) state →
                 frame n m (store w) (store w') ∧ owned n m (store w') state.
Proof.
  revert w. induction max_depth as [|depth IH]; intros w.
  - exists 0%float, w. split_and!; [done..|]. intros. split; [apply frame_refl|done].
  - cbn [MCTS._rollout]. rewrite bind_read.
    destruct (Obj.is_terminal state (store w)).
    { rewrite bind_read.
      destruct (Obj.winner state (store w)) as [[]|];
        eexists _, w; (split_and!; [done..|]);
        intros; (split; [apply frame_refl|done]). }
    rewrite bind_randint, bind_read.
    destruct (Obj.get_legal_actions state (next_die w) _) as [|a l] eqn:Hl.
    + rewrite bind_read, bind_write.
      match goal with |- context [MCTS._rollout state depth ?w1] =>
        destruct (IH w1) as (v & w' & Hr & Hn & Hf) end.
      exists v, w'. split_and!; [done..|]. intros n m Hown. simpl in Hf.
      destruct (Hf n m) as [Hf1 Ho1].
      { by apply set_current_player_owned. }
      split; [|done]. eapply frame_trans; [|exact Hf1].
      apply set_current_player_frame. by destruct Hown as (? & ? & ? & _).
    + destruct (choice_spec (a :: l)
                  (mkWorld (store w) (nodes w) (S (draws w)))) as (x & Hx & Hc);
        [done|].
      unfold bind at 1. rewrite Hc. simpl.
      rewrite <- Hl in Hx.
      destruct (apply_action_m_legal state x (next_die w)
                  (mkWorld (store w) (nodes w) (S (S (draws w)))) Hx)
        as (σ' & Ha & Hfa).
      unfold bind at 1. rewrite Ha. simpl.
      destruct (IH (mkWorld σ' (nodes w) (S (S (draws w)))))
        as (v & w' & Hr & Hn & Hf).
      exists v, w'. split_and!; [done..|]. intros n m Hown. simpl in *.
      destruct (Hfa n m Hown) as [Hf1 Ho1].
      destruct (Hf n m Ho1) as [Hf2 Ho2].
      split; [|done]. by eapply frame_trans.
Qed.

(** ** One simulation *)

Lemma bind_Ret {A B} (m : M A) (k : A → M B) w a w' :
  m w = (Ret a, w') → bind m k w = k a w'.
Proof. intros Hm. unfold bind. by rewrite Hm. Qed.

Lemma no_raise_mono {A} (r : outcome A * World) (Q Q' : World → Prop) :
  no_raise r Q → (∀ w, Q w → Q' w) → no_raise r Q'.
Proof. unfold no_raise. destruct r as [[] w]; simpl; auto. Qed.

Lemma ensures_mono {A} (r : outcome A * World) (Q Q' R R' : World → Prop) :
  ensures r Q R → (∀ w, Q w → Q' w) → (∀ w, Q w → R w → R' w) →
  ensures r Q' R'.
Proof. unfold ensures. destruct r as [[] w]; simpl; fo_solver. Qed.

Lemma ensures_no_raise {A} (r : outcome A * World) (Q R : World → Prop) :
  ensures r Q R → no_raise r Q.
Proof. unfold ensures, no_raise. destruct r as [[] w]; simpl; fo_solver. Qed.

Lemma max_loop_elem {A B} (gt : B → B → bool) (key : A → B) best best_key l :
  max_loop gt key best best_key l ∈ best :: l.
Proof.
  revert best best_key. induction l as [|x l IH]; intros best best_key; simpl.
  - apply list_elem_of_here.
  - destruct (gt _ _).
    + apply list_elem_of_further, IH.
    + specialize (IH best best_key). apply elem_of_cons in IH as [->|?].
      * apply list_elem_of_here.
      * by do 2 apply list_elem_of_further.
Qed.

Lemma py_max_elem {A B} (gt : B → B → bool) (key : A → B) l x :
  py_max gt key l = Some x → x ∈ l.
Proof.
  destruct l as [|y l]; simpl; [done|]. intros [= <-]. apply max_loop_elem.
Qed.

Lemma allocated_owned σ state : Obj.allocated σ state ↔ owned 0 0 σ state.
Proof.
  split.
  - intros (o & ? & ? & ?). exists o. split_and!; [done|lia..].
  - apply owned_allocated.
Qed.

Lemma owned_bounds n m σ state :
  owned n m σ state →
  (n ≤ length (Obj.instances σ))%nat ∧ (m ≤ length (Obj.lists σ))%nat.
Proof.
  intros (o & Ho & ? & ? & ?). apply lookup_lt_Some in Ho. lia.
Qed.

(** [_simulate] raises nothing; the node table only grows over it; it
    mutates nothing but the instance it is given, the lists of that
    instance and the objects it allocates itself; and when it returns, it
    has recorded a visit on every node of its path. *)
Lemma _simulate_spec `{Runtime} self fuel state path w :
  Obj.allocated (store w) state →
  ensures (MCTS._simulate self fuel state path w)
    (λ w', nodes_le (nodes w) (nodes w') ∧
           ∀ n m, owned n m (store w) state → frame n m (store w) (store w'))
    (λ w', visited path (nodes w) (nodes w')).
Proof.
  revert path w. induction fuel as [|fuel IH]; intros path w Halloc.
  { split; [apply nodes_le_refl|]. intros. apply frame_refl. }
  cbn [MCTS._simulate]. rewrite bind_read.
  destruct (Obj.is_terminal state (store w)).
  { rewrite bind_read.
    destruct (_backpropagate_spec path (Obj.winner state (store w)) w)
      as (v & t & Hle & Hv & ->).
    split; [|done]. split; [done|]. intros. apply frame_refl. }
  rewrite bind_read, bind_get_node.
  destruct (nodes w !! _) as [node|] eqn:Hnode; cbv beta iota.
  2:{ (* a new leaf *)
    rewrite bind_update_nodes.
    match goal with |- context [bind (MCTS._rollout state 200) _ ?w1] =>
      destruct (_rollout_spec state 200 w1) as (v & w' & Hr & Hn & Hf) end.
    rewrite (bind_Ret _ _ _ _ _ Hr).
    destruct (_backpropagate_spec path (MCTS._value_to_winner v) w')
      as (v' & t & Hle & Hv & ->).
    rewrite Hn in Hle, Hv. simpl in Hle, Hv.
    pose proof (nodes_le_insert _ _ (MCTSNode.__init__ (Obj.key state (store w)))
                  Hnode) as Hins.
    split; [split|]; simpl.
    - by eapply nodes_le_trans.
    - intros n m Hown. by apply (Hf n m).
    - by eapply visited_mono. }
  rewrite bind_randint, bind_read, bind_read.
  destruct (Obj.get_legal_actions state (next_die w) _) as [|a l] eqn:Hl;
    cbv beta iota.
  { (* no legal action: the turn passes *)
    rewrite bind_write.
    match goal with |- context [MCTS._simulate self fuel state path ?w1] =>
      specialize (IH path w1) end.
    eapply ensures_mono.
    - apply IH. simpl. apply allocated_owned, set_current_player_owned.
      by apply allocated_owned.
    - simpl. intros w' [Hle Hf]. split; [done|]. intros n m Hown.
      eapply frame_trans; [|apply Hf; by apply set_current_player_owned].
      apply set_current_player_frame. by destruct Hown as (? & ? & ? & _).
    - simpl. done. }
  simpl store.
  destruct (filter _ (a :: l)) as [|u untried] eqn:Hu; cbv beta iota.
  - (* every legal action has been tried: selection *)
    destruct (py_max float_gt _ (a :: l)) as [action|] eqn:Hmax; [|done].
    apply py_max_elem in Hmax. rewrite <- Hl in Hmax.
    destruct (apply_action_m_legal state action (next_die w)
                (mkWorld (store w) (nodes w) (S (draws w))) Hmax)
      as (σ' & Ha & Hfa).
    rewrite (bind_Ret _ _ _ _ _ Ha). cbv beta.
    match goal with |- context [MCTS._simulate self fuel state ?p ?w1] =>
      specialize (IH p w1) end.
    simpl in Hfa. eapply ensures_mono.
    + apply IH. simpl. apply allocated_owned, Hfa. by apply allocated_owned.
    + simpl. intros w' [Hle Hf]. split; [done|]. intros n m Hown.
      destruct (Hfa n m Hown) as [Hf1 Ho1].
      eapply frame_trans; [exact Hf1|]. by apply Hf.
    + simpl. intros w' _ Hv. eapply visited_mono; [exact Hv| |apply nodes_le_refl].
      intros e He. apply elem_of_app. by left.
  - (* expansion *)
    destruct (choice_spec (u :: untried)
                (mkWorld (store w) (nodes w) (S (draws w)))) as (x & Hx & Hc);
      [done|].
    rewrite (bind_Ret _ _ _ _ _ Hc). simpl store. simpl nodes. simpl draws.
    rewrite bind_alloc. simpl store. simpl nodes. simpl draws.
    rewrite <- Hu in Hx. apply list_elem_of_filter in Hx as [_ Hx].
    rewrite <- Hl in Hx.
    set (σc := (Obj.clone state (store w)).2).
    set (next_state := (Obj.clone state (store w)).1).
    assert (x ∈ Obj.get_legal_actions next_state (next_die w) σc) as Hx'.
    { unfold Obj.get_legal_actions, σc, next_state. by rewrite clone_view. }
    destruct (apply_action_m_legal next_state x (next_die w)
                (mkWorld σc (nodes w) (S (S (draws w)))) Hx')
      as (σ' & Ha & Hfa).
    rewrite (bind_Ret _ _ _ _ _ Ha).
    rewrite bind_read, bind_update_nodes.
    match goal with |- context [bind (MCTS._rollout next_state 200) _ ?w1] =>
      destruct (_rollout_spec next_state 200 w1) as (v & w' & Hr & Hn & Hf) end.
    rewrite (bind_Ret _ _ _ _ _ Hr). cbv beta.
    match goal with |- context [MCTS._backpropagate ?p ?win w'] =>
      destruct (_backpropagate_spec p win w') as (v' & t & Hle & Hv & ->) end.
    rewrite Hn in Hle, Hv. simpl in Hle, Hv.
    match type of Hle with nodes_le (alter ?f ?k _) _ =>
      pose proof (nodes_le_alter (nodes w) k f (λ _ HN, HN)) as Halt end.
    split; [split|]; simpl.
    + by eapply nodes_le_trans.
    + intros n m Hown. simpl in Hfa, Hf.
      destruct (owned_bounds _ _ _ _ Hown) as [Hbn Hbm].
      destruct (clone_frame n m (store w) state Halloc Hbn Hbm)
        as (Hf0 & Ho0 & _).
      destruct (Hfa n m Ho0) as [Hf1 Ho1].
      destruct (Hf n m Ho1) as [Hf2 _].
      eapply frame_trans; [exact Hf0|]. by eapply frame_trans.
    + eapply visited_mono; [exact Hv| |exact Halt].
      intros e He. apply elem_of_app. by left.
Qed.

(** ** The search *)

Lemma simulations_spec `{Runtime} self fuel root_state k w n m :
  below n m (store w) root_state →
  no_raise (MCTS.simulations self fuel root_state k w)
    (λ w', nodes_le (nodes w) (nodes w') ∧ frame n m (store w) (store w')).
Proof.
  revert w. induction k as [|k IH]; intros w Hbelow.
  { split; [apply nodes_le_refl|apply frame_refl]. }
  cbn [MCTS.simulations]. rewrite bind_alloc.
  pose proof (below_allocated _ _ _ _ Hbelow) as Halloc.
  assert ((n ≤ length (Obj.instances (store w)))%nat ∧
          (m ≤ length (Obj.lists (store w)))%nat) as [Hbn Hbm].
  { destruct Hbelow as (o & ? & ? & ? & ? & ?). lia. }
  destruct (clone_frame n m (store w) root_state Halloc Hbn Hbm) as (Hf0 & Ho0 & _).
  set (σc := (Obj.clone root_state (store w)).2) in *.
  set (state := (Obj.clone root_state (store w)).1) in *.
  pose proof (ensures_no_raise _ _ _
                (_simulate_spec self fuel state [] (mkWorld σc (nodes w) (draws w))
                   (owned_allocated _ _ _ _ Ho0))) as Hsim.
  unfold bind at 1.
  destruct (MCTS._simulate self fuel state [] _) as [[v|e|] w1]; unfold no_raise in Hsim;
    simpl in Hsim; [|done|].
  - destruct Hsim as [Hle Hf1]. specialize (Hf1 n m Ho0).
    assert (frame n m (store w) (store w1)) as Hf by (by eapply frame_trans).
    eapply no_raise_mono; [apply IH; by eapply below_frame|].
    simpl. intros w' [Hle' Hf']. split.
    + by eapply nodes_le_trans.
    + by eapply frame_trans.
  - destruct Hsim as [Hle Hf1]. specialize (Hf1 n m Ho0).
    split; simpl; [done|]. by eapply frame_trans.
Qed.

Lemma with_root_lookup root_key w :
  ∃ node, nodes (with_root root_key w) !! root_key = Some node ∧
          (nodes w !! root_key = None → node = MCTSNode.__init__ root_key).
Proof.
  unfold with_root. simpl. destruct (nodes w !! root_key) as [node|] eqn:Hk.
  - exists node. by rewrite Hk.
  - eexists. by rewrite lookup_insert_eq.
Qed.

Lemma search_unfold `{Runtime} self fuel root_state w :
  MCTS.search self fuel root_state w =
  let root_key := Obj.key root_state (store w) in
  match MCTS.simulations self fuel root_state
          (Z.to_nat (MCTS.n_simulations self)) (with_root root_key w) with
  | (Ret _, w') =>
      match nodes w' !! root_key with
      | None => (Raise KeyError, w')
      | Some root_node =>
          match root_choice root_node, MCTSNode.N root_node with
          | None, _ :: _ => (Raise ValueError, w')
          | choice, _ => (Ret choice, w')
          end
      end
  | (Raise e, w') => (Raise e, w')
  | (Timeout, w') => (Timeout, w')
  end.
Proof.
  unfold MCTS.search. rewrite bind_read, bind_get_node. cbv zeta.
  assert (∀ (k : unit → M (option Action)),
    bind (if nodes w !! Obj.key root_state (store w) is None
          then update_nodes (insert (Obj.key root_state (store w))
                               (MCTSNode.__init__ (Obj.key root_state (store w))))
          else ret ()) k w
    = k () (with_root (Obj.key root_state (store w)) w)) as ->.
  { intros k. unfold with_root. destruct (nodes w !! _); [|done].
    rewrite bind_ret. by rewrite world_eta. }
  unfold bind at 1.
  destruct (MCTS.simulations _ _ _ _ _) as [[[]|e|] w']; [|done..].
  rewrite bind_get_node.
  destruct (nodes w' !! _) as [root_node|]; [|done].
  unfold root_choice. destruct (MCTSNode.N root_node) as [|item N]; [done|].
  by destruct (py_max _ _ _).
Qed.

Lemma root_choice_is_Some root_node :
  MCTSNode.N root_node ≠ [] → is_Some (root_choice root_node).
Proof.
  unfold root_choice. destruct (MCTSNode.N root_node); [done|]. intros _.
  simpl. by eexists.
Qed.

(** [search] raises nothing, and it leaves every object untouched that was
    in the store when it was called. *)
Lemma search_spec `{Runtime} self fuel root_state w n m :
  below n m (store w) root_state →
  no_raise (MCTS.search self fuel root_state w)
    (λ w', frame n m (store w) (store w')).
Proof.
  intros Hbelow. rewrite search_unfold. cbv zeta.
  set (root_key := Obj.key root_state (store w)).
  pose proof (simulations_spec self fuel root_state
                (Z.to_nat (MCTS.n_simulations self)) (with_root root_key w) n m
                Hbelow) as Hsim.
  destruct (with_root_lookup root_key w) as (node0 & Hnode0 & _).
  destruct (MCTS.simulations _ _ _ _ _) as [[[]|e|] w']; unfold no_raise in *;
    simpl in Hsim; [|done|by destruct Hsim].
  destruct Hsim as [Hle Hf].
  destruct (Hle _ _ Hnode0) as (node' & Hnode' & _).
  destruct (nodes w' !! _) as [root_node|] eqn:Hroot.
  2:{ done. }
  pose proof (root_choice_is_Some root_node) as Hsome.
  destruct (MCTSNode.N root_node) as [|item N] eqn:HN.
  - by destruct (root_choice root_node).
  - destruct Hsome as [a ->]; done.
Qed.

Lemma allocated_below σ state :
  Obj.allocated σ state →
  below (length (Obj.instances σ)) (length (Obj.lists σ)) σ state.
Proof.
  intros (o & Ho & ? & ?). exists o. pose proof (lookup_lt_Some _ _ _ Ho).
  split_and!; [done|lia..].
Qed.

Lemma below_unchanged n m σ σ' state :
  below n m σ state → frame n m σ σ' →
  Obj.instance_at σ' state = Obj.instance_at σ state ∧
  Obj.view σ' state = Obj.view σ state.
Proof.
  intros Hbelow Hf. split; [|by eapply below_view].
  destruct Hbelow as (o & Ho & ? & _). destruct Hf as (Hi & _).
  unfold Obj.instance_at. by rewrite Hi by lia.
Qed.

Lemma no_raise_elim {A} (r : outcome A * World) (Q : World → Prop) :
  no_raise r Q → Q r.2 ∧ ∀ e, r.1 ≠ Raise e.
Proof. unfold no_raise. destruct r as [[] w]; simpl; fo_solver. Qed.

Lemma choose_blue_move_unfold `{Runtime} fuel state n_simulations w :
  choose_blue_move fuel state n_simulations w =
  if decide (current_player (Obj.view (store w) state) ≠ Blue)
  then (Raise ValueError, w)
  else MCTS.search (MCTS.mk 1.4%float (default 1000 n_simulations)) fuel state
         (mkWorld (store w) ∅ (draws w)).
Proof.
  unfold choose_blue_move. rewrite bind_read. by destruct (decide _).
Qed.

(** C10. [search], and with it [choose_blue_move], never mutates the root
    state it is given: however the call ends, the instance still refers to
    the same two list objects and the same player, and its blue token list,
    its red token list and its current player are what they were. *)
Theorem search_leaves_root_state_unchanged `{Runtime}
    (self : MCTS.t) (fuel : nat) (root_state : Obj.ref)
    (n_simulations : option Z) (w : World) :
  Obj.allocated (store w) root_state →
  (Obj.instance_at (store (MCTS.search self fuel root_state w).2) root_state
     = Obj.instance_at (store w) root_state ∧
   Obj.view (store (MCTS.search self fuel root_state w).2) root_state
     = Obj.view (store w) root_state) ∧
  (Obj.instance_at (store (choose_blue_move fuel root_state n_simulations w).2)
     root_state = Obj.instance_at (store w) root_state ∧
   Obj.view (store (choose_blue_move fuel root_state n_simulations w).2)
     root_state = Obj.view (store w) root_state).
Proof.
  intros Hbelow%allocated_below. split.
  - eapply below_unchanged; [exact Hbelow|].
    by apply (no_raise_elim _ _ (search_spec self fuel root_state w _ _ Hbelow)).
  - rewrite choose_blue_move_unfold. destruct (decide _); [done|].
    eapply below_unchanged; [exact Hbelow|].
    match goal with |- context [MCTS.search ?s fuel root_state ?w0] =>
      apply (no_raise_elim _ _ (search_spec s fuel root_state w0 _ _ Hbelow)) end.
Qed.

Lemma sample_store_allocated blue red player :
  Obj.allocated (sample_store blue red player) 0.
Proof. eexists. split_and!; [reflexivity | simpl; lia..]. Qed.

Lemma search_leaves_root_state_unchanged_witness :
  let H := sample_runtime (λ i, i * 7 + 5)%nat in
  let self := MCTS.mk 1.4%float 3 in
  Obj.allocated (store start_world) 0 ∧
  Obj.view (store (MCTS.search self 10 0%nat start_world).2) 0
    = mkLudoState [-1; -1; -1; -1] [-1; -1; -1; -1] Blue.
Proof.
  split.
  - eexists. split_and!; [reflexivity | simpl; lia..].
  - refine (eq_trans
      (proj2 (proj1 (@search_leaves_root_state_unchanged
                       (sample_runtime (λ i, i * 7 + 5)%nat)
                       (MCTS.mk 1.4%float 3) 10 0%nat None start_world _))) _).
    + eexists. split_and!; [reflexivity | simpl; lia..].
    + reflexivity.
Defined.

(** ** Failure *)

(** [l[i]] raises exactly for an index outside [-len(l) .. len(l) - 1]. *)
Lemma py_index_None len i :
  py_index len i = None ↔ ¬ (- Z.of_nat len ≤ i < Z.of_nat len).
Proof.
  unfold py_index.
  destruct (bool_decide (0 ≤ i < Z.of_nat len)) eqn:H1;
    [apply bool_decide_eq_true in H1|apply bool_decide_eq_false in H1].
  { split; [done|]. intros Hn. destruct Hn. lia. }
  destruct (bool_decide (- Z.of_nat len ≤ i < 0)) eqn:H2;
    [apply bool_decide_eq_true in H2|apply bool_decide_eq_false in H2].
  { split; [done|]. intros Hn. destruct Hn. lia. }
  split; [|done]. intros _. lia.
Qed.

(** What [apply_action] raises, and when. *)
Lemma obj_apply_action_raises σ self token_index target :
  let tokens := _current_tokens (Obj.view σ self) in
  (py_index (length tokens) token_index = None →
   Obj.apply_action self (token_index, target) σ = (Some IndexError, σ)) ∧
  (∀ i, py_index (length tokens) token_index = Some i →
        tokens !! i = Some HOME → target ≠ 0 →
        Obj.apply_action self (token_index, target) σ = (Some ValueError, σ)) ∧
  (∀ i, py_index (length tokens) token_index = Some i →
        ¬ (tokens !! i = Some HOME ∧ target ≠ 0) →
        (Obj.apply_action self (token_index, target) σ).1 = None).
Proof.
  intros tokens.
  pose proof (obj_apply_action_exn σ self (token_index, target)) as Hexn.
  pose proof (obj_apply_action_exn_store σ self (token_index, target)) as Hst.
  unfold apply_action in Hexn. fold tokens in Hexn.
  destruct (Obj.apply_action self (token_index, target) σ) as [o σ'].
  simpl in Hexn, Hst. subst o.
  split_and!.
  - intros Hi. rewrite Hi in Hst |- *. by rewrite Hst.
  - intros i Hi Hhome Htarget. rewrite Hi in Hst |- *.
    rewrite !bool_decide_eq_true_2 in Hst |- * by done.
    by rewrite Hst.
  - intros i Hi Hno. rewrite Hi.
    destruct (bool_decide (tokens !! i = Some HOME) && bool_decide (target ≠ 0))
      eqn:Hg; [|done].
    apply andb_true_iff in Hg as [?%bool_decide_eq_true ?%bool_decide_eq_true].
    by destruct Hno.
Qed.

(** [apply_action] raises for more than a home token sent elsewhere: with
    no token of the mover at home, an index that addresses no token raises
    [IndexError] at [tokens[token_index]], also where the target is 0. *)
Lemma apply_action_raises_without_home_token :
  let σ := sample_store [5; 12; 40; 43] [-1; -1; -1; -1] Blue in
  (HOME ∉ _current_tokens (Obj.view σ 0)) ∧
  Obj.apply_action 0%nat (7, 0) σ = (Some IndexError, σ) ∧
  Obj.apply_action 0%nat (4, 5) σ = (Some IndexError, σ) ∧
  Obj.apply_action 0%nat (-5, 0) σ = (Some IndexError, σ).
Proof.
  split_and!; [|reflexivity..].
  unfold HOME. simpl. intros Hin.
  repeat (apply elem_of_cons in Hin as [Hin|Hin]; [done|]).
  by apply elem_of_nil in Hin.
Qed.

(** C5 (amended). [choose_blue_move] raises exactly when it is not Blue's
    turn.  [apply_action] raises exactly when the token index addresses no
    token (an index outside [-len .. len - 1]: [IndexError]) or the token it
    addresses is at home and the target is not relative position 0
    ([ValueError]); in both cases the state is left as it was.  [_rollout]
    always returns, and [search] on an engine with an empty table raises
    nothing.  ([get_legal_actions], [is_terminal] and [winner] have no
    failing path: they are total functions of the state.) *)
Theorem failure_conditions `{Runtime}
    (self : MCTS.t) (fuel max_depth : nat) (state : Obj.ref)
    (n_simulations : option Z) (token_index target : Z) (w : World) :
  Obj.allocated (store w) state →
  let tokens := _current_tokens (Obj.view (store w) state) in
  let out_of_range :=
    ¬ (- Z.of_nat (length tokens) ≤ token_index < Z.of_nat (length tokens)) in
  let home_to_elsewhere :=
    ∃ i, py_index (length tokens) token_index = Some i ∧
         tokens !! i = Some HOME ∧ target ≠ 0 in
  ((∃ e w', choose_blue_move fuel state n_simulations w = (Raise e, w')) ↔
   current_player (Obj.view (store w) state) ≠ Blue) ∧
  ((∃ e σ', Obj.apply_action state (token_index, target) (store w)
            = (Some e, σ')) ↔
   out_of_range ∨ home_to_elsewhere) ∧
  (out_of_range →
   Obj.apply_action state (token_index, target) (store w)
     = (Some IndexError, store w)) ∧
  (home_to_elsewhere →
   Obj.apply_action state (token_index, target) (store w)
     = (Some ValueError, store w)) ∧
  (∃ v w', MCTS._rollout state max_depth w = (Ret v, w')) ∧
  (nodes w = ∅ → ∀ e w', MCTS.search self fuel state w ≠ (Raise e, w')).
Proof.
  intros Halloc tokens out_of_range home_to_elsewhere.
  pose proof (allocated_below _ _ Halloc) as Hbelow.
  destruct (obj_apply_action_raises (store w) state token_index target)
    as (Hindex & Hvalue & Hnone).
  fold tokens in Hindex, Hvalue, Hnone.
  split_and!.
  - rewrite choose_blue_move_unfold. destruct (decide _) as [Hne|Heq].
    + split; [done|]. intros _. by eexists _, _.
    + split; [|done]. intros (e & w' & Hs). exfalso.
      match type of Hs with MCTS.search ?s fuel state ?w0 = _ =>
        pose proof (no_raise_elim _ _ (search_spec s fuel state w0 _ _ Hbelow))
          as [_ Hnr] end.
      rewrite Hs in Hnr. by apply (Hnr e).
  - split.
    + intros (e & σ' & Happ).
      destruct (py_index (length tokens) token_index) as [i|] eqn:Hi.
      * right. exists i. split; [done|].
        destruct (decide (tokens !! i = Some HOME ∧ target ≠ 0)) as [|Hno];
          [done|].
        specialize (Hnone i eq_refl Hno). by rewrite Happ in Hnone.
      * left. by apply py_index_None.
    + intros [Hout|(i & Hi & Hhome & Htarget)].
      * eexists _, _. apply Hindex. by apply py_index_None.
      * eexists _, _. by eapply Hvalue.
  - intros Hout. apply Hindex. by apply py_index_None.
  - intros (i & Hi & Hhome & Htarget). by eapply Hvalue.
  - destruct (_rollout_spec state max_depth w) as (v & w' & Hr & _).
    by exists v, w'.
  - intros _ e w' Hs.
    pose proof (no_raise_elim _ _ (search_spec self fuel state w _ _ Hbelow))
      as [_ Hnr].
    rewrite Hs in Hnr. by apply (Hnr e).
Qed.

Lemma failure_conditions_witness :
  let H := sample_runtime (λ i, i * 7 + 5)%nat in
  let w := mkWorld (sample_store [-1; 3; -1; -1] [-1; 7; -1; -1] Red) ∅ 0 in
  Obj.allocated (store w) 0 ∧
  (∃ e w', choose_blue_move 10 0%nat (Some 2) w = (Raise e, w')) ∧
  Obj.apply_action 0%nat (0, 5) (store w) = (Some ValueError, store w) ∧
  Obj.apply_action 0%nat (4, 0) (store w) = (Some IndexError, store w) ∧
  (¬ ∃ e σ', Obj.apply_action 0%nat (1, 9) (store w) = (Some e, σ')) ∧
  ∃ v w', MCTS._rollout 0%nat 200 w = (Ret v, w').
Proof.
  intros H w.
  pose proof (sample_store_allocated [-1; 3; -1; -1] [-1; 7; -1; -1] Red)
    as Halloc.
  split; [exact Halloc|].
  destruct (@failure_conditions H (MCTS.mk 1.4%float 2) 10 200 0%nat (Some 2)
              0 5 w Halloc) as (Hc & _ & _ & Hvalue & Hr & _).
  destruct (@failure_conditions H (MCTS.mk 1.4%float 2) 10 200 0%nat (Some 2)
              4 0 w Halloc) as (_ & _ & Hindex & _).
  destruct (@failure_conditions H (MCTS.mk 1.4%float 2) 10 200 0%nat (Some 2)
              1 9 w Halloc) as (_ & Hiff & _).
  split; [apply Hc; simpl; discriminate|].
  split; [apply Hvalue; exists 0%nat; split_and!; [reflexivity..|lia]|].
  split; [apply Hindex; simpl; lia|].
  split; [|exact Hr].
  intros Hraise. apply Hiff in Hraise as [Hout|(i & Hi & Hhome & _)].
  - apply Hout. simpl. lia.
  - vm_compute in Hi. injection Hi as <-. discriminate Hhome.
Defined.

(** ** The action [search] returns *)

(** A simulation that finds the root node without children, on a state that
    is not terminal and for a die that has a legal action, expands the root:
    it returns, and the root node has a visit count recorded. *)
Lemma first_simulation `{Runtime} self fuel state w node :
  Obj.allocated (store w) state →
  nodes w !! Obj.key state (store w) = Some node →
  MCTSNode.children node = [] →
  Obj.is_terminal state (store w) = false →
  Obj.get_legal_actions state (next_die w) (store w) ≠ [] →
  ∃ v w' node',
    MCTS._simulate self (S fuel) state [] w = (Ret v, w') ∧
    nodes w' !! Obj.key state (store w) = Some node' ∧
    MCTSNode.N node' ≠ [] ∧
    nodes_le (nodes w) (nodes w') ∧
    ∀ n m, owned n m (store w) state → frame n m (store w) (store w').
Proof.
  intros Halloc Hnode Hchildren Hterm Hlegal.
  cbn [MCTS._simulate]. rewrite bind_read, Hterm.
  rewrite bind_read, bind_get_node.
  destruct (nodes w !! _) as [node0|] eqn:Hnode0 in |- *; cbv beta iota.
  2:{ pose proof (eq_trans (eq_sym Hnode0) Hnode). done. }
  assert (node0 = node) as ->.
  { pose proof (eq_trans (eq_sym Hnode0) Hnode). by simplify_eq. }
  rewrite bind_randint, bind_read, bind_read.
  destruct (Obj.get_legal_actions state (next_die w) _) as [|a l] eqn:Hl;
    [done|]. cbv beta iota. simpl store.
  destruct (filter _ (a :: l)) as [|u untried] eqn:Hu; cbv beta iota.
  { exfalso. assert (a ∈ filter (λ action : Action,
                       ¬ dict_in action (MCTSNode.children node)) (a :: l)) as Ha.
    { apply list_elem_of_filter. split; [|apply list_elem_of_here].
      rewrite Hchildren. unfold dict_in. simpl. by intros []. }
    rewrite Hu in Ha. by apply elem_of_nil in Ha. }
  destruct (choice_spec (u :: untried)
              (mkWorld (store w) (nodes w) (S (draws w)))) as (x & Hx & Hc);
    [done|].
  rewrite (bind_Ret _ _ _ _ _ Hc). simpl store. simpl nodes. simpl draws.
  rewrite bind_alloc. simpl store. simpl nodes. simpl draws.
  rewrite <- Hu in Hx. apply list_elem_of_filter in Hx as [_ Hx].
  rewrite <- Hl in Hx.
  set (σc := (Obj.clone state (store w)).2).
  set (next_state := (Obj.clone state (store w)).1).
  assert (x ∈ Obj.get_legal_actions next_state (next_die w) σc) as Hx'.
  { unfold Obj.get_legal_actions, σc, next_state. by rewrite clone_view. }
  destruct (apply_action_m_legal next_state x (next_die w)
              (mkWorld σc (nodes w) (S (S (draws w)))) Hx')
    as (σ' & Ha & Hfa).
  rewrite (bind_Ret _ _ _ _ _ Ha).
  rewrite bind_read, bind_update_nodes.
  match goal with |- context [bind (MCTS._rollout next_state 200) _ ?w1] =>
    destruct (_rollout_spec next_state 200 w1) as (v & w' & Hr & Hn & Hf) end.
  rewrite (bind_Ret _ _ _ _ _ Hr). cbv beta.
  eexists _, _, _. split; [reflexivity|]. simpl. rewrite Hn. simpl.
  split_and!.
  - rewrite lookup_alter_eq, lookup_alter_eq.
    match goal with |- _ <$> (_ <$> ?lk) = _ =>
      replace lk with (Some node) by (symmetry; exact Hnode0) end.
    reflexivity.
  - simpl. apply dict_set_nonempty.
  - eapply nodes_le_trans; apply nodes_le_alter; [done|].
    intros ? _. simpl. apply dict_set_nonempty.
  - intros n m Hown. simpl in Hfa, Hf.
    destruct (owned_bounds _ _ _ _ Hown) as [Hbn Hbm].
    destruct (clone_frame n m (store w) state Halloc Hbn Hbm) as (Hf0 & Ho0 & _).
    destruct (Hfa n m Ho0) as [Hf1 Ho1].
    destruct (Hf n m Ho1) as [Hf2 _].
    eapply frame_trans; [exact Hf0|]. by eapply frame_trans.
Qed.

(** A simulation that finds the node of its state in the table, on a state
    that is not terminal and for a die that has a legal action, puts that
    node on its path: when it returns, the node has a visit count
    recorded. *)
Lemma _simulate_root_visited `{Runtime} self fuel state path w node :
  Obj.allocated (store w) state →
  nodes w !! Obj.key state (store w) = Some node →
  Obj.is_terminal state (store w) = false →
  Obj.get_legal_actions state (next_die w) (store w) ≠ [] →
  ensures (MCTS._simulate self fuel state path w) (λ _, True)
    (λ w', ∃ node', nodes w' !! Obj.key state (store w) = Some node' ∧
                    MCTSNode.N node' ≠ []).
Proof.
  intros Halloc Hnode Hterm Hlegal. destruct fuel as [|fuel]; [done|].
  cbn [MCTS._simulate]. rewrite bind_read, Hterm.
  rewrite bind_read, bind_get_node.
  destruct (nodes w !! _) as [node0|] eqn:Hnode0 in |- *; cbv beta iota.
  2:{ pose proof (eq_trans (eq_sym Hnode0) Hnode). done. }
  rewrite bind_randint, bind_read, bind_read.
  destruct (Obj.get_legal_actions state (next_die w) _) as [|a l] eqn:Hl;
    [done|]. cbv beta iota. simpl store.
  destruct (filter _ (a :: l)) as [|u untried] eqn:Hu; cbv beta iota.
  - (* selection: the node is on the path of the rest of the loop *)
    destruct (py_max float_gt _ (a :: l)) as [action|] eqn:Hmax; [|done].
    apply py_max_elem in Hmax. rewrite <- Hl in Hmax.
    destruct (apply_action_m_legal state action (next_die w)
                (mkWorld (store w) (nodes w) (S (draws w))) Hmax)
      as (σ' & Ha & Hfa).
    rewrite (bind_Ret _ _ _ _ _ Ha). cbv beta. simpl in Hfa.
    match goal with |- context [MCTS._simulate self fuel state ?p ?w1] =>
      pose proof (_simulate_spec self fuel state p w1) as Hrest end.
    eapply ensures_mono.
    + apply Hrest. simpl. apply allocated_owned, Hfa. by apply allocated_owned.
    + done.
    + simpl. intros w' _ Hv. eapply Hv.
      * apply elem_of_app. right. apply list_elem_of_here.
      * by eexists.
  - (* expansion: the node is on the path that is backpropagated *)
    destruct (choice_spec (u :: untried)
                (mkWorld (store w) (nodes w) (S (draws w)))) as (x & Hx & Hc);
      [done|].
    rewrite (bind_Ret _ _ _ _ _ Hc). simpl store. simpl nodes. simpl draws.
    rewrite bind_alloc. simpl store. simpl nodes. simpl draws.
    rewrite <- Hu in Hx. apply list_elem_of_filter in Hx as [_ Hx].
    rewrite <- Hl in Hx.
    set (σc := (Obj.clone state (store w)).2).
    set (next_state := (Obj.clone state (store w)).1).
    assert (x ∈ Obj.get_legal_actions next_state (next_die w) σc) as Hx'.
    { unfold Obj.get_legal_actions, σc, next_state. by rewrite clone_view. }
    destruct (apply_action_m_legal next_state x (next_die w)
                (mkWorld σc (nodes w) (S (S (draws w)))) Hx')
      as (σ' & Ha & Hfa).
    rewrite (bind_Ret _ _ _ _ _ Ha).
    rewrite bind_read, bind_update_nodes.
    match goal with |- context [bind (MCTS._rollout next_state 200) _ ?w1] =>
      destruct (_rollout_spec next_state 200 w1) as (v & w' & Hr & Hn & Hf) end.
    rewrite (bind_Ret _ _ _ _ _ Hr). cbv beta.
    match goal with |- context [MCTS._backpropagate ?p ?win w'] =>
      destruct (_backpropagate_spec p win w') as (v' & t & Hle & Hv & ->) end.
    rewrite Hn in Hv. simpl in Hv.
    split; [done|]. simpl. eapply Hv.
    + apply elem_of_app. right. apply list_elem_of_here.
    + rewrite lookup_alter_eq.
      match goal with |- is_Some (_ <$> ?lk) =>
        replace lk with (Some node) by (symmetry; exact Hnode) end.
      by eexists.
Qed.

(** Once the first simulation has drawn a die with a legal action at the
    root, the root node has a visit count recorded whenever the simulations
    end. *)
Lemma simulations_root_visited `{Runtime} self fuel root_state k w node :
  Obj.allocated (store w) root_state →
  nodes w !! Obj.key root_state (store w) = Some node →
  Obj.is_terminal root_state (store w) = false →
  Obj.get_legal_actions root_state (next_die w) (store w) ≠ [] →
  match MCTS.simulations self fuel root_state (S k) w with
  | (Ret _, w') =>
      ∃ node', nodes w' !! Obj.key root_state (store w) = Some node' ∧
               MCTSNode.N node' ≠ []
  | (Raise _, _) => False
  | (Timeout, _) => True
  end.
Proof.
  intros Halloc Hnode Hterm Hlegal.
  pose proof (allocated_below _ _ Halloc) as Hbelow.
  set (n := length (Obj.instances (store w))) in *.
  set (m := length (Obj.lists (store w))) in *.
  cbn [MCTS.simulations]. rewrite bind_alloc.
  destruct (clone_frame n m (store w) root_state Halloc) as (Hf0 & Ho0 & _);
    [done..|].
  pose proof (clone_view (store w) root_state Halloc) as Hview.
  set (σc := (Obj.clone root_state (store w)).2) in *.
  set (state := (Obj.clone root_state (store w)).1) in *.
  pose proof (owned_allocated _ _ _ _ Ho0) as Hallocc.
  pose proof (_simulate_spec self fuel state [] (mkWorld σc (nodes w) (draws w))
                Hallocc) as Hspec.
  pose proof (_simulate_root_visited self fuel state []
                (mkWorld σc (nodes w) (draws w)) node Hallocc) as Hroot.
  simpl in Hroot. unfold Obj.key, Obj.is_terminal, Obj.get_legal_actions in Hroot.
  rewrite Hview in Hroot. specialize (Hroot Hnode Hterm Hlegal).
  unfold bind at 1. unfold ensures in Hspec, Hroot.
  destruct (MCTS._simulate self fuel state [] _) as [[v|e|] w1];
    simpl in Hspec, Hroot; [|done..].
  destruct Hspec as [[Hle1 Hf1] _]. destruct Hroot as [_ (node1 & Hnode1 & HN1)].
  assert (frame n m (store w) (store w1)) as Hf.
  { eapply frame_trans; [exact Hf0|]. by apply Hf1. }
  pose proof (simulations_spec self fuel root_state k w1 n m
                (below_frame _ _ _ _ _ Hbelow Hf)) as Hrest.
  unfold no_raise in Hrest.
  destruct (MCTS.simulations self fuel root_state k w1) as [[[]|e|] w2];
    simpl in Hrest; [|done..].
  destruct Hrest as [Hle _].
  destruct (Hle _ _ Hnode1) as (node2 & Hnode2 & HN2).
  exists node2. split; [exact Hnode2|by apply HN2].
Qed.

(** With a root node that has no children yet, one simulation that draws
    a die with a legal action at the root returns. *)
Lemma simulations_fresh_returns `{Runtime} self fuel root_state w node :
  Obj.allocated (store w) root_state →
  nodes w !! Obj.key root_state (store w) = Some node →
  MCTSNode.children node = [] →
  Obj.is_terminal root_state (store w) = false →
  Obj.get_legal_actions root_state (next_die w) (store w) ≠ [] →
  ∃ w', MCTS.simulations self (S fuel) root_state 1 w = (Ret (), w').
Proof.
  intros Halloc Hnode Hchildren Hterm Hlegal.
  cbn [MCTS.simulations]. rewrite bind_alloc.
  pose proof (clone_view (store w) root_state Halloc) as Hview.
  destruct (clone_frame 0 0 (store w) root_state Halloc) as (_ & Ho0 & _);
    [lia..|].
  set (σc := (Obj.clone root_state (store w)).2) in *.
  set (state := (Obj.clone root_state (store w)).1) in *.
  destruct (first_simulation self fuel state (mkWorld σc (nodes w) (draws w)) node)
    as (v & w1 & node1 & Hsim & _).
  - by eapply owned_allocated.
  - simpl. unfold Obj.key. rewrite Hview. exact Hnode.
  - done.
  - simpl. unfold Obj.is_terminal. rewrite Hview. exact Hterm.
  - simpl. unfold Obj.get_legal_actions. rewrite Hview. exact Hlegal.
  - rewrite (bind_Ret _ _ _ _ _ Hsim). by eexists.
Qed.

(** A root that is not terminal and has a legal action for some die does
    not make [search] return an action: at the start of a game (Blue to
    move, a legal action for a 6) with one simulation and a first draw of
    1, the turn passes at the root, no action is recorded there, and
    [search] returns none. *)
Lemma search_returns_none_at_start :
  let H := sample_runtime (λ _, 0%nat) in
  let root := Obj.view (store start_world) 0 in
  is_terminal root = false ∧ current_player root = Blue ∧
  get_legal_actions root 6 ≠ [] ∧
  (MCTS.search (MCTS.mk 1.4%float 1) 5 0%nat start_world).1 = Ret None.
Proof.
  split_and!; [reflexivity | reflexivity | by vm_compute | vm_compute; reflexivity].
Qed.

(** The simulations of a search, taken in two runs. *)
Lemma simulations_add `{Runtime} self fuel root_state k j w :
  MCTS.simulations self fuel root_state (k + j) w =
  match MCTS.simulations self fuel root_state k w with
  | (Ret _, w') => MCTS.simulations self fuel root_state j w'
  | (Raise e, w') => (Raise e, w')
  | (Timeout, w') => (Timeout, w')
  end.
Proof.
  revert w. induction k as [|k IH]; intros w; [done|].
  cbn [Nat.add MCTS.simulations]. rewrite !bind_alloc.
  unfold bind.
  destruct (MCTS._simulate self fuel _ [] _) as [[v|e|] w1]; [|done..].
  apply IH.
Qed.

(** After any number of simulations that have returned, the root is as it
    was and its node is still in the table. *)
Lemma simulations_keep_root `{Runtime} self fuel root_state k w w_k node :
  Obj.allocated (store w) root_state →
  nodes w !! Obj.key root_state (store w) = Some node →
  MCTS.simulations self fuel root_state k w = (Ret (), w_k) →
  Obj.allocated (store w_k) root_state ∧
  Obj.view (store w_k) root_state = Obj.view (store w) root_state ∧
  ∃ node_k, nodes w_k !! Obj.key root_state (store w) = Some node_k.
Proof.
  intros Halloc Hnode Hsim.
  pose proof (allocated_below _ _ Halloc) as Hbelow.
  pose proof (simulations_spec self fuel root_state k w _ _ Hbelow) as Hspec.
  rewrite Hsim in Hspec. destruct Hspec as [Hle Hf]. simpl in Hle, Hf.
  split_and!.
  - eapply below_allocated. by eapply below_frame.
  - by eapply below_view.
  - destruct (Hle _ _ Hnode) as (node_k & Hk & _). by exists node_k.
Qed.

(** C3 (amended). For a root state that is not terminal: if one of the
    simulations of the search, the one that follows [k] simulations that
    have returned, for any [k] below the budget, draws as its first die one
    that has a legal action at the root, then [search] does not return
    none: it raises nothing, and it returns some action whenever its
    simulations come to an end.  So [search] returns none only if every
    simulation starts on a die without legal action at the root.  On a fresh
    engine with a budget of exactly 1 and such a first die, the search does
    come to an end, with some action. *)
Theorem search_returns_action `{Runtime}
    (self : MCTS.t) (fuel : nat) (root_state : Obj.ref) (w : World) :
  Obj.allocated (store w) root_state →
  is_terminal (Obj.view (store w) root_state) = false →
  (∀ k w_k,
     (k < Z.to_nat (MCTS.n_simulations self))%nat →
     MCTS.simulations self fuel root_state k
       (with_root (Obj.key root_state (store w)) w) = (Ret (), w_k) →
     get_legal_actions (Obj.view (store w) root_state) (next_die w_k) ≠ [] →
     ∀ r w', MCTS.search self fuel root_state w = (r, w') →
             r = Timeout ∨ ∃ action, r = Ret (Some action)) ∧
  (nodes w = ∅ → MCTS.n_simulations self = 1 → (1 ≤ fuel)%nat →
   get_legal_actions (Obj.view (store w) root_state) (next_die w) ≠ [] →
   ∃ action w', MCTS.search self fuel root_state w = (Ret (Some action), w')).
Proof.
  intros Halloc Hterm.
  set (root_key := Obj.key root_state (store w)).
  destruct (with_root_lookup root_key w) as (node0 & Hnode0 & Hinit).
  assert (∀ w' node', nodes w' !! root_key = Some node' →
            MCTSNode.N node' ≠ [] →
            ∃ action,
              match nodes w' !! root_key with
              | Some root_node =>
                  match root_choice root_node, MCTSNode.N root_node with
                  | None, _ :: _ => (Raise ValueError, w')
                  | choice, _ => (Ret choice, w')
                  end
              | None => (Raise KeyError, w')
              end = (Ret (Some action), w')) as Hchoice.
  { intros w' node' Hnode' HN'.
    destruct (nodes w' !! _) as [root_node|] eqn:Hroot in |- *.
    2:{ pose proof (eq_trans (eq_sym Hroot) Hnode'). done. }
    assert (root_node = node') as ->.
    { pose proof (eq_trans (eq_sym Hroot) Hnode'). by simplify_eq. }
    destruct (root_choice_is_Some node' HN') as [action ->].
    exists action. by destruct (MCTSNode.N node'). }
  split.
  - intros k w_k Hk Hsims Hlegal r w'.
    rewrite search_unfold. cbv zeta. fold root_key.
    replace (Z.to_nat (MCTS.n_simulations self))
      with (k + S (Z.to_nat (MCTS.n_simulations self) - S k))%nat by lia.
    rewrite simulations_add, Hsims.
    destruct (simulations_keep_root self fuel root_state k
                (with_root root_key w) w_k node0 Halloc Hnode0 Hsims)
      as (Halloc_k & Hview_k & node_k & Hnode_k).
    change (store (with_root root_key w)) with (store w) in Hview_k, Hnode_k.
    pose proof (simulations_root_visited self fuel root_state
                  (Z.to_nat (MCTS.n_simulations self) - S k) w_k node_k
                  Halloc_k) as Hsim.
    unfold Obj.key, Obj.is_terminal, Obj.get_legal_actions in Hsim.
    rewrite Hview_k in Hsim. specialize (Hsim Hnode_k Hterm Hlegal).
    destruct (MCTS.simulations _ _ _ _ w_k) as [[[]|e|] w1]; [|done|].
    + destruct Hsim as (node1 & Hnode1 & HN1).
      destruct (Hchoice w1 node1 Hnode1 HN1) as [action ->].
      intros [= <- <-]. right. by exists action.
    + intros [= <- <-]. by left.
  - intros Hfresh Hn Hfuel Hlegal.
    rewrite search_unfold. cbv zeta. fold root_key.
    replace (Z.to_nat (MCTS.n_simulations self)) with 1%nat by lia.
    destruct fuel as [|fuel]; [lia|].
    rewrite Hinit in Hnode0 by (by rewrite Hfresh).
    pose proof (simulations_root_visited self (S fuel) root_state 0
                  (with_root root_key w) _ Halloc Hnode0 Hterm Hlegal) as Hsim.
    destruct (simulations_fresh_returns self fuel root_state
                (with_root root_key w) _ Halloc Hnode0 eq_refl Hterm Hlegal)
      as [w1 Hw1].
    rewrite Hw1 in Hsim |- *.
    destruct Hsim as (node1 & Hnode1 & HN1).
    destruct (Hchoice w1 node1 Hnode1 HN1) as [action ->].
    by exists action, w1.
Qed.

Lemma search_returns_action_witness :
  let H := sample_runtime (λ i, match i with O => 0 | _ => 5 end)%nat in
  let self := MCTS.mk 1.4%float 2 in
  get_legal_actions (Obj.view (store start_world) 0) (next_die start_world) = [] ∧
  ∃ action, (MCTS.search self 5 0%nat start_world).1 = Ret (Some action).
Proof.
  intros H self. split; [reflexivity|].
  set (w0 := with_root (Obj.key 0%nat (store start_world)) start_world).
  set (run1 := MCTS.simulations self 5 0%nat 1 w0).
  assert (run1.1 = Ret ()) as H1 by (vm_compute; reflexivity).
  destruct (proj1 (@search_returns_action H self 5 0%nat start_world
                     (sample_store_allocated _ _ _) eq_refl)
              1%nat run1.2
              ltac:(simpl; lia)
              (eq_trans (surjective_pairing run1) (f_equal (λ r, (r, run1.2)) H1))
              ltac:(by vm_compute)
              (MCTS.search self 5 0%nat start_world).1
              (MCTS.search self 5 0%nat start_world).2
              (surjective_pairing _)) as [Hcut|[action Ha]].
  - exfalso. vm_compute in Hcut. discriminate Hcut.
  - by exists action.
Defined.

(** ** The upper-confidence score *)

(** C8. With N(a) and W(a) the visit count and the accumulated value the
    node records for the action (0 where it records none) and T the total
    visits of the node: the score is infinite if N(a) = 0, and otherwise it
    is sign * (W(a) / N(a)) + c * sqrt(ln(T + 1) / N(a)) in floating point,
    where sign is +1 with Blue to move and -1 with Red to move and
    multiplies the exploitation term only; and an engine built without an
    exploration constant takes 1.4. *)
Theorem uct_score_formula `{Runtime}
    (self : MCTSNode.t) (action : Action) (cpuct : float) (player : Player) :
  let n_sa := default 0 (dict_get (MCTSNode.N self) action) in
  let w_sa := default 0%float (dict_get (MCTSNode.W self) action) in
  let total := MCTSNode.total_visits self in
  let sign := match player with Blue => 1%float | Red => (-1)%float end in
  MCTSNode.uct_score self action cpuct player =
    (if bool_decide (n_sa = 0) then infinity
     else (sign * (w_sa / float_of_int n_sa)
           + cpuct * math_sqrt (math_log (float_of_int (total + 1)%Z)
                                / float_of_int n_sa))%float) ∧
  ∀ n_simulations w,
    ∃ mcts w', MCTS.__init__ None n_simulations w = (Ret mcts, w') ∧
               MCTS.cpuct mcts = 1.4%float.
Proof.
  split.
  - unfold MCTSNode.uct_score, MCTSNode.q_value.
    case_bool_decide as Hn; [done|]. by destruct player.
  - intros n_simulations w. by eexists _, _.
Qed.

(** ** The method on objects and the transition on values agree *)

Lemma store_eta σ : Obj.mkStore (Obj.lists σ) (Obj.instances σ) = σ.
Proof. by destruct σ. Qed.

Lemma obj_capture_loop_spec k idx opponent opponent_player target_global σ :
  (opponent < length (Obj.lists σ))%nat →
  Obj.capture_loop k idx opponent opponent_player target_global σ =
  Obj.mkStore
    (<[opponent := capture_loop k idx (Obj.tokens_at σ opponent)
                     opponent_player target_global]> (Obj.lists σ))
    (Obj.instances σ).
Proof.
  revert idx σ. induction k as [|k IH]; intros idx σ Hlt.
  - simpl. destruct (lookup_lt_is_Some_2 _ _ Hlt) as [l Hl].
    unfold Obj.tokens_at. rewrite Hl. simpl.
    rewrite list_insert_id by done. by rewrite store_eta.
  - simpl. destruct (Obj.tokens_at σ opponent !! idx) as [pos|] eqn:Hpos.
    2:{ destruct (lookup_lt_is_Some_2 _ _ Hlt) as [l Hl].
        unfold Obj.tokens_at. rewrite Hl. simpl.
        rewrite list_insert_id by done. by rewrite store_eta. }
    set (l' := if bool_decide (0 ≤ pos < TRACK_LEN) then
                 if bool_decide (_track_to_global pos opponent_player = target_global)
                 then <[idx := HOME]> (Obj.tokens_at σ opponent)
                 else Obj.tokens_at σ opponent
               else Obj.tokens_at σ opponent).
    set (σ' := if bool_decide (0 ≤ pos < TRACK_LEN) then _ else _).
    assert (σ' = Obj.mkStore (<[opponent := l']> (Obj.lists σ)) (Obj.instances σ))
      as ->.
    { unfold σ', l'. destruct (lookup_lt_is_Some_2 _ _ Hlt) as [l Hl].
      repeat case_bool_decide; try done.
      all: unfold Obj.tokens_at; rewrite Hl; simpl.
      all: rewrite list_insert_id by done; by rewrite store_eta. }
    rewrite IH by (simpl; by rewrite length_insert). simpl.
    rewrite list_insert_insert_eq. unfold Obj.tokens_at at 1. simpl.
    rewrite list_lookup_insert_eq by done. simpl. done.
Qed.

(** On an instance whose two lists are different objects, [apply_action]
    raises what the transition on values raises, leaving the store as it
    was, and otherwise leaves the instance with the value the transition
    yields. *)
Lemma obj_apply_action_refines σ self action o :
  Obj.instances σ !! self = Some o →
  Obj.self_blue_tokens o ≠ Obj.self_red_tokens o →
  (Obj.self_blue_tokens o < length (Obj.lists σ))%nat →
  (Obj.self_red_tokens o < length (Obj.lists σ))%nat →
  match apply_action (Obj.view σ self) action with
  | inl e => Obj.apply_action self action σ = (Some e, σ)
  | inr s' =>
      (Obj.apply_action self action σ).1 = None ∧
      Obj.view (Obj.apply_action self action σ).2 self = s'
  end.
Proof.
  intros Ho Hne Hb Hr.
  pose proof (obj_apply_action_exn σ self action) as Hexn.
  destruct (apply_action (Obj.view σ self) action) as [e|s'] eqn:Happ.
  { pose proof (obj_apply_action_exn_store σ self action) as Hstore.
    destruct (Obj.apply_action self action σ) as [x σ'].
    simpl in Hexn, Hstore. subst x. by rewrite Hstore. }
  split; [done|]. clear Hexn. destruct action as [token_index target].
  apply apply_action_inr in Happ as (i & Hi & Hok & ->).
  unfold Obj.apply_action. rewrite tokens_at__current_tokens, Hi.
  destruct (bool_decide _ && bool_decide _) eqn:Hg.
  { apply andb_true_iff in Hg as [?%bool_decide_eq_true ?%bool_decide_eq_true].
    by destruct Hok. }
  cbn [snd].
  assert (Obj.instance_at σ self = o) as Hinst.
  { unfold Obj.instance_at. by rewrite Ho. }
  set (cur := Obj._current_tokens self σ).
  set (opp := Obj._opponent_tokens self σ).
  assert (cur ≠ opp ∧ (cur < length (Obj.lists σ))%nat ∧
          (opp < length (Obj.lists σ))%nat) as (Hco & Hcur & Hopp).
  { unfold cur, opp, Obj._current_tokens, Obj._opponent_tokens.
    rewrite Hinst. destruct (decide _); split_and!; done. }
  set (opp' := if bool_decide (target < TRACK_LEN) then captured _ _ <$> _ else _).
  set (σ1 := if bool_decide (target < TRACK_LEN)
             then (if py_in _ _ then _ else _) else _).
  assert (σ1 = Obj.mkStore (<[opp := opp']> (Obj.lists σ)) (Obj.instances σ)) as ->.
  { unfold σ1, opp'. rewrite <- tokens_at__opponent_tokens. fold opp.
    assert (Obj.mkStore (<[opp := Obj.tokens_at σ opp]> (Obj.lists σ))
              (Obj.instances σ) = σ) as Hid.
    { destruct (lookup_lt_is_Some_2 _ _ Hopp) as [l Hl].
      unfold Obj.tokens_at. rewrite Hl. simpl.
      rewrite list_insert_id by done. by rewrite store_eta. }
    destruct (bool_decide (target < TRACK_LEN)); [|by rewrite Hid].
    unfold Obj.view. simpl.
    destruct (py_in _ _) eqn:Hin.
    - unfold Obj._capture_opponent. fold opp.
      rewrite obj_capture_loop_spec by done.
      fold (_capture_opponent (Obj.tokens_at σ opp)
              (other_player (Obj.self_current_player (Obj.instance_at σ self)))
              (_track_to_global target
                 (Obj.self_current_player (Obj.instance_at σ self)))).
      by rewrite _capture_opponent_spec.
    - rewrite captured_id by (by apply py_in_false). by rewrite Hid. }
  unfold Obj.set_current_player, Obj.set_item, Obj.view, Obj.instance_at,
    Obj.tokens_at. simpl.
  rewrite list_lookup_insert_eq by (by eapply lookup_lt_Some).
  rewrite Ho. simpl.
  unfold moved, _current_tokens. simpl.
  subst cur opp. unfold Obj._current_tokens, Obj._opponent_tokens in *.
  rewrite Hinst in *.
  destruct (decide (Obj.self_current_player o = Blue)); simpl.
  - rewrite (list_lookup_insert_ne _ (Obj.self_red_tokens o)
               (Obj.self_blue_tokens o)) by lia.
    rewrite list_lookup_insert_eq by (rewrite length_insert; lia).
    rewrite list_lookup_insert_ne by lia.
    rewrite list_lookup_insert_eq by lia. done.
  - rewrite (list_lookup_insert_ne _ (Obj.self_blue_tokens o)
               (Obj.self_red_tokens o)) by lia.
    rewrite list_lookup_insert_ne by lia.
    rewrite list_lookup_insert_eq by lia.
    rewrite list_lookup_insert_eq by (rewrite length_insert; lia). done.
Qed.

(** ** The loop of a simulation need not end

    While no token can move the turn is passed without leaving the loop of
    [_simulate]: once the nodes of both players' turns are in the table, a
    sequence of draws that never allows a move keeps the loop going for
    ever.  So [search] returns for almost all, not for all draws. *)

Lemma view_set_current_player σ state player :
  Obj.allocated σ state →
  Obj.view (Obj.set_current_player state player σ) state =
  mkLudoState (blue_tokens (Obj.view σ state)) (red_tokens (Obj.view σ state))
    player.
Proof.
  intros (o & Ho & _).
  unfold Obj.view, Obj.set_current_player, Obj.instance_at, Obj.tokens_at. simpl.
  rewrite list_lookup_insert_eq by (by eapply lookup_lt_Some).
  by rewrite Ho.
Qed.

Lemma _simulate_passes_for_ever self fuel state path w player :
  let H := sample_runtime (λ _, 0%nat) in
  Obj.allocated (store w) state →
  Obj.view (store w) state
    = mkLudoState [-1; -1; -1; -1] [-1; -1; -1; -1] player →
  is_Some (nodes w !! (Blue, [-1; -1; -1; -1], [-1; -1; -1; -1])) →
  is_Some (nodes w !! (Red, [-1; -1; -1; -1], [-1; -1; -1; -1])) →
  (MCTS._simulate self fuel state path w).1 = Timeout.
Proof.
  intros H. revert w player.
  induction fuel as [|fuel IH]; intros w player Halloc Hview HB HR; [done|].
  assert (Obj.is_terminal state (store w) = false) as Hterm.
  { unfold Obj.is_terminal. by rewrite Hview. }
  assert (Obj.key state (store w)
          = (player, [-1; -1; -1; -1], [-1; -1; -1; -1])) as Hkey.
  { unfold Obj.key. by rewrite Hview. }
  assert (Obj.get_legal_actions state (next_die w) (store w) = []) as Hlegal.
  { unfold Obj.get_legal_actions. rewrite Hview. by destruct player. }
  assert (is_Some (nodes w !! Obj.key state (store w))) as [node Hnode].
  { rewrite Hkey. by destruct player. }
  cbn [MCTS._simulate]. rewrite bind_read, Hterm.
  rewrite bind_read, bind_get_node.
  destruct (nodes w !! _) as [node0|] eqn:Hnode0 in |- *; cbv beta iota.
  2:{ pose proof (eq_trans (eq_sym Hnode0) Hnode). done. }
  rewrite bind_randint, bind_read, bind_read. cbn [store]. rewrite Hlegal.
  cbv beta iota. rewrite bind_write. rewrite Hview. cbn [current_player].
  eapply (IH _ (other_player player)); simpl.
  - apply allocated_owned, set_current_player_owned. by apply allocated_owned.
  - rewrite view_set_current_player by done. by rewrite Hview.
  - done.
  - done.
Qed.

(** At the start of a game, with two simulations and draws that are all 1,
    the first simulation passes the turn and enters Red's node, and the
    second passes the turn for ever: however many iterations the loop is
    granted, [search] is cut off. *)
Lemma search_may_not_end fuel :
  let H := sample_runtime (λ _, 0%nat) in
  (MCTS.search (MCTS.mk 1.4%float 2) fuel 0%nat start_world).1 = Timeout.
Proof.
  intros H. destruct fuel as [|[|fuel]]; [by vm_compute..|].
  rewrite search_unfold. cbv zeta.
  change (Z.to_nat (MCTS.n_simulations (MCTS.mk 1.4%float 2))) with 2%nat.
  cbn [MCTS.simulations]. rewrite bind_alloc.
  set (w0 := with_root (Obj.key 0%nat (store start_world)) start_world).
  set (state1 := (Obj.clone 0%nat (store w0)).1).
  set (w1 := mkWorld (Obj.clone 0%nat (store w0)).2 (nodes w0) (draws w0)).
  (* the first simulation does not depend on the iterations left *)
  unfold bind at 1.
  assert (MCTS._simulate (MCTS.mk 1.4%float 2) (S (S fuel)) state1 [] w1
          = MCTS._simulate (MCTS.mk 1.4%float 2) 2 state1 [] w1) as ->
    by (vm_compute; reflexivity).
  destruct (MCTS._simulate (MCTS.mk 1.4%float 2) 2 state1 [] w1)
    as [r1 w2] eqn:Hsim1.
  assert (r1 = Ret 0%float) as ->.
  { apply (f_equal fst) in Hsim1. vm_compute in Hsim1. by symmetry. }
  apply (f_equal snd) in Hsim1. cbn [snd] in Hsim1.
  cbv beta iota. rewrite bind_alloc.
  set (state2 := (Obj.clone 0%nat (store w2)).1).
  set (w3 := mkWorld (Obj.clone 0%nat (store w2)).2 (nodes w2) (draws w2)).
  assert ((MCTS._simulate (MCTS.mk 1.4%float 2) (S (S fuel)) state2 [] w3).1
          = Timeout) as Hloop.
  { apply (_simulate_passes_for_ever _ _ _ _ _ Blue);
      unfold state2, w3; rewrite <- Hsim1.
    - eexists. split_and!; [by vm_compute | vm_compute; lia..].
    - by vm_compute.
    - vm_compute. by eexists.
    - vm_compute. by eexists. }
  unfold bind at 1.
  destruct (MCTS._simulate _ _ state2 [] w3) as [r3 w4].
  cbn [fst] in Hloop. by rewrite Hloop.
Qed.

(** * Further properties

    Whole games, the methods on objects, and the tables the search
    builds. *)

(** ** Plies *)

Lemma captured_kept_or_sent_home opponent_player target_global opponent :
  Forall2 kept_or_sent_home opponent
    (captured opponent_player target_global <$> opponent).
Proof.
  apply Forall2_fmap_r, Forall_Forall2_diag, Forall_forall. intros pos _.
  unfold kept_or_sent_home, captured, compose.
  destruct (bool_decide _) eqn:Hc; [right|by left].
  apply bool_decide_eq_true in Hc. tauto.
Qed.

Lemma kept_or_sent_home_refl opponent : Forall2 kept_or_sent_home opponent opponent.
Proof. apply Forall_Forall2_diag, Forall_forall. intros pos _. by left. Qed.

(** The shape of a legal move: the token [idx] of the mover goes to the
    target its position and the die give it, and every token of the opponent
    stays or is sent home from the track. *)
Lemma legal_move_shape s dice_roll action s' :
  action ∈ get_legal_actions s dice_roll → apply_action s action = inr s' →
  ∃ (idx : nat) pos target opponent',
    action = (Z.of_nat idx, target) ∧
    _current_tokens s !! idx = Some pos ∧
    legal_target (_current_tokens s)
      (_track_positions (_current_tokens s) (current_player s))
      dice_roll pos = Some target ∧
    Forall2 kept_or_sent_home (_opponent_tokens s) opponent' ∧
    s' = moved s (<[idx := target]> (_current_tokens s)) opponent'.
Proof.
  destruct action as [token_index target]. intros Hin Happ.
  apply elem_of_get_legal_actions in Hin as (idx & pos & -> & Hpos & Ht).
  apply apply_action_inr in Happ as (i & Hi & _ & ->).
  rewrite py_index_of_nat in Hi by (by eapply lookup_lt_Some).
  injection Hi as <-.
  eexists idx, pos, target, _. split_and!; [done..| |done].
  destruct (bool_decide (target < TRACK_LEN)).
  - apply captured_kept_or_sent_home.
  - apply kept_or_sent_home_refl.
Qed.

(** A target in the finish lane is offered only where no token of the
    mover stands. *)
Lemma legal_target_finish_free tokens own dice_roll pos target :
  legal_target tokens own dice_roll pos = Some target →
  TRACK_LEN ≤ target → target ∉ tokens.
Proof.
  unfold legal_target, HOME, TRACK_LEN, FINISH_LEN. intros Ht Hge.
  repeat case_bool_decide; repeat case_match; simplify_eq;
    repeat match goal with
    | H : py_in _ _ = false |- _ => apply py_in_false in H
    end; try done; lia.
Qed.

Lemma finish_slots_apart_insert tokens idx target :
  finish_slots_apart tokens → (TRACK_LEN ≤ target → target ∉ tokens) →
  finish_slots_apart (<[idx := target]> tokens).
Proof.
  intros Hap Hfree i j pos Hi Hj Hpos.
  destruct (decide (i = idx)) as [->|Hni], (decide (j = idx)) as [->|Hnj];
    [done| | |].
  - apply list_lookup_insert_Some in Hi as [(_ & <- & _)|[? _]]; [|done].
    rewrite list_lookup_insert_ne in Hj by done.
    destruct (Hfree Hpos). apply list_elem_of_lookup. by exists j.
  - apply list_lookup_insert_Some in Hj as [(_ & <- & _)|[? _]]; [|done].
    rewrite list_lookup_insert_ne in Hi by done.
    destruct (Hfree Hpos). apply list_elem_of_lookup. by exists i.
  - rewrite list_lookup_insert_ne in Hi, Hj by done. by eapply Hap.
Qed.

Lemma finish_slots_apart_opponent tokens tokens' :
  Forall2 kept_or_sent_home tokens tokens' →
  finish_slots_apart tokens → finish_slots_apart tokens'.
Proof.
  intros HF Hap i j pos Hi Hj Hpos.
  destruct (Forall2_lookup_r _ _ _ _ _ HF Hi) as (x & Hx & [->|[-> _]]);
    [|unfold HOME, TRACK_LEN in *; lia].
  destruct (Forall2_lookup_r _ _ _ _ _ HF Hj) as (y & Hy & [->|[-> _]]);
    [|unfold HOME, TRACK_LEN in *; lia].
  by eapply Hap.
Qed.

Lemma no_stack_opponent tokens tokens' :
  Forall2 kept_or_sent_home tokens tokens' → no_stack tokens → no_stack tokens'.
Proof.
  intros HF Hap i j pos Hi Hj Hpos.
  destruct (Forall2_lookup_r _ _ _ _ _ HF Hi) as (x & Hx & [->|[-> _]]); [|done].
  destruct (Forall2_lookup_r _ _ _ _ _ HF Hj) as (y & Hy & [->|[-> _]]); [|done].
  by eapply Hap.
Qed.

Lemma ply_finish_slots_apart s s' :
  ply s s' →
  finish_slots_apart (blue_tokens s) ∧ finish_slots_apart (red_tokens s) →
  finish_slots_apart (blue_tokens s') ∧ finish_slots_apart (red_tokens s').
Proof.
  intros [s0 d action s1 _ Hin Happ|s0 d _ _] [Hb Hr]; [|done].
  destruct (legal_move_shape _ _ _ _ Hin Happ)
    as (idx & pos & target & opp' & -> & Hpos & Ht & HF & ->).
  pose proof (legal_target_finish_free _ _ _ _ _ Ht) as Hfree.
  unfold moved, _current_tokens, _opponent_tokens in *.
  destruct (decide (current_player s0 = Blue)); simpl; split;
    eauto using finish_slots_apart_insert, finish_slots_apart_opponent.
Qed.

Lemma ply_lengths s s' :
  ply s s' →
  length (blue_tokens s') = length (blue_tokens s) ∧
  length (red_tokens s') = length (red_tokens s).
Proof.
  intros [s0 d action s1 _ Hin Happ|s0 d _ _]; [|done].
  destruct (legal_move_shape _ _ _ _ Hin Happ)
    as (idx & pos & target & opp' & -> & Hpos & Ht & HF & ->).
  apply Forall2_length in HF.
  unfold moved, _current_tokens, _opponent_tokens in *.
  destruct (decide (current_player s0 = Blue)); simpl;
    rewrite length_insert; split; congruence.
Qed.

Lemma ply_well_formed s s' : ply s s' → well_formed s → well_formed s'.
Proof.
  intros [s0 d action s1 Hd Hin Happ|s0 d _ _] Hwf; [|done].
  destruct (legal_action_keeps_range s0 d Hd action Hwf Hin) as (s2 & Happ' & Hwf').
  congruence.
Qed.

Lemma ply_no_stack_Blue s s' :
  ply s s' → well_formed s → no_stack (blue_tokens s) → no_stack (blue_tokens s').
Proof.
  intros [s0 d action s1 Hd Hin Happ|s0 d _ _] Hwf Hns; [|done].
  destruct (current_player s0) eqn:Hp.
  - by eapply legal_action_no_stack_Blue.
  - destruct (legal_move_shape _ _ _ _ Hin Happ)
      as (idx & pos & target & opp' & -> & Hpos & Ht & HF & ->).
    unfold moved, _opponent_tokens in *. rewrite Hp in *. simpl in *.
    by eapply no_stack_opponent.
Qed.

Lemma ply_regular s s' : ply s s' → regular s → regular s'.
Proof.
  intros Hply (Hwf & Hb & Hr & Hlb & Hlr).
  destruct (ply_finish_slots_apart _ _ Hply (conj Hb Hr)) as [Hb' Hr'].
  destruct (ply_lengths _ _ Hply) as [Hlb' Hlr'].
  split_and!; [by eapply ply_well_formed|done|done|lia|lia].
Qed.

(** In a regular position no player has every token on 43. *)
Lemma regular_not_finished tokens :
  Forall in_range tokens → finish_slots_apart tokens →
  (2 ≤ length tokens)%nat → _all_finished tokens = false.
Proof.
  intros Hr Hap Hlen. apply not_true_is_false. intros Hfin.
  apply _all_finished_true in Hfin.
  destruct tokens as [|a [|b tokens]]; simpl in Hlen; [lia..|].
  pose proof (Forall_lookup_1 _ _ 0%nat a Hr eq_refl) as Ha.
  pose proof (Forall_lookup_1 _ _ 1%nat b Hr eq_refl) as Hb.
  pose proof (Forall_lookup_1 _ _ 0%nat a Hfin eq_refl) as Ha'.
  pose proof (Forall_lookup_1 _ _ 1%nat b Hfin eq_refl) as Hb'.
  unfold in_range, TRACK_LEN, FINISH_LEN in *. simpl in *.
  assert (a = 43) as -> by lia. assert (b = 43) as -> by lia.
  specialize (Hap 0%nat 1%nat 43 eq_refl eq_refl). unfold TRACK_LEN in Hap. lia.
Qed.

Lemma regular_not_terminal s :
  regular s → is_terminal s = false ∧ winner s = None.
Proof.
  intros ([Hwb Hwr] & Hb & Hr & Hlb & Hlr). unfold is_terminal, winner.
  by rewrite !regular_not_finished.
Qed.

Lemma rtc_ply_regular s s' : rtc ply s s' → regular s → regular s'.
Proof. induction 1; eauto using ply_regular. Qed.

Lemma track_tokens_apart tokens :
  Forall (λ pos, pos < TRACK_LEN) tokens → finish_slots_apart tokens.
Proof.
  intros Hlt i j pos Hi _ Hpos.
  pose proof (Forall_lookup_1 _ _ _ _ Hlt Hi) as Hlt'. simpl in Hlt'. lia.
Qed.

(** The start of a game is a regular position. *)
Lemma start_regular :
  regular (mkLudoState [-1; -1; -1; -1] [-1; -1; -1; -1] Blue).
Proof.
  split_and!; simpl; [split; simpl| | |lia|lia].
  1,2: by repeat constructor.
  all: apply track_tokens_apart; by repeat constructor.
Qed.

(** Blue and then Red enter a token on a six. *)
Lemma two_plies_from_the_start :
  rtc ply (mkLudoState [-1; -1; -1; -1] [-1; -1; -1; -1] Blue)
          (mkLudoState [0; -1; -1; -1] [0; -1; -1; -1] Blue).
Proof.
  eapply rtc_l; [apply (ply_move _ 6 (0, 0)); [lia|compute_done|reflexivity]|].
  apply rtc_once. apply (ply_move _ 6 (0, 0)); [lia|compute_done|reflexivity].
Qed.

(** X1. An action that [apply_action] accepts passes the turn to the other
    player, keeps the number of tokens of both players, and changes the
    mover's tokens in exactly one place: the token the index addresses (a
    negative index counts from the end of the list, as Python lists do) is
    put on the target. *)
Theorem apply_action_moves_one_token (s s' : LudoState) (token_index target : Z) :
  apply_action s (token_index, target) = inr s' →
  current_player s' = other_player (current_player s) ∧
  length (blue_tokens s') = length (blue_tokens s) ∧
  length (red_tokens s') = length (red_tokens s) ∧
  ∃ i, py_index (length (_current_tokens s)) token_index = Some i ∧
       tokens_of (current_player s) s' = <[i := target]> (_current_tokens s).
Proof.
  intros Happ. apply apply_action_inr in Happ as (i & Hi & _ & ->).
  assert (∀ p g, length (if bool_decide (target < TRACK_LEN)
                         then captured p g <$> _opponent_tokens s
                         else _opponent_tokens s)
                 = length (_opponent_tokens s)) as Hlen.
  { intros p g. destruct (bool_decide _); [apply length_fmap|done]. }
  unfold moved, tokens_of, _current_tokens, _opponent_tokens in *.
  destruct (current_player s); simpl in *;
    rewrite ?length_insert, ?Hlen; split_and!; try done; by exists i.
Qed.

Lemma apply_action_moves_one_token_witness :
  let s := mkLudoState [7; 7; 41; 8] [25; -1; 42; -1] Red in
  ∃ s', apply_action s (-4, 27) = inr s' ∧
        current_player s' = Blue ∧ red_tokens s' = [27; -1; 42; -1].
Proof.
  assert (apply_action (mkLudoState [7; 7; 41; 8] [25; -1; 42; -1] Red) (-4, 27)
          = inr (mkLudoState [-1; -1; 41; 8] [27; -1; 42; -1] Blue)) as H
    by (vm_compute; reflexivity).
  eexists. split; [exact H|].
  split; [exact (proj1 (apply_action_moves_one_token _ _ _ _ H))|reflexivity].
Defined.

(** X2. Every action that [get_legal_actions] offers, for whatever die, is
    accepted by [apply_action]: it raises nothing, puts the token of that
    index on the target and passes the turn. *)
Theorem legal_action_is_accepted
    (s : LudoState) (dice_roll token_index target : Z) :
  (token_index, target) ∈ get_legal_actions s dice_roll →
  ∃ s', apply_action s (token_index, target) = inr s' ∧
        current_player s' = other_player (current_player s) ∧
        tokens_of (current_player s) s' !! Z.to_nat token_index = Some target.
Proof.
  intros Hin. destruct (legal_action_applies _ _ _ Hin) as [s' Happ].
  exists s'. split; [done|].
  destruct (legal_move_shape _ _ _ _ Hin Happ)
    as (idx & pos & target' & opp' & [= -> ->] & Hpos & _ & _ & ->).
  rewrite Nat2Z.id. apply lookup_lt_Some in Hpos.
  unfold moved, tokens_of, _current_tokens in *.
  destruct (current_player s); simpl in *;
    (split; [done|]); by apply list_lookup_insert_eq.
Qed.

Lemma legal_action_is_accepted_witness :
  let s := mkLudoState [43; 42; 38; -1] [-1; 18; -1; -1] Blue in
  ∃ s', apply_action s (2, 39) = inr s' ∧ current_player s' = Red ∧
        tokens_of Blue s' !! 2%nat = Some 39.
Proof.
  assert ((2, 39) ∈ get_legal_actions
            (mkLudoState [43; 42; 38; -1] [-1; 18; -1; -1] Blue) 1) as Hin
    by compute_done.
  exact (legal_action_is_accepted _ 1 2 39 Hin).
Defined.

(** X3. Legal play keeps the board well formed: from a state whose
    positions all lie in -1..43, any sequence of plies (a legal action for a
    die in 1..6, or a pass on a die without legal action) leads to a state
    whose positions all lie in -1..43, with as many tokens for each player
    as before. *)
Theorem legal_play_keeps_positions_in_range (s s' : LudoState) :
  rtc ply s s' → well_formed s →
  well_formed s' ∧
  length (blue_tokens s') = length (blue_tokens s) ∧
  length (red_tokens s') = length (red_tokens s).
Proof.
  induction 1 as [s|s1 s2 s3 Hply _ IH]; intros Hwf; [done|].
  destruct (ply_lengths _ _ Hply) as [Hb Hr].
  destruct (IH (ply_well_formed _ _ Hply Hwf)) as (? & ? & ?).
  split_and!; [done|congruence..].
Qed.

Lemma legal_play_keeps_positions_in_range_witness :
  let s := mkLudoState [-1; -1; -1; -1] [-1; -1; -1; -1] Blue in
  let s' := mkLudoState [0; -1; -1; -1] [0; -1; -1; -1] Blue in
  rtc ply s s' ∧ well_formed s' ∧
  length (blue_tokens s') = length (blue_tokens s) ∧
  length (red_tokens s') = length (red_tokens s).
Proof.
  split; [exact two_plies_from_the_start|].
  apply (legal_play_keeps_positions_in_range _ _ two_plies_from_the_start).
  exact (proj1 start_regular).
Defined.

(** X4. Legal play never puts two tokens of a player on one position of the
    finish lane (40..43): if no such pair exists, for either player, none
    exists after any sequence of plies. *)
Theorem legal_play_keeps_finish_slots_apart (s s' : LudoState) :
  rtc ply s s' →
  finish_slots_apart (blue_tokens s) → finish_slots_apart (red_tokens s) →
  finish_slots_apart (blue_tokens s') ∧ finish_slots_apart (red_tokens s').
Proof.
  induction 1 as [s|s1 s2 s3 Hply _ IH]; intros Hb Hr; [done|].
  destruct (ply_finish_slots_apart _ _ Hply (conj Hb Hr)). by apply IH.
Qed.

Lemma legal_play_keeps_finish_slots_apart_witness :
  let s := mkLudoState [-1; -1; -1; -1] [-1; -1; -1; -1] Blue in
  let s' := mkLudoState [0; -1; -1; -1] [0; -1; -1; -1] Blue in
  rtc ply s s' ∧
  finish_slots_apart (blue_tokens s') ∧ finish_slots_apart (red_tokens s').
Proof.
  split; [exact two_plies_from_the_start|].
  apply (legal_play_keeps_finish_slots_apart _ _ two_plies_from_the_start).
  - exact (proj1 (proj2 start_regular)).
  - exact (proj1 (proj2 (proj2 start_regular))).
Defined.

(** X5. Legal play never stacks Blue's tokens: from a well-formed state in
    which no two Blue tokens on the board share a position, no sequence of
    plies, of either player, leads to a state in which two do. *)
Theorem legal_play_never_stacks_blue (s s' : LudoState) :
  rtc ply s s' → well_formed s → no_stack (blue_tokens s) →
  no_stack (blue_tokens s').
Proof.
  induction 1 as [s|s1 s2 s3 Hply _ IH]; intros Hwf Hns; [done|].
  apply IH; [by eapply ply_well_formed|by eapply ply_no_stack_Blue].
Qed.

Lemma legal_play_never_stacks_blue_witness :
  let s := mkLudoState [-1; -1; -1; -1] [-1; -1; -1; -1] Blue in
  let s' := mkLudoState [0; -1; -1; -1] [0; -1; -1; -1] Blue in
  rtc ply s s' ∧ no_stack (blue_tokens s').
Proof.
  split; [exact two_plies_from_the_start|].
  apply (legal_play_never_stacks_blue _ _ two_plies_from_the_start).
  - exact (proj1 start_regular).
  - intros i j pos Hi Hj Hpos. apply list_elem_of_lookup_2 in Hi.
    simpl in Hi. unfold HOME in Hpos.
    repeat (apply elem_of_cons in Hi as [Hi|Hi]; [done|]).
    by apply elem_of_nil in Hi.
Defined.

(** X6. Legal play never ends: [_all_finished] asks for every token of a
    player on 43, and [get_legal_actions] lets no token onto a finish-lane
    position another token of the player holds.  So from a regular state
    (well formed, no shared finish-lane position, two tokens or more a
    player), such as the start of a game, every state reached by plies is
    regular again, is not terminal and has no winner. *)
Theorem legal_play_never_ends (s s' : LudoState) :
  regular s → rtc ply s s' →
  regular s' ∧ is_terminal s' = false ∧ winner s' = None.
Proof.
  intros Hreg Hplay. pose proof (rtc_ply_regular _ _ Hplay Hreg) as Hreg'.
  split; [done|]. by apply regular_not_terminal.
Qed.

Lemma legal_play_never_ends_witness :
  let s := mkLudoState [-1; -1; -1; -1] [-1; -1; -1; -1] Blue in
  let s' := mkLudoState [0; -1; -1; -1] [-1; -1; -1; -1] Red in
  rtc ply s s' ∧ is_terminal s' = false ∧ winner s' = None.
Proof.
  assert (rtc ply (mkLudoState [-1; -1; -1; -1] [-1; -1; -1; -1] Blue)
            (mkLudoState [0; -1; -1; -1] [-1; -1; -1; -1] Red)) as Hplay.
  { apply rtc_once. apply (ply_move _ 6 (0, 0)); [lia|compute_done|reflexivity]. }
  split; [exact Hplay|].
  exact (proj2 (legal_play_never_ends _ _ start_regular Hplay)).
Defined.

Lemma legal_actions_from l (k : nat) (f : Z → option Z) :
  let L := (omap (λ '(idx, pos), (λ target, (Z.of_nat idx, target)) <$> f pos)
                 (imap (λ n x, ((k + n)%nat, x)) l)).*1 in
  (∀ i a, L !! i = Some a → Z.of_nat k ≤ a < Z.of_nat (k + length l)) ∧
  (∀ i j a b, L !! i = Some a → L !! j = Some b → (i < j)%nat → a < b) ∧
  (length L ≤ length l)%nat.
Proof.
  revert k. induction l as [|x l IH]; intros k; simpl.
  { split_and!; [intros; simplify_eq..|done]. }
  rewrite (imap_ext _ (λ n x, ((S k + n)%nat, x)))
    by (intros; unfold compose; f_equal; lia).
  destruct (IH (S k)) as (IH1 & IH2 & IH3). simpl in IH1, IH2, IH3.
  rewrite Nat.add_0_r.
  destruct (f x) as [t|]; simpl.
  - split_and!.
    + intros [|i] a Ha; simpl in Ha; [simplify_eq; lia|].
      apply IH1 in Ha. lia.
    + intros [|i] [|j] a b Ha Hb Hij; simpl in Ha, Hb; try lia.
      * simplify_eq. apply IH1 in Hb. lia.
      * eapply IH2; [exact Ha|exact Hb|lia].
    + exact (le_n_S _ _ IH3).
  - split_and!.
    + intros i a Ha. apply IH1 in Ha. lia.
    + exact IH2.
    + exact (le_S _ _ IH3).
Qed.

(** X7. [get_legal_actions] lists at most one action a token, in the order
    of the tokens: every token index in the list is that of a token of the
    mover (it lies in [0 .. len - 1]), the indices increase strictly along
    the list, and the list is no longer than the mover's token list. *)
Theorem legal_actions_in_token_order (s : LudoState) (dice_roll : Z) :
  let indices := (get_legal_actions s dice_roll).*1 in
  (∀ i a, indices !! i = Some a →
          0 ≤ a < Z.of_nat (length (_current_tokens s))) ∧
  (∀ i j a b, indices !! i = Some a → indices !! j = Some b →
              (i < j)%nat → a < b) ∧
  (length (get_legal_actions s dice_roll) ≤ length (_current_tokens s))%nat.
Proof.
  destruct (legal_actions_from (_current_tokens s) 0
              (legal_target (_current_tokens s)
                 (_track_positions (_current_tokens s) (current_player s))
                 dice_roll)) as (H1 & H2 & H3).
  simpl in H1, H2, H3. rewrite length_fmap in H3.
  split_and!; [exact H1|exact H2|exact H3].
Qed.

Lemma legal_actions_in_token_order_witness :
  let s := mkLudoState [43; 42; 38; -1] [-1; -1; -1; -1] Blue in
  let s' := mkLudoState [-1; -1; -1; -1] [0; 3; -1; 7] Red in
  (get_legal_actions s 1 = [(2, 39)] ∧
   0 ≤ 2 < Z.of_nat (length (_current_tokens s))) ∧
  (get_legal_actions s' 6 = [(0, 6); (1, 9); (2, 0); (3, 13)] ∧ 1 < 3).
Proof.
  intros s s'. split; (split; [reflexivity|]).
  - exact (proj1 (legal_actions_in_token_order s 1) 0%nat 2 eq_refl).
  - exact (proj1 (proj2 (legal_actions_in_token_order s' 6))
             1%nat 3%nat 1 3 eq_refl eq_refl ltac:(lia)).
Defined.

(** X8. [_track_to_global] yields a square in 0..39 for every integer; Red's
    square for a position is Blue's square for the position plus half the
    track; on the track (positions 0..39) two positions of one player are on
    one square only if they are equal, and positions of the two players are
    on one square exactly if they differ by 20. *)
Theorem track_to_global_squares (pos pos' : Z) (player : Player) :
  0 ≤ _track_to_global pos player < TRACK_LEN ∧
  _track_to_global pos Red = _track_to_global (pos + TRACK_LEN `div` 2) Blue ∧
  (0 ≤ pos < TRACK_LEN → 0 ≤ pos' < TRACK_LEN →
   (_track_to_global pos player = _track_to_global pos' player ↔ pos = pos') ∧
   (_track_to_global pos player = _track_to_global pos' (other_player player) ↔
    (pos = pos' + 20 ∨ pos' = pos + 20))).
Proof.
  assert (∀ x p, _track_to_global x p
                 = (match p with Blue => 0 | Red => 20 end + x) `mod` 40) as Hg.
  { by intros x []. }
  rewrite !Hg. unfold TRACK_LEN. change (40 `div` 2) with 20.
  split; [|split].
  - apply Z.mod_pos_bound. lia.
  - by replace (0 + (pos + 20)) with (20 + pos) by lia.
  - intros Hp Hp'.
    destruct player; change (other_player Blue) with Red;
      change (other_player Red) with Blue; cbv iota.
    all: split; split; intros Heq.
    all: try (revert Heq; Z.div_mod_to_equations; lia).
    all: try (subst; done).
    all: destruct Heq as [->| ->]; Z.div_mod_to_equations; lia.
Qed.

Lemma track_to_global_squares_witness :
  (_track_to_global 25 Blue = _track_to_global 5 Red ↔ (25 = 5 + 20 ∨ 5 = 25 + 20)).
Proof.
  refine (proj2 (proj2 (proj2 (track_to_global_squares 25 5 Blue)) _ _)).
  - unfold TRACK_LEN; lia.
  - unfold TRACK_LEN; lia.
Defined.

(** ** Instances with separate lists *)

(** [_backpropagate] as one update of the table. *)
Lemma _backpropagate_eq path winner w :
  MCTS._backpropagate path winner w =
  (Ret (outcome_of winner),
   mkWorld (store w)
     (foldl (MCTS.visit_entry (outcome_of winner)) (nodes w) path) (draws w)).
Proof. by destruct winner as [[]|]. Qed.

Lemma next_die_range `{Runtime} w : 1 ≤ next_die w ≤ 6.
Proof.
  unfold next_die.
  pose proof (Z.mod_pos_bound (Z.of_nat (rand (draws w))) 6). lia.
Qed.

Lemma separate_allocated σ state : separate σ state → Obj.allocated σ state.
Proof. intros (o & ? & ? & ? & ?). by exists o. Qed.

Lemma separate_set_current_player σ state player :
  separate σ state → separate (Obj.set_current_player state player σ) state.
Proof.
  intros (o & Ho & Hne & Hb & Hr).
  exists (Obj.mkInstance (Obj.self_blue_tokens o) (Obj.self_red_tokens o) player).
  unfold Obj.set_current_player, Obj.instance_at. rewrite Ho. simpl.
  split_and!; [|done..].
  apply list_lookup_insert_eq. by eapply lookup_lt_Some.
Qed.

Lemma obj_capture_loop_shape k idx opponent opponent_player target_global σ :
  Obj.instances (Obj.capture_loop k idx opponent opponent_player target_global σ)
    = Obj.instances σ ∧
  length (Obj.lists (Obj.capture_loop k idx opponent opponent_player
                       target_global σ))
    = length (Obj.lists σ).
Proof.
  revert idx σ. induction k as [|k IH]; intros idx σ; simpl; [done|].
  destruct (Obj.tokens_at σ opponent !! idx) as [pos|]; [|done].
  destruct (bool_decide (0 ≤ pos < TRACK_LEN)); [|apply IH].
  destruct (bool_decide _); [|apply IH].
  destruct (IH (S idx) (Obj.set_item opponent idx HOME σ)) as [-> ->].
  simpl. by rewrite length_insert.
Qed.

Lemma separate_apply_action σ state action :
  separate σ state → separate (Obj.apply_action state action σ).2 state.
Proof.
  intros (o & Ho & Hne & Hb & Hr). destruct action as [token_index target].
  unfold Obj.apply_action.
  destruct (py_index _ _) as [i|]; [|by exists o].
  destruct (_ && _); [by exists o|]. cbn [snd].
  set (σ1 := if bool_decide (target < TRACK_LEN) then _ else _).
  assert (Obj.instances σ1 = Obj.instances σ ∧
          length (Obj.lists σ1) = length (Obj.lists σ)) as [Hi1 Hl1].
  { unfold σ1. destruct (bool_decide _); [|done].
    destruct (py_in _ _); [|done]. apply obj_capture_loop_shape. }
  exists (Obj.mkInstance (Obj.self_blue_tokens o) (Obj.self_red_tokens o)
            (other_player (Obj.self_current_player (Obj.instance_at σ state)))).
  unfold Obj.set_current_player, Obj.instance_at at 1 2. simpl.
  rewrite Hi1, Ho, length_insert, Hl1. simpl.
  split_and!; [|done..].
  apply list_lookup_insert_eq. by eapply lookup_lt_Some.
Qed.

Lemma clone_separate σ self :
  Obj.allocated σ self → separate (Obj.clone self σ).2 (Obj.clone self σ).1.
Proof.
  intros (o & Ho & Hb & Hr). rewrite (clone_spec _ _ _ Ho Hb Hr). simpl.
  eexists. split_and!.
  - by apply list_lookup_middle.
  - simpl. lia.
  - simpl. rewrite length_app. simpl. lia.
  - simpl. rewrite length_app. simpl. lia.
Qed.

Lemma sample_store_separate blue red player :
  separate (sample_store blue red player) 0.
Proof. eexists. split_and!; [reflexivity|simpl; lia..]. Qed.

(** A legal action applied to an instance with separate lists: the method
    raises nothing and leaves the instance with the value of the transition. *)
Lemma apply_action_m_view state action dice_roll w :
  separate (store w) state →
  action ∈ get_legal_actions (Obj.view (store w) state) dice_roll →
  ∃ σ' s',
    apply_action_m state action w = (Ret (), mkWorld σ' (nodes w) (draws w)) ∧
    apply_action (Obj.view (store w) state) action = inr s' ∧
    Obj.view σ' state = s' ∧ separate σ' state ∧
    ∀ n m, owned n m (store w) state →
           frame n m (store w) σ' ∧ owned n m σ' state.
Proof.
  intros Hsep Hin. destruct (legal_action_applies _ _ _ Hin) as [s' Hs'].
  pose proof (separate_apply_action _ _ action Hsep) as Hsep'.
  destruct Hsep as (o & Ho & Hne & Hb & Hr).
  pose proof (obj_apply_action_refines _ _ action _ Ho Hne Hb Hr) as Href.
  rewrite Hs' in Href. destruct Href as [Hnone Hview].
  unfold apply_action_m.
  destruct (Obj.apply_action state action (store w)) as [e σ'] eqn:Happ.
  simpl in Hnone, Hview, Hsep'. subst e.
  exists σ', s'. split_and!; [done..|].
  intros n m Hown.
  pose proof (obj_apply_action_frame n m _ _ action Hown) as Hf.
  by rewrite Happ in Hf.
Qed.

Lemma view_pass σ state :
  Obj.allocated σ state →
  Obj.view (Obj.set_current_player state
              (other_player (current_player (Obj.view σ state))) σ) state
  = pass (Obj.view σ state).
Proof. intros Halloc. by rewrite view_set_current_player. Qed.

(** [_rollout] plays plies, and stops early only on a terminal state. *)
Lemma _rollout_plays `{Runtime} state max_depth w :
  separate (store w) state →
  ∃ v w' n,
    MCTS._rollout state max_depth w = (Ret v, w') ∧
    nodes w' = nodes w ∧
    separate (store w') state ∧
    nsteps ply n (Obj.view (store w) state) (Obj.view (store w') state) ∧
    (draws w + n ≤ draws w' ≤ draws w + 2 * n)%nat ∧
    ((n = max_depth ∧ v = 0%float) ∨
     ((n < max_depth)%nat ∧
      is_terminal (Obj.view (store w') state) = true ∧
      v = outcome_of (winner (Obj.view (store w') state)))).
Proof.
  revert w. induction max_depth as [|depth IH]; intros w Hsep.
  { exists 0%float, w, 0%nat. split_and!; [done..|constructor|lia|lia|by left]. }
  cbn [MCTS._rollout]. rewrite bind_read.
  destruct (Obj.is_terminal state (store w)) eqn:Hterm.
  { rewrite bind_read.
    exists (outcome_of (Obj.winner state (store w))), w, 0%nat.
    split_and!; [by destruct (Obj.winner state (store w)) as [[]|]|done..
                |constructor|lia|lia|].
    right. split_and!; [lia|done..]. }
  rewrite bind_randint, bind_read.
  pose proof (next_die_range w) as Hdie.
  destruct (Obj.get_legal_actions state (next_die w) _) as [|a l] eqn:Hl.
  - rewrite bind_read, bind_write. cbn [store nodes draws].
    match goal with |- context [MCTS._rollout state depth ?w1] =>
      destruct (IH w1) as (v & w' & n & Hr & Hn & Hs & Hp & Hd & Hv) end.
    { by apply separate_set_current_player. }
    cbn [store nodes draws] in *.
    rewrite view_pass in Hp by (by apply separate_allocated).
    exists v, w', (S n). split_and!; [done..| |lia|lia|].
    + eapply nsteps_l; [|exact Hp]. by eapply ply_pass.
    + destruct Hv as [[-> ->]|(? & ? & ?)]; [by left|right].
      split_and!; [lia|done..].
  - destruct (choice_spec (a :: l)
                (mkWorld (store w) (nodes w) (S (draws w)))) as (x & Hx & Hc);
      [done|].
    rewrite (bind_Ret _ _ _ _ _ Hc). cbn [store nodes draws].
    rewrite <- Hl in Hx.
    destruct (apply_action_m_view state x (next_die w)
                (mkWorld (store w) (nodes w) (S (S (draws w)))) Hsep Hx)
      as (σ' & s' & Ha & Happ & Hview & Hsep' & _).
    rewrite (bind_Ret _ _ _ _ _ Ha). cbn [store nodes draws].
    destruct (IH (mkWorld σ' (nodes w) (S (S (draws w)))) Hsep')
      as (v & w' & n & Hr & Hn & Hs & Hp & Hd & Hv).
    cbn [store nodes draws] in *.
    exists v, w', (S n). split_and!; [done..| |lia|lia|].
    + eapply nsteps_l; [|exact Hp]. rewrite Hview. by eapply ply_move.
    + destruct Hv as [[-> ->]|(? & ? & ?)]; [by left|right].
      split_and!; [lia|done..].
Qed.

(** ** Dictionaries *)

Section dict.
Context {K V : Type} `{EqDecision K}.
Implicit Types (d : dict K V) (k : K) (v : V).

Lemma dict_get_set d k v k' :
  dict_get (dict_set d k v) k' = if decide (k' = k) then Some v else dict_get d k'.
Proof.
  induction d as [|[k0 v0] d IH]; simpl.
  - by destruct (decide (k' = k)).
  - destruct (decide (k = k0)) as [->|Hne]; simpl.
    + by destruct (decide (k' = k0)).
    + destruct (decide (k' = k0)) as [->|Hne'].
      * by rewrite decide_False by done.
      * exact IH.
Qed.

Lemma dict_get_elem d k v : dict_get d k = Some v → (k, v) ∈ d.
Proof.
  induction d as [|[k0 v0] d IH]; simpl; [done|].
  destruct (decide (k = k0)) as [->|Hne].
  - intros [= ->]. apply list_elem_of_here.
  - intros Hd. apply list_elem_of_further. by apply IH.
Qed.

Lemma dict_in_keys d k : dict_in k d ↔ k ∈ d.*1.
Proof.
  unfold dict_in. rewrite bool_decide_spec.
  induction d as [|[k0 v0] d IH]; simpl.
  - split; [by intros [? ?]|by intros ?%elem_of_nil].
  - rewrite elem_of_cons. destruct (decide (k = k0)) as [->|Hne].
    + split; [by left|by eexists].
    + rewrite IH. split; [by right|by intros [?|?]].
Qed.

Lemma dict_set_forall (P : K * V → Prop) d k v :
  Forall P d → P (k, v) → Forall P (dict_set d k v).
Proof.
  intros Hd Hv. induction Hd as [|[k0 v0] d H0 Hd IH]; simpl.
  - by repeat constructor.
  - destruct (decide (k = k0)); by constructor.
Qed.

Lemma dict_in_set d k v k' : dict_in k' d → dict_in k' (dict_set d k v).
Proof.
  unfold dict_in. rewrite !bool_decide_spec, dict_get_set.
  by destruct (decide (k' = k)).
Qed.

Lemma dict_in_set_eq d k v : dict_in k (dict_set d k v).
Proof.
  unfold dict_in. rewrite bool_decide_spec, dict_get_set, decide_True by done.
  by eexists.
Qed.

End dict.

Lemma dict_set_keys {K V V'} `{EqDecision K} (d : dict K V) (d' : dict K V') k v v' :
  d.*1 = d'.*1 → (dict_set d k v).*1 = (dict_set d' k v').*1.
Proof.
  revert d'. induction d as [|[k0 v0] d IH]; intros [|[k1 v1] d']; simpl;
    intros Heq; simplify_eq; [done|].
  destruct (decide (k = k1)); simpl; f_equal; [done|]. by apply IH.
Qed.

Lemma sum_values_visit (d : dict Action Z) action :
  sum_values (dict_set d action (default 0 (dict_get d action) + 1))
  = sum_values d + 1.
Proof.
  induction d as [|[k0 v0] d IH]; simpl; [lia|].
  destruct (decide (action = k0)); simpl; lia.
Qed.

Lemma state_of_key_key s : state_of_key (key s) = s.
Proof. by destruct s. Qed.

(** ** Consistency of the node table *)

Lemma node_ok_init Wok k : node_ok Wok k (MCTSNode.__init__ k).
Proof.
  by split_and!.
Qed.

Lemma node_ok_set_child Wok k action child_key node :
  successor k action child_key → node_ok Wok k node →
  node_ok Wok k (MCTS.set_child action child_key node).
Proof.
  intros Hsucc (Hk & Ht & HN & HW & HWok & Hin & Hch).
  split_and!; simpl; try done.
  - intros a Ha. by apply dict_in_set, Hin.
  - intros a ck. rewrite dict_get_set.
    destruct (decide (a = action)) as [->|_]; [by intros [= <-]|apply Hch].
Qed.

Lemma node_ok_visit (O Wok : float → Prop) k action outcome node :
  Wok 0%float → (∀ x o, Wok x → O o → Wok (x + o)%float) → O outcome →
  dict_in action (MCTSNode.children node) →
  node_ok Wok k node → node_ok Wok k (MCTS.visit action outcome node).
Proof.
  intros Hz Hadd Ho Hexp (Hk & Ht & HN & HW & HWok & Hin & Hch).
  split_and!; simpl; try done.
  - rewrite sum_values_visit. lia.
  - apply dict_set_forall; [done|]. simpl.
    destruct (dict_get (MCTSNode.N node) action) as [n|] eqn:Hn; simpl; [|lia].
    apply dict_get_elem in Hn.
    pose proof (proj1 (Forall_forall _ _) HN _ Hn) as Hn1. simpl in Hn1. lia.
  - by apply dict_set_keys.
  - apply dict_set_forall; [done|]. simpl. apply Hadd; [|done].
    destruct (dict_get (MCTSNode.W node) action) as [x|] eqn:Hx; simpl; [|done].
    apply dict_get_elem in Hx.
    exact (proj1 (Forall_forall _ _) HWok _ Hx).
  - intros a. unfold dict_in at 1. rewrite bool_decide_spec, dict_get_set.
    destruct (decide (a = action)) as [->|_]; [done|].
    intros Ha. apply Hin. unfold dict_in. by rewrite bool_decide_spec.
Qed.

Lemma table_ok_alter Wok t k f :
  (∀ node, t !! k = Some node → node_ok Wok k node → node_ok Wok k (f node)) →
  table_ok Wok t → table_ok Wok (alter f k t).
Proof.
  intros Hf Hok k' node'. destruct (decide (k' = k)) as [->|Hne].
  - rewrite lookup_alter_eq. destruct (t !! k) as [node|] eqn:Hk; [|done].
    intros [= <-]. apply Hf; [done|]. by apply Hok.
  - rewrite lookup_alter_ne by done. apply Hok.
Qed.

Lemma expanded_alter t path k f :
  (∀ node action, dict_in action (MCTSNode.children node) →
                  dict_in action (MCTSNode.children (f node))) →
  expanded t path → expanded (alter f k t) path.
Proof.
  intros Hf Hexp k' action player Hin.
  destruct (Hexp _ _ _ Hin) as (node & Hnode & Hch).
  destruct (decide (k' = k)) as [->|Hne].
  - exists (f node). rewrite lookup_alter_eq, Hnode. split; [done|]. by apply Hf.
  - exists node. by rewrite lookup_alter_ne.
Qed.

Lemma size_alter (t : gmap Key MCTSNode.t) k f : size (alter f k t) = size t.
Proof. by rewrite <- !size_dom, dom_alter_L. Qed.

Lemma table_ok_backpropagate (O Wok : float → Prop) outcome path t :
  Wok 0%float → (∀ x o, Wok x → O o → Wok (x + o)%float) → O outcome →
  expanded t path → table_ok Wok t →
  table_ok Wok (foldl (MCTS.visit_entry outcome) t path) ∧
  size (foldl (MCTS.visit_entry outcome) t path) = size t.
Proof.
  intros Hz Hadd Ho. revert t.
  induction path as [|[[k action] player] path IH]; intros t Hexp Hok; [done|].
  simpl.
  destruct (IH (alter (MCTS.visit action outcome) k t)) as [IH1 IH2].
  - apply expanded_alter; [done|].
    intros k' a p Hin. apply (Hexp k' a p). by apply list_elem_of_further.
  - apply table_ok_alter; [|done]. intros node Hnode.
    apply (node_ok_visit O); [done..|].
    destruct (Hexp k action player) as (node' & Hnode' & Hch);
      [apply list_elem_of_here|].
    by simplify_eq.
  - split; [done|]. by rewrite IH2, size_alter.
Qed.

Lemma expanded_insert t path k node :
  t !! k = None → expanded t path → expanded (<[k := node]> t) path.
Proof.
  intros Hk Hexp k' action player Hin.
  destruct (Hexp _ _ _ Hin) as (node' & Hnode' & Hch).
  exists node'. split; [|done].
  rewrite lookup_insert_ne; [done|]. intros <-. congruence.
Qed.

Lemma expanded_snoc t path k action player node :
  expanded t path → t !! k = Some node →
  dict_in action (MCTSNode.children node) →
  expanded t (path ++ [(k, action, player)]).
Proof.
  intros Hexp Hnode Hch k' action' player' Hin.
  apply elem_of_app in Hin as [Hin|Hin]; [by eapply Hexp|].
  apply list_elem_of_singleton in Hin as [= -> -> ->]. by exists node.
Qed.

(** ** What a search preserves

    The loops of [_simulate] and [search], followed once for an invariant
    [J] of the states that plies preserve, a set [O] of values that rollouts
    from such states yield, and a property [Wok] of accumulated values that
    adding such a value preserves. *)

Section search_invariant.
Context `{Runtime}.
Variable J : LudoState → Prop.
Variables O Wok : float → Prop.
Hypothesis J_ply : ∀ s s', ply s s' → J s → J s'.
Hypothesis O_terminal :
  ∀ s, J s → is_terminal s = true → O (outcome_of (winner s)).
Hypothesis O_zero : O 0%float.
Hypothesis O_winner : ∀ v, O v → outcome_of (MCTS._value_to_winner v) = v.
Hypothesis Wok_zero : Wok 0%float.
Hypothesis Wok_add : ∀ x o, Wok x → O o → Wok (x + o)%float.

Lemma J_nsteps n s s' : nsteps ply n s s' → J s → J s'.
Proof using J_ply. induction 1; eauto. Qed.

Lemma _rollout_outcome state max_depth w :
  separate (store w) state → J (Obj.view (store w) state) →
  ∃ v w', MCTS._rollout state max_depth w = (Ret v, w') ∧
          nodes w' = nodes w ∧ O v.
Proof using J_ply O_terminal O_zero.
  intros Hsep HJ.
  destruct (_rollout_plays state max_depth w Hsep)
    as (v & w' & n & Hr & Hn & _ & Hp & _ & Hv).
  exists v, w'. split_and!; [done..|].
  destruct Hv as [[_ ->]|(_ & Hterm & ->)]; [done|].
  apply O_terminal; [|done]. by eapply J_nsteps.
Qed.

(** One simulation keeps the table consistent, returns a value in [O] and
    adds at most one node. *)
Lemma _simulate_table self fuel state path w v w' :
  separate (store w) state → J (Obj.view (store w) state) →
  table_ok Wok (nodes w) → expanded (nodes w) path →
  MCTS._simulate self fuel state path w = (Ret v, w') →
  table_ok Wok (nodes w') ∧ O v ∧ (size (nodes w') ≤ S (size (nodes w)))%nat.
Proof using All.
  revert path w. induction fuel as [|fuel IH];
    intros path w Hsep HJ Hok Hexp; [done|].
  cbn [MCTS._simulate]. rewrite bind_read.
  destruct (Obj.is_terminal state (store w)) eqn:Hterm.
  { rewrite bind_read, _backpropagate_eq. intros [= <- <-]. simpl.
    pose proof (O_terminal _ HJ Hterm) as HO.
    destruct (table_ok_backpropagate O Wok _ path (nodes w)
                Wok_zero Wok_add HO Hexp Hok) as [Hok' Hsize].
    split_and!; [done..|]. unfold Obj.winner. rewrite Hsize. lia. }
  rewrite bind_read, bind_get_node.
  destruct (nodes w !! _) as [node|] eqn:Hnode; cbv beta iota.
  2:{ (* a new leaf *)
    rewrite bind_update_nodes.
    match goal with |- context [bind (MCTS._rollout state 200) _ ?w1] =>
      destruct (_rollout_outcome state 200 w1) as (v0 & w0 & Hr & Hn & HO) end;
      [done..|].
    rewrite (bind_Ret _ _ _ _ _ Hr), _backpropagate_eq. intros [= <- <-].
    simpl. rewrite Hn. simpl. rewrite (O_winner _ HO).
    destruct (table_ok_backpropagate O Wok v0 path
                (<[Obj.key state (store w) :=
                     MCTSNode.__init__ (Obj.key state (store w))]> (nodes w))
                Wok_zero Wok_add HO) as [Hok' Hsize].
    - by apply expanded_insert.
    - apply map_Forall_insert_2; [apply node_ok_init|done].
    - split_and!; [done..|]. rewrite Hsize, map_size_insert_None by done. lia. }
  rewrite bind_randint, bind_read, bind_read.
  pose proof (next_die_range w) as Hdie.
  destruct (Obj.get_legal_actions state (next_die w) _) as [|a l] eqn:Hl;
    cbv beta iota.
  { (* no legal action: the turn passes *)
    rewrite bind_write. cbn [store nodes draws]. intros Hsim.
    eapply IH in Hsim; [exact Hsim|..]; cbn [store nodes draws].
    - by apply separate_set_current_player.
    - rewrite view_pass by (by apply separate_allocated).
      eapply J_ply; [|exact HJ]. by eapply ply_pass.
    - done.
    - done. }
  cbn [store nodes draws].
  destruct (filter _ (a :: l)) as [|u untried] eqn:Hu; cbv beta iota.
  - (* every legal action has been tried: selection *)
    destruct (py_max float_gt _ (a :: l)) as [action|] eqn:Hmax; [|done].
    apply py_max_elem in Hmax.
    assert (dict_in action (MCTSNode.children node)) as Hch.
    { destruct (dict_in action (MCTSNode.children node)) eqn:Hd; [done|].
      destruct (filter_nil_not_elem_of _ _ action Hu); [|done].
      intros Ht. by rewrite Hd in Ht. }
    rewrite <- Hl in Hmax.
    destruct (apply_action_m_view state action (next_die w)
                (mkWorld (store w) (nodes w) (S (draws w))) Hsep Hmax)
      as (σ' & s' & Ha & Happ & Hview & Hsep' & _).
    rewrite (bind_Ret _ _ _ _ _ Ha). cbv beta. intros Hsim.
    eapply IH in Hsim; [exact Hsim|..]; cbn [store nodes draws].
    + done.
    + rewrite Hview. eapply J_ply; [|exact HJ]. by eapply ply_move.
    + done.
    + by eapply expanded_snoc.
  - (* expansion *)
    destruct (choice_spec (u :: untried)
                (mkWorld (store w) (nodes w) (S (draws w)))) as (x & Hx & Hc);
      [done|].
    rewrite (bind_Ret _ _ _ _ _ Hc). cbn [store nodes draws].
    rewrite bind_alloc. cbn [store nodes draws].
    rewrite <- Hu in Hx. apply list_elem_of_filter in Hx as [_ Hx].
    rewrite <- Hl in Hx.
    pose proof (separate_allocated _ _ Hsep) as Halloc.
    pose proof (clone_separate _ _ Halloc) as Hsepc.
    pose proof (clone_view _ _ Halloc) as Hviewc.
    set (σc := (Obj.clone state (store w)).2) in *.
    set (next_state := (Obj.clone state (store w)).1) in *.
    assert (x ∈ get_legal_actions (Obj.view σc next_state) (next_die w)) as Hx'.
    { by rewrite Hviewc. }
    destruct (apply_action_m_view next_state x (next_die w)
                (mkWorld σc (nodes w) (S (S (draws w)))) Hsepc Hx')
      as (σ' & s' & Ha & Happ & Hview & Hsep' & _).
    rewrite (bind_Ret _ _ _ _ _ Ha).
    rewrite bind_read, bind_update_nodes. cbn [store nodes draws] in *.
    rewrite Hviewc in Happ.
    assert (J s') as HJ'. { eapply J_ply; [|exact HJ]. by eapply ply_move. }
    match goal with |- context [bind (MCTS._rollout next_state 200) _ ?w1] =>
      destruct (_rollout_outcome next_state 200 w1) as (v0 & w0 & Hr & Hn & HO)
    end; [done|simpl; by rewrite Hview|].
    rewrite (bind_Ret _ _ _ _ _ Hr). cbv beta.
    rewrite _backpropagate_eq. intros [= <- <-].
    simpl. rewrite Hn. simpl. rewrite (O_winner _ HO).
    set (k := Obj.key state (store w)) in *.
    set (child_key := Obj.key next_state σ').
    set (player := current_player (Obj.view (store w) state)).
    destruct (table_ok_backpropagate O Wok v0 (path ++ [(k, x, player)])
                (alter (MCTS.set_child x child_key) k (nodes w))
                Wok_zero Wok_add HO) as [Hok' Hsize].
    + eapply expanded_snoc.
      * apply expanded_alter; [|done]. intros node0 a0 Ha0. by apply dict_in_set.
      * by rewrite lookup_alter_eq, Hnode.
      * apply dict_in_set_eq.
    + apply table_ok_alter; [|done]. intros node0 _.
      apply node_ok_set_child. exists (next_die w), s'.
      unfold k, Obj.key. rewrite state_of_key_key.
      do 3 (split; [done|]). unfold child_key, Obj.key. by rewrite Hview.
    + split; [exact Hok'|]. split; [exact HO|].
      rewrite size_alter in Hsize.
      transitivity (size (nodes w)); [exact (Nat.eq_le_incl _ _ Hsize)|lia].
Qed.

Lemma simulations_table self fuel root_state k w w' n m :
  below n m (store w) root_state → J (Obj.view (store w) root_state) →
  table_ok Wok (nodes w) →
  MCTS.simulations self fuel root_state k w = (Ret (), w') →
  table_ok Wok (nodes w') ∧ (size (nodes w') ≤ size (nodes w) + k)%nat.
Proof using All.
  revert w. induction k as [|k IH]; intros w Hbelow HJ Hok.
  { intros [= <-]. split; [done|lia]. }
  cbn [MCTS.simulations]. rewrite bind_alloc.
  pose proof (below_allocated _ _ _ _ Hbelow) as Halloc.
  assert ((n ≤ length (Obj.instances (store w)))%nat ∧
          (m ≤ length (Obj.lists (store w)))%nat) as [Hbn Hbm].
  { destruct Hbelow as (o & ? & ? & ? & ? & ?). lia. }
  destruct (clone_frame n m (store w) root_state Halloc Hbn Hbm) as (Hf0 & Ho0 & _).
  pose proof (clone_separate _ _ Halloc) as Hsepc.
  pose proof (clone_view _ _ Halloc) as Hviewc.
  set (σc := (Obj.clone root_state (store w)).2) in *.
  set (state := (Obj.clone root_state (store w)).1) in *.
  pose proof (_simulate_spec self fuel state [] (mkWorld σc (nodes w) (draws w))
                (owned_allocated _ _ _ _ Ho0)) as Hspec.
  pose proof (_simulate_table self fuel state [] (mkWorld σc (nodes w) (draws w)))
    as Htable.
  unfold bind at 1.
  destruct (MCTS._simulate self fuel state [] _) as [[v|e|] w1]; [|done..].
  destruct Hspec as [[_ Hf1] _]. simpl in Hf1. specialize (Hf1 n m Ho0).
  destruct (Htable v w1) as (Hok1 & _ & Hsize1); simpl; [done| |done| |done|].
  { by rewrite Hviewc. }
  { intros ? ? ? ?%elem_of_nil. done. }
  assert (frame n m (store w) (store w1)) as Hf by (by eapply frame_trans).
  intros Hsim. apply IH in Hsim as [Hok' Hsize'].
  - split; [done|]. simpl in Hsize1. lia.
  - by eapply below_frame.
  - by rewrite (below_view _ _ _ _ _ Hbelow Hf).
  - done.
Qed.

Lemma search_table self fuel root_state w r w' :
  Obj.allocated (store w) root_state →
  J (Obj.view (store w) root_state) → table_ok Wok (nodes w) →
  MCTS.search self fuel root_state w = (Ret r, w') →
  table_ok Wok (nodes w') ∧
  (size (nodes w') ≤ S (size (nodes w)) + Z.to_nat (MCTS.n_simulations self))%nat ∧
  ∃ root_node, nodes w' !! Obj.key root_state (store w) = Some root_node ∧
               r = root_choice root_node.
Proof using All.
  intros Halloc HJ Hok. rewrite search_unfold. cbv zeta.
  pose proof (simulations_table self fuel root_state
                (Z.to_nat (MCTS.n_simulations self))
                (with_root (Obj.key root_state (store w)) w)) as Hsims.
  destruct (MCTS.simulations _ _ _ _ _) as [[[]|e|] w1]; [|done..].
  destruct (Hsims w1 _ _ (allocated_below _ _ Halloc)) as [Hok1 Hsize1];
    [done| |done|].
  { unfold with_root. simpl. destruct (nodes w !! _) eqn:Hroot; [done|].
    apply map_Forall_insert_2; [apply node_ok_init|done]. }
  assert (size (nodes (with_root (Obj.key root_state (store w)) w))
          ≤ S (size (nodes w)))%nat as Hsize0.
  { unfold with_root. simpl. destruct (nodes w !! _) eqn:Hroot; [lia|].
    rewrite map_size_insert_None by done. lia. }
  destruct (nodes w1 !! _) as [root_node|] eqn:Hroot; [|done].
  destruct (root_choice root_node) as [action|] eqn:Hchoice.
  - intros [= <- <-]. split_and!; [done|lia|]. by exists root_node.
  - destruct (MCTSNode.N root_node) eqn:HN; [|done].
    intros [= <- <-]. split_and!; [done|lia|]. by exists root_node.
Qed.

End search_invariant.

(** ** The two uses of the invariant *)

Lemma is_outcome_outcome_of winner : is_outcome (outcome_of winner).
Proof. destruct winner as [[]|]; unfold is_outcome; simpl; auto. Qed.

Lemma is_outcome_winner v :
  is_outcome v → outcome_of (MCTS._value_to_winner v) = v.
Proof. by intros [->|[->| ->]]. Qed.

Lemma search_table_any `{Runtime} self fuel root_state w r w' :
  Obj.allocated (store w) root_state →
  table_ok (λ _, True) (nodes w) →
  MCTS.search self fuel root_state w = (Ret r, w') →
  table_ok (λ _, True) (nodes w') ∧
  (size (nodes w') ≤ S (size (nodes w)) + Z.to_nat (MCTS.n_simulations self))%nat ∧
  ∃ root_node, nodes w' !! Obj.key root_state (store w) = Some root_node ∧
               r = root_choice root_node.
Proof.
  intros Halloc Hok.
  apply (search_table (λ _, True) is_outcome (λ _, True)); try done.
  - intros. apply is_outcome_outcome_of.
  - by right; right.
  - apply is_outcome_winner.
Qed.

Lemma search_table_regular `{Runtime} self fuel root_state w r w' :
  Obj.allocated (store w) root_state →
  regular (Obj.view (store w) root_state) →
  table_ok (λ x, x = 0%float) (nodes w) →
  MCTS.search self fuel root_state w = (Ret r, w') →
  table_ok (λ x, x = 0%float) (nodes w').
Proof.
  intros Halloc Hreg Hok Hs.
  refine (proj1 (search_table regular (λ v, v = 0%float) (λ x, x = 0%float)
                   _ _ _ _ _ _ self fuel root_state w r w' Halloc Hreg Hok Hs)).
  - intros s s' Hply. by apply ply_regular.
  - intros s Hs' Hterm. destruct (regular_not_terminal _ Hs'). congruence.
  - done.
  - by intros v ->.
  - done.
  - by intros x o -> ->.
Qed.

(** ** Backpropagation *)

(** What the loop of [_backpropagate] does to the node of one key. *)
Lemma backpropagate_loop outcome path t k :
  match t !! k with
  | None => foldl (MCTS.visit_entry outcome) t path !! k = None
  | Some node =>
      ∃ node', foldl (MCTS.visit_entry outcome) t path !! k = Some node' ∧
        MCTSNode.state_key node' = MCTSNode.state_key node ∧
        MCTSNode.children node' = MCTSNode.children node ∧
        MCTSNode.total_visits node'
          = MCTSNode.total_visits node + Z.of_nat (visits_at k path) ∧
        ∀ action,
          default 0 (dict_get (MCTSNode.N node') action)
            = default 0 (dict_get (MCTSNode.N node) action)
              + Z.of_nat (visits_of k action path) ∧
          default 0%float (dict_get (MCTSNode.W node') action)
            = Nat.iter (visits_of k action path) (λ x, (x + outcome)%float)
                (default 0%float (dict_get (MCTSNode.W node) action))
  end.
Proof.
  revert t. induction path as [|[[k0 a0] p0] path IH]; intros t.
  { simpl. destruct (t !! k) as [node|] eqn:Hk; [|done]. exists node.
    split_and!; [done..|unfold visits_at; simpl; lia|].
    intros action. unfold visits_of. simpl. split; [lia|done]. }
  simpl. specialize (IH (alter (MCTS.visit a0 outcome) k0 t)).
  unfold visits_at, visits_of in *.
  destruct (decide (k0 = k)) as [->|Hne].
  - rewrite lookup_alter_eq in IH.
    rewrite filter_cons_True by done.
    destruct (t !! k) as [node|]; [|done]. simpl in IH.
    destruct IH as (node' & Hnode' & Hk & Hch & Ht & HNW).
    exists node'. split_and!; [done..|simpl; lia|].
    intros action. destruct (HNW action) as [HN HW].
    rewrite HN, HW, !dict_get_set.
    destruct (decide (action = a0)) as [->|Hna].
    + rewrite filter_cons_True by done. simpl. split; [lia|].
      exact (eq_sym (Nat.iter_succ_r _ _ _)).
    + rewrite filter_cons_False by (simpl; intros [_ ?]; congruence). done.
  - rewrite lookup_alter_ne in IH by done.
    rewrite filter_cons_False by done.
    destruct (t !! k) as [node|]; [|done].
    destruct IH as (node' & Hnode' & Hk & Hch & Ht & HNW).
    exists node'. split_and!; [done..|].
    intros action.
    rewrite filter_cons_False by (simpl; intros [? _]; congruence). apply HNW.
Qed.

(** X9. [_backpropagate] returns 1.0 for Blue, -1.0 for Red and 0.0 for no
    winner, and touches neither the object store nor the random source.  It
    adds no node to the table and removes none; a node keeps its key and its
    children; its [total_visits] grows by the number of steps of the path
    that name it; and for every action its count in [N] grows by the number
    of steps that name the node with that action, its value in [W] by the
    returned value once for each such step (a missing entry counting as
    0). *)
Theorem backpropagate_counts_the_path
    (path : list (Key * Action * Player)) (winner : option Player) (w : World) :
  ∃ w',
    MCTS._backpropagate path winner w = (Ret (outcome_of winner), w') ∧
    store w' = store w ∧ draws w' = draws w ∧
    ∀ k,
      match nodes w !! k with
      | None => nodes w' !! k = None
      | Some node =>
          ∃ node', nodes w' !! k = Some node' ∧
            MCTSNode.state_key node' = MCTSNode.state_key node ∧
            MCTSNode.children node' = MCTSNode.children node ∧
            MCTSNode.total_visits node'
              = MCTSNode.total_visits node + Z.of_nat (visits_at k path) ∧
            ∀ action,
              default 0 (dict_get (MCTSNode.N node') action)
                = default 0 (dict_get (MCTSNode.N node) action)
                  + Z.of_nat (visits_of k action path) ∧
              default 0%float (dict_get (MCTSNode.W node') action)
                = Nat.iter (visits_of k action path)
                    (λ x, (x + outcome_of winner)%float)
                    (default 0%float (dict_get (MCTSNode.W node) action))
      end.
Proof.
  eexists. split; [apply _backpropagate_eq|]. simpl. split_and!; [done..|].
  intros k. apply backpropagate_loop.
Qed.

(** X10. On an instance with separate lists [_rollout] returns, leaves the
    node table as it was, and plays plies only: the state it leaves is
    reached from the state it was given by [n] plies, at the cost of between
    [n] and [2 n] draws.  Either it plays all [max_depth] plies and returns
    0.0, whatever the state then is, or it stops before on a terminal state
    and returns 1.0 if Blue is its winner and -1.0 if Red is.  In both cases
    [_value_to_winner] followed by the value [_backpropagate] assigns gives
    the returned value back. *)
Theorem rollout_plays_legal_plies `{Runtime}
    (state : Obj.ref) (max_depth : nat) (w : World) :
  separate (store w) state →
  ∃ v w' n,
    MCTS._rollout state max_depth w = (Ret v, w') ∧
    nodes w' = nodes w ∧
    nsteps ply n (Obj.view (store w) state) (Obj.view (store w') state) ∧
    (draws w + n ≤ draws w' ≤ draws w + 2 * n)%nat ∧
    ((n = max_depth ∧ v = 0%float) ∨
     ((n < max_depth)%nat ∧
      is_terminal (Obj.view (store w') state) = true ∧
      v = outcome_of (winner (Obj.view (store w') state)))) ∧
    outcome_of (MCTS._value_to_winner v) = v.
Proof.
  intros Hsep.
  destruct (_rollout_plays state max_depth w Hsep)
    as (v & w' & n & Hr & Hn & _ & Hp & Hd & Hv).
  exists v, w', n. do 5 (split; [done|]).
  apply is_outcome_winner.
  destruct Hv as [[_ ->]|(_ & _ & ->)];
    [by right; right|apply is_outcome_outcome_of].
Qed.

Lemma rollout_plays_legal_plies_witness :
  let H := sample_runtime (λ i, i * 7 + 5)%nat in
  separate (store start_world) 0 ∧
  ∃ v w' n,
    MCTS._rollout 0%nat 6 start_world = (Ret v, w') ∧
    nodes w' = nodes start_world ∧
    nsteps ply n (Obj.view (store start_world) 0) (Obj.view (store w') 0).
Proof.
  intros H. split; [apply sample_store_separate|].
  destruct (@rollout_plays_legal_plies H 0%nat 6 start_world
              (sample_store_separate _ _ _))
    as (v & w' & n & Hr & Hn & Hp & _).
  exists v, w', n. split; [exact Hr|]. split; [exact Hn|exact Hp].
Defined.

(** X11. From a regular state a rollout never meets a winner: it plays all
    [max_depth] plies, takes at least [max_depth] draws and returns 0.0. *)
Theorem rollout_from_regular_state_is_a_draw `{Runtime}
    (state : Obj.ref) (max_depth : nat) (w : World) :
  separate (store w) state → regular (Obj.view (store w) state) →
  ∃ w', MCTS._rollout state max_depth w = (Ret 0%float, w') ∧
        nsteps ply max_depth (Obj.view (store w) state)
          (Obj.view (store w') state) ∧
        (draws w + max_depth ≤ draws w')%nat.
Proof.
  intros Hsep Hreg.
  destruct (_rollout_plays state max_depth w Hsep)
    as (v & w' & n & Hr & _ & _ & Hp & Hd & Hv).
  destruct Hv as [[-> ->]|(_ & Hterm & _)].
  - exists w'. split_and!; [done..|lia].
  - apply rtc_nsteps_2 in Hp.
    destruct (regular_not_terminal _ (rtc_ply_regular _ _ Hp Hreg)). congruence.
Qed.

Lemma rollout_from_regular_state_is_a_draw_witness :
  let H := sample_runtime (λ i, i * 7 + 5)%nat in
  regular (Obj.view (store start_world) 0) ∧
  ∃ w', MCTS._rollout 0%nat 200 start_world = (Ret 0%float, w') ∧
        nsteps ply 200 (Obj.view (store start_world) 0) (Obj.view (store w') 0) ∧
        (draws start_world + 200 ≤ draws w')%nat.
Proof.
  intros H. split; [exact start_regular|].
  exact (@rollout_from_regular_state_is_a_draw H 0%nat 200 start_world
           (sample_store_separate _ _ _) start_regular).
Defined.

(** X12. [search] keeps the node table consistent: if every node of the
    table is consistent before (as in the empty table of a new [MCTS]), then
    whenever [search] returns every node is consistent after, that is: it is
    held under its own [state_key]; its [total_visits] is the sum of its
    visit counts [N]; every count is at least 1; [W] has the keys of [N]; an
    action with a count has a child recorded; and the child recorded for an
    action is the key of the state that this action, legal for some die in
    1..6, leads to from the state of the node.  The table has grown by at
    most one node for the root and one for each simulation. *)
Theorem search_keeps_table_consistent `{Runtime}
    (self : MCTS.t) (fuel : nat) (root_state : Obj.ref) (w w' : World)
    (r : option Action) :
  Obj.allocated (store w) root_state →
  table_ok (λ _, True) (nodes w) →
  MCTS.search self fuel root_state w = (Ret r, w') →
  table_ok (λ _, True) (nodes w') ∧
  (size (nodes w') ≤ size (nodes w) + 1 + Z.to_nat (MCTS.n_simulations self))%nat.
Proof.
  intros Halloc Hok Hs.
  destruct (search_table_any _ _ _ _ _ _ Halloc Hok Hs) as (Hok' & Hsize & _).
  split; [done|lia].
Qed.

Lemma search_keeps_table_consistent_witness :
  let H := sample_runtime (λ i, i * 7 + 5)%nat in
  let self := MCTS.mk 1.4%float 6 in
  let run := MCTS.search self 20 0%nat start_world in
  run.1 = Ret (Some (0, 0)) ∧
  table_ok (λ _, True) (nodes run.2) ∧
  (size (nodes run.2)
     ≤ size (nodes start_world) + 1 + Z.to_nat (MCTS.n_simulations self))%nat.
Proof.
  intros H self run.
  assert (run.1 = Ret (Some (0, 0))) as Hr by (vm_compute; reflexivity).
  split; [exact Hr|].
  apply (@search_keeps_table_consistent H self 20 0%nat start_world run.2
           (Some (0, 0))).
  - apply sample_store_allocated.
  - apply map_Forall_empty.
  - exact (eq_trans (surjective_pairing run) (f_equal (λ r, (r, run.2)) Hr)).
Defined.

(** X13. A search from a regular root learns no value: if the table holds
    only consistent nodes whose [W] values are all 0.0 (as the empty table
    does), then whenever [search] returns, every [W] value of every node is
    0.0 still. *)
Theorem search_from_regular_state_scores_nothing `{Runtime}
    (self : MCTS.t) (fuel : nat) (root_state : Obj.ref) (w w' : World)
    (r : option Action) :
  Obj.allocated (store w) root_state →
  regular (Obj.view (store w) root_state) →
  table_ok (λ x, x = 0%float) (nodes w) →
  MCTS.search self fuel root_state w = (Ret r, w') →
  ∀ k node action,
    nodes w' !! k = Some node →
    default 0%float (dict_get (MCTSNode.W node) action) = 0%float.
Proof.
  intros Halloc Hreg Hok Hs k node action Hnode.
  pose proof (search_table_regular _ _ _ _ _ _ Halloc Hreg Hok Hs) as Hok'.
  destruct (Hok' _ _ Hnode) as (_ & _ & _ & _ & HW & _).
  destruct (dict_get (MCTSNode.W node) action) as [x|] eqn:Hx; [|done].
  apply dict_get_elem in Hx. exact (proj1 (Forall_forall _ _) HW _ Hx).
Qed.

Lemma search_from_regular_state_scores_nothing_witness :
  let H := sample_runtime (λ i, i * 7 + 5)%nat in
  let run := MCTS.search (MCTS.mk 1.4%float 6) 20 0%nat start_world in
  run.1 = Ret (Some (0, 0)) ∧
  ∀ k node action,
    nodes run.2 !! k = Some node →
    default 0%float (dict_get (MCTSNode.W node) action) = 0%float.
Proof.
  intros H run.
  assert (run.1 = Ret (Some (0, 0))) as Hr by (vm_compute; reflexivity).
  split; [exact Hr|].
  apply (@search_from_regular_state_scores_nothing H (MCTS.mk 1.4%float 6) 20
           0%nat start_world run.2 (Some (0, 0))).
  - apply sample_store_allocated.
  - exact start_regular.
  - apply map_Forall_empty.
  - exact (eq_trans (surjective_pairing run) (f_equal (λ r, (r, run.2)) Hr)).
Defined.

Lemma root_choice_elem root_node action :
  root_choice root_node = Some action →
  ∃ n, (action, n) ∈ MCTSNode.N root_node.
Proof.
  unfold root_choice. destruct (MCTSNode.N root_node) as [|e l] eqn:HN; [done|].
  destruct (py_max Z.gtb snd (e :: l)) as [[a n]|] eqn:Hmax; [|done].
  intros [= <-]. exists n. by eapply py_max_elem.
Qed.

(** X14. An action that [choose_blue_move] returns is a move of Blue that is
    legal in the given state for some die in 1..6, and [apply_action]
    accepts it there. *)
Theorem choose_blue_move_returns_legal_action `{Runtime}
    (fuel : nat) (state : Obj.ref) (n_simulations : option Z) (w w' : World)
    (action : Action) :
  Obj.allocated (store w) state →
  choose_blue_move fuel state n_simulations w = (Ret (Some action), w') →
  current_player (Obj.view (store w) state) = Blue ∧
  ∃ dice_roll s',
    1 ≤ dice_roll ≤ 6 ∧
    action ∈ get_legal_actions (Obj.view (store w) state) dice_roll ∧
    apply_action (Obj.view (store w) state) action = inr s'.
Proof.
  intros Halloc. rewrite choose_blue_move_unfold.
  destruct (decide _) as [|Hblue]; [done|].
  intros Hs. split.
  { destruct (decide (current_player (Obj.view (store w) state) = Blue));
      [done|by destruct Hblue]. }
  apply search_table_any in Hs as (Hok & _ & root_node & Hroot & Hr);
    [|done|apply map_Forall_empty].
  simpl in Hroot. symmetry in Hr. apply root_choice_elem in Hr as [n Hn].
  destruct (Hok _ _ Hroot) as (_ & _ & _ & _ & _ & Hin & Hch).
  assert (dict_in action (MCTSNode.children root_node)) as Hd.
  { apply Hin, dict_in_keys, list_elem_of_fmap. by exists (action, n). }
  unfold dict_in in Hd. apply bool_decide_unpack in Hd as [ck Hck].
  destruct (Hch _ _ Hck) as (d & s' & Hd & Hlegal & Happ & _).
  unfold Obj.key in *. rewrite state_of_key_key in *. by exists d, s'.
Qed.

Lemma choose_blue_move_returns_legal_action_witness :
  let H := sample_runtime (λ i, i * 7 + 5)%nat in
  let run := choose_blue_move 20 0%nat (Some 4) start_world in
  run.1 = Ret (Some (0, 0)) ∧
  ∃ dice_roll s',
    1 ≤ dice_roll ≤ 6 ∧
    (0, 0) ∈ get_legal_actions (Obj.view (store start_world) 0) dice_roll ∧
    apply_action (Obj.view (store start_world) 0) (0, 0) = inr s'.
Proof.
  intros H run.
  assert (run.1 = Ret (Some (0, 0))) as Hr by (vm_compute; reflexivity).
  split; [exact Hr|].
  apply (@choose_blue_move_returns_legal_action H 20 0%nat (Some 4) start_world
           run.2 (0, 0)).
  - apply sample_store_allocated.
  - exact (eq_trans (surjective_pairing run) (f_equal (λ r, (r, run.2)) Hr)).
Defined.

(** ** The most visited action *)

(** [max] with [key=] returns the first of the elements with the largest
    key. *)
Lemma max_loop_first {A} (key : A → Z) best l :
  let r := max_loop Z.gtb key best (key best) l in
  (r = best ∧ Forall (λ y, key y ≤ key best) l) ∨
  ∃ l1 l2, l = l1 ++ r :: l2 ∧ key best < key r ∧
           Forall (λ y, key y < key r) l1 ∧ Forall (λ y, key y ≤ key r) l2.
Proof.
  revert best. induction l as [|x l IH]; intros best; simpl.
  { left. by split. }
  destruct (Z.gtb_spec (key x) (key best)) as [Hgt|Hle].
  - destruct (IH x) as [[Hr Hall]|(l1 & l2 & Hl & Hlt & H1 & H2)].
    + right. exists [], l. rewrite Hr. simpl. split_and!; [done..|constructor|done].
    + right. exists (x :: l1), l2. rewrite Hl at 1. simpl.
      split_and!; [done|lia| |done]. constructor; [lia|done].
  - destruct (IH best) as [[Hr Hall]|(l1 & l2 & Hl & Hlt & H1 & H2)].
    + left. split; [done|]. by constructor.
    + right. exists (x :: l1), l2. rewrite Hl at 1. simpl.
      split_and!; [done..| |done]. constructor; [lia|done].
Qed.

Lemma py_max_first {A} (key : A → Z) l r :
  py_max Z.gtb key l = Some r →
  ∃ l1 l2, l = l1 ++ r :: l2 ∧
           Forall (λ y, key y < key r) l1 ∧ Forall (λ y, key y ≤ key r) l2.
Proof.
  destruct l as [|x l]; simpl; [done|]. intros [= <-].
  destruct (max_loop_first key x l) as [[Hr Hall]|(l1 & l2 & Hl & Hlt & H1 & H2)].
  - exists [], l. rewrite Hr. simpl. split_and!; [done|constructor|done].
  - exists (x :: l1), l2. rewrite Hl at 1. simpl.
    split_and!; [done| |done]. constructor; [lia|done].
Qed.

(** X15. When [search] returns, the table holds the root node; [search]
    returns [None] exactly if that node has no visit count, and otherwise
    the action of the first entry of [N], in insertion order, whose count
    is the largest: every earlier entry has a smaller count and no later
    entry a larger one. *)
Theorem search_returns_most_visited `{Runtime}
    (self : MCTS.t) (fuel : nat) (root_state : Obj.ref) (w w' : World)
    (r : option Action) :
  MCTS.search self fuel root_state w = (Ret r, w') →
  ∃ root_node,
    nodes w' !! Obj.key root_state (store w) = Some root_node ∧
    match r with
    | None => MCTSNode.N root_node = []
    | Some action =>
        ∃ before n after,
          MCTSNode.N root_node = before ++ (action, n) :: after ∧
          Forall (λ e, e.2 < n) before ∧ Forall (λ e, e.2 ≤ n) after
    end.
Proof.
  rewrite search_unfold. cbv zeta.
  destruct (MCTS.simulations _ _ _ _ _) as [[[]|e|] w1]; [|done..].
  destruct (nodes w1 !! _) as [root_node|] eqn:Hroot; [|done].
  unfold root_choice.
  destruct (MCTSNode.N root_node) as [|e l] eqn:HN.
  { intros [= <- <-]. by exists root_node. }
  destruct (py_max Z.gtb snd (e :: l)) as [[action n]|] eqn:Hmax; [|done].
  simpl. intros [= <- <-]. exists root_node. split; [done|].
  apply py_max_first in Hmax as (l1 & l2 & Hl & H1 & H2).
  exists l1, n, l2. rewrite HN. by split_and!.
Qed.

Lemma search_returns_most_visited_witness :
  let H := sample_runtime (λ i, i * 7 + 5)%nat in
  let run := MCTS.search (MCTS.mk 1.4%float 6) 20 0%nat start_world in
  run.1 = Ret (Some (0, 0)) ∧
  ∃ root_node before n after,
    nodes run.2 !! Obj.key 0%nat (store start_world) = Some root_node ∧
    MCTSNode.N root_node = before ++ ((0, 0), n) :: after ∧
    Forall (λ e, e.2 < n) before ∧ Forall (λ e, e.2 ≤ n) after.
Proof.
  intros H run.
  assert (run.1 = Ret (Some (0, 0))) as Hr by (vm_compute; reflexivity).
  split; [exact Hr|].
  destruct (@search_returns_most_visited H (MCTS.mk 1.4%float 6) 20 0%nat
              start_world run.2 (Some (0, 0)))
    as (root_node & Hroot & before & n & after & HN & Hb & Ha).
  - exact (eq_trans (surjective_pairing run) (f_equal (λ r, (r, run.2)) Hr)).
  - exists root_node, before, n, after.
    split; [exact Hroot|]. split; [exact HN|]. split; [exact Hb|exact Ha].
Defined.

(** ** Nothing to search *)

(** On a terminal root every simulation returns at once, leaving the table
    and the random source as they were. *)
Lemma simulations_terminal `{Runtime} self fuel root_state k w n m :
  below n m (store w) root_state →
  is_terminal (Obj.view (store w) root_state) = true →
  ∃ w', MCTS.simulations self (S fuel) root_state k w = (Ret (), w') ∧
        nodes w' = nodes w ∧ draws w' = draws w ∧
        frame n m (store w) (store w').
Proof.
  revert w. induction k as [|k IH]; intros w Hbelow Hterm.
  { exists w. split_and!; [done..|apply frame_refl]. }
  cbn [MCTS.simulations]. rewrite bind_alloc.
  pose proof (below_allocated _ _ _ _ Hbelow) as Halloc.
  assert ((n ≤ length (Obj.instances (store w)))%nat ∧
          (m ≤ length (Obj.lists (store w)))%nat) as [Hbn Hbm].
  { destruct Hbelow as (o & ? & ? & ? & ? & ?). lia. }
  destruct (clone_frame n m (store w) root_state Halloc Hbn Hbm) as (Hf0 & _ & _).
  pose proof (clone_view _ _ Halloc) as Hviewc.
  set (σc := (Obj.clone root_state (store w)).2) in *.
  set (state := (Obj.clone root_state (store w)).1) in *.
  assert (MCTS._simulate self (S fuel) state [] (mkWorld σc (nodes w) (draws w))
          = (Ret (outcome_of (Obj.winner state σc)),
             mkWorld σc (nodes w) (draws w))) as Hsim.
  { cbn [MCTS._simulate]. rewrite bind_read. cbn [store].
    unfold Obj.is_terminal. rewrite Hviewc, Hterm.
    rewrite bind_read. by rewrite _backpropagate_eq. }
  rewrite (bind_Ret _ _ _ _ _ Hsim).
  destruct (IH (mkWorld σc (nodes w) (draws w))) as (w' & Hs & Hn & Hd & Hf).
  - by eapply below_frame.
  - cbn [store]. by rewrite (below_view _ _ _ _ _ Hbelow Hf0).
  - exists w'. split_and!; [done..|]. by eapply frame_trans.
Qed.

(** X16. With Blue to move, [choose_blue_move] returns [None] if the budget
    [n_simulations] is zero or negative, or if the state is terminal: it
    takes no draw, and its table holds the root node only, as
    [MCTSNode.__init__] builds it. *)
Theorem choose_blue_move_nothing_to_search `{Runtime}
    (fuel : nat) (state : Obj.ref) (n_simulations : option Z) (w : World) :
  Obj.allocated (store w) state →
  current_player (Obj.view (store w) state) = Blue →
  default 1000 n_simulations ≤ 0 ∨
    (is_terminal (Obj.view (store w) state) = true ∧ (1 ≤ fuel)%nat) →
  ∃ w', choose_blue_move fuel state n_simulations w = (Ret None, w') ∧
        draws w' = draws w ∧
        nodes w' = {[ Obj.key state (store w) :=
                        MCTSNode.__init__ (Obj.key state (store w)) ]}.
Proof.
  intros Halloc Hblue Hcase. rewrite choose_blue_move_unfold.
  rewrite decide_False by (by intros []).
  rewrite search_unfold. cbv zeta. cbn [store MCTS.n_simulations].
  set (root_key := Obj.key state (store w)).
  set (w0 := with_root root_key (mkWorld (store w) ∅ (draws w))).
  assert (nodes w0 = {[ root_key := MCTSNode.__init__ root_key ]}) as Hn0.
  { unfold w0, with_root. cbn [nodes]. by rewrite lookup_empty. }
  assert (∃ w', MCTS.simulations (MCTS.mk 1.4%float (default 1000 n_simulations))
                  fuel state (Z.to_nat (default 1000 n_simulations)) w0
                = (Ret (), w') ∧ nodes w' = nodes w0 ∧ draws w' = draws w0)
    as (w' & -> & Hn & Hd).
  { destruct Hcase as [Hle|[Hterm Hfuel]].
    - replace (Z.to_nat (default 1000 n_simulations)) with 0%nat by lia.
      by exists w0.
    - destruct fuel as [|fuel]; [lia|].
      destruct (simulations_terminal (MCTS.mk 1.4%float (default 1000 n_simulations))
                  fuel state (Z.to_nat (default 1000 n_simulations)) w0 _ _
                  (allocated_below _ _ Halloc) Hterm)
        as (w' & Hs & Hn & Hd & _).
      by exists w'. }
  rewrite Hn, Hn0, lookup_singleton_eq. cbn.
  exists w'. split_and!; [done|done|]. by rewrite Hn.
Qed.

Lemma choose_blue_move_nothing_to_search_witness :
  let H := sample_runtime (λ i, i * 7 + 5)%nat in
  let w := mkWorld (sample_store [43; 43; 43; 43] [12; -1; 40; -1] Blue) ∅ 0 in
  is_terminal (Obj.view (store w) 0) = true ∧
  ∃ w', choose_blue_move 3 0%nat None w = (Ret None, w') ∧ draws w' = draws w.
Proof.
  intros H w. split; [reflexivity|].
  destruct (@choose_blue_move_nothing_to_search H 3 0%nat None w)
    as (w' & Hrun & Hd & _).
  - apply sample_store_allocated.
  - reflexivity.
  - right. split; [reflexivity|lia].
  - exists w'. split; [exact Hrun|exact Hd].
Defined.

(** X17. [clone] yields a new instance with the key of the original and
    leaves the original as it is.  [apply_action] on the clone does to the
    clone what the transition on values does to the original's value,
    raising the same exception where that raises, and never changes the
    original. *)
Theorem clone_is_independent (σ : Obj.Store) (self : Obj.ref) (action : Action) :
  Obj.allocated σ self →
  let c := (Obj.clone self σ).1 in
  let σ1 := (Obj.clone self σ).2 in
  c ≠ self ∧ Obj.key c σ1 = Obj.key self σ ∧
  Obj.view σ1 self = Obj.view σ self ∧
  Obj.view (Obj.apply_action c action σ1).2 self = Obj.view σ self ∧
  match apply_action (Obj.view σ self) action with
  | inl e => Obj.apply_action c action σ1 = (Some e, σ1)
  | inr s' =>
      (Obj.apply_action c action σ1).1 = None ∧
      Obj.view (Obj.apply_action c action σ1).2 c = s'
  end.
Proof.
  intros Halloc c σ1.
  pose proof (allocated_below _ _ Halloc) as Hbelow.
  destruct (clone_frame _ _ σ self Halloc (Nat.le_refl _) (Nat.le_refl _))
    as (Hf & Hown & _).
  pose proof (clone_view _ _ Halloc) as Hview.
  pose proof (clone_separate _ _ Halloc) as (o & Ho & Hne & Hb & Hr).
  fold c σ1 in Hf, Hown, Hview, Ho, Hb, Hr.
  split_and!.
  - destruct Hown as (? & _ & Hc & _). destruct Hbelow as (? & _ & [Hs _] & _). lia.
  - unfold Obj.key. by rewrite Hview.
  - by eapply below_view.
  - destruct (obj_apply_action_frame _ _ _ _ action Hown) as [Hf' _].
    eapply below_view; [done|]. by eapply frame_trans.
  - pose proof (obj_apply_action_refines _ _ action _ Ho Hne Hb Hr) as Href.
    by rewrite Hview in Href.
Qed.

Lemma clone_is_independent_witness :
  let σ := sample_store [5; -1; -1; -1] [0; 25; -1; -1] Blue in
  let c := (Obj.clone 0%nat σ).1 in
  let σ1 := (Obj.clone 0%nat σ).2 in
  Obj.allocated σ 0 ∧
  Obj.view (Obj.apply_action c (0, 20) σ1).2 0 = Obj.view σ 0 ∧
  Obj.view (Obj.apply_action c (0, 20) σ1).2 c
    = mkLudoState [20; -1; -1; -1] [-1; 25; -1; -1] Red.
Proof.
  intros σ c σ1. split; [apply sample_store_allocated|].
  destruct (clone_is_independent σ 0%nat (0, 20) (sample_store_allocated _ _ _))
    as (_ & _ & _ & Horig & Hclone).
  split; [exact Horig|]. exact (proj2 Hclone).
Defined.

(** ** A search that never returns

    While nobody has a token out, only a six allows a move; on any other die
    the loop of [_simulate] passes the turn and goes on. *)

Lemma nobody_out_not_terminal s : nobody_out s → is_terminal s = false.
Proof.
  intros (Hb & Hr & Hnb & Hnr). unfold is_terminal.
  destruct (blue_tokens s) as [|b bl]; [done|].
  destruct (red_tokens s) as [|r rl]; [done|].
  apply Forall_cons in Hb as [-> _]. apply Forall_cons in Hr as [-> _].
  done.
Qed.

Lemma nobody_out_no_action s dice_roll :
  nobody_out s → dice_roll ≠ 6 → get_legal_actions s dice_roll = [].
Proof.
  intros (Hb & Hr & _) Hd.
  destruct (get_legal_actions s dice_roll) as [|[token_index target] l] eqn:Hl;
    [done|].
  assert ((token_index, target) ∈ get_legal_actions s dice_roll) as Hin.
  { rewrite Hl. apply list_elem_of_here. }
  apply elem_of_get_legal_actions in Hin as (idx & pos & _ & Hpos & Ht).
  assert (pos = HOME) as ->.
  { unfold _current_tokens in Hpos.
    destruct (decide _);
      [exact (Forall_lookup_1 _ _ _ _ Hb Hpos)|exact (Forall_lookup_1 _ _ _ _ Hr Hpos)]. }
  unfold legal_target in Ht.
  rewrite bool_decide_eq_true_2 in Ht by done.
  by rewrite bool_decide_eq_true_2 in Ht by done.
Qed.

Lemma nobody_out_pass s : nobody_out s → nobody_out (pass s).
Proof. done. Qed.

Lemma pass_pass s : pass (pass s) = s.
Proof. destruct s as [b r []]; reflexivity. Qed.

Section no_six.
Context `{Runtime}.
Hypothesis no_six : ∀ w, next_die w ≠ 6.

(** Once the nodes of both turns are in the table, the loop passes the turn
    for ever. *)
Lemma _simulate_never_returns self fuel state path w :
  Obj.allocated (store w) state →
  nobody_out (Obj.view (store w) state) →
  is_Some (nodes w !! key (Obj.view (store w) state)) →
  is_Some (nodes w !! key (pass (Obj.view (store w) state))) →
  (MCTS._simulate self fuel state path w).1 = Timeout.
Proof using no_six.
  revert w. induction fuel as [|fuel IH]; intros w Halloc Hout [node Hnode] Hpass;
    [done|].
  cbn [MCTS._simulate]. rewrite bind_read.
  unfold Obj.is_terminal at 1. rewrite (nobody_out_not_terminal _ Hout).
  rewrite bind_read, bind_get_node.
  destruct (nodes w !! _) as [node0|] eqn:Hnode0 in |- *; cbv beta iota.
  2:{ unfold Obj.key in Hnode0. pose proof (eq_trans (eq_sym Hnode0) Hnode). done. }
  rewrite bind_randint, bind_read, bind_read. cbn [store].
  unfold Obj.get_legal_actions at 1.
  rewrite (nobody_out_no_action _ _ Hout (no_six w)). cbv beta iota.
  rewrite bind_write.
  apply IH; cbn [store nodes draws].
  - apply allocated_owned, set_current_player_owned. by apply allocated_owned.
  - rewrite view_pass by done. by apply nobody_out_pass.
  - by rewrite view_pass by done.
  - rewrite view_pass by done. rewrite pass_pass. by exists node.
Qed.

(** With the node of the turn in the table, a simulation is cut off, or it
    returns with the nodes of both turns in the table. *)
Lemma _simulate_enters_both self fuel state w :
  Obj.allocated (store w) state →
  nobody_out (Obj.view (store w) state) →
  is_Some (nodes w !! key (Obj.view (store w) state)) →
  match MCTS._simulate self fuel state [] w with
  | (Ret _, w') =>
      is_Some (nodes w' !! key (Obj.view (store w) state)) ∧
      is_Some (nodes w' !! key (pass (Obj.view (store w) state)))
  | (Raise _, _) => False
  | (Timeout, _) => True
  end.
Proof using no_six.
  intros Halloc Hout [node Hnode].
  pose proof (_simulate_spec self fuel state [] w Halloc) as Hspec.
  destruct (nodes w !! key (pass (Obj.view (store w) state))) as [node'|] eqn:Hp.
  { pose proof (_simulate_never_returns self fuel state [] w Halloc Hout
                  (ltac:(by exists node)) (ltac:(by exists node'))) as Ht.
    destruct (MCTS._simulate self fuel state [] w) as [[v|e|] w']; done. }
  destruct fuel as [|[|fuel]]; [done| |].
  { cbn [MCTS._simulate]. rewrite bind_read.
    unfold Obj.is_terminal at 1. rewrite (nobody_out_not_terminal _ Hout).
    rewrite bind_read, bind_get_node.
    destruct (nodes w !! _) as [node0|] eqn:Hnode0 in |- *; cbv beta iota.
    2:{ unfold Obj.key in Hnode0. pose proof (eq_trans (eq_sym Hnode0) Hnode). done. }
    rewrite bind_randint, bind_read, bind_read. cbn [store].
    unfold Obj.get_legal_actions at 1.
    rewrite (nobody_out_no_action _ _ Hout (no_six w)). cbv beta iota.
    by rewrite bind_write. }
  destruct (MCTS._simulate self (S (S fuel)) state [] w) as [[v|e|] w'] eqn:Hsim;
    [|done..].
  destruct Hspec as [[Hle _] _]. simpl in Hle.
  split.
  { destruct (Hle _ _ Hnode) as (n' & Hn' & _). by exists n'. }
  revert Hsim. cbn [MCTS._simulate]. rewrite bind_read.
  unfold Obj.is_terminal at 1. rewrite (nobody_out_not_terminal _ Hout).
  rewrite bind_read, bind_get_node.
  destruct (nodes w !! _) as [node0|] eqn:Hnode0 in |- *; cbv beta iota.
  2:{ unfold Obj.key in Hnode0. pose proof (eq_trans (eq_sym Hnode0) Hnode). done. }
  rewrite bind_randint, bind_read, bind_read. cbn [store].
  unfold Obj.get_legal_actions at 1.
  rewrite (nobody_out_no_action _ _ Hout (no_six w)). cbv beta iota.
  rewrite bind_write. rewrite bind_read. cbn [store nodes draws].
  unfold Obj.is_terminal at 1. rewrite view_pass by done.
  rewrite (nobody_out_not_terminal _ (nobody_out_pass _ Hout)).
  rewrite bind_read, bind_get_node. cbn [store nodes draws].
  unfold Obj.key at 1. rewrite view_pass by done.
  destruct (nodes w !! _) as [node1|] eqn:Hnode1 in |- *;
    cbv beta iota.
  { pose proof (eq_trans (eq_sym Hnode1) Hp). done. }
  rewrite bind_update_nodes.
  match goal with |- context [bind (MCTS._rollout state 200) _ ?w1] =>
    destruct (_rollout_spec state 200 w1) as (v0 & w0 & Hr & Hn & _) end.
  rewrite (bind_Ret _ _ _ _ _ Hr). rewrite _backpropagate_eq.
  intros [= _ <-]. cbn [nodes foldl]. rewrite Hn. cbn [nodes].
  unfold Obj.key. rewrite view_pass by done.
  rewrite lookup_insert_eq. by eexists.
Qed.
End no_six.

(** X18. [search] has no bound on its running time: from a state in which
    every token is at home, with a budget of two simulations or more, and as
    long as the generator yields no six, the loop of [_simulate] passes the
    turn for ever, so that [search] is cut off whatever number of iterations
    the loop is granted. *)
Theorem search_never_returns_without_a_six `{Runtime}
    (self : MCTS.t) (fuel : nat) (root_state : Obj.ref) (w : World) :
  (∀ w, next_die w ≠ 6) →
  Obj.allocated (store w) root_state →
  nobody_out (Obj.view (store w) root_state) →
  2 ≤ MCTS.n_simulations self →
  (MCTS.search self fuel root_state w).1 = Timeout.
Proof.
  intros no_six Halloc Hout Hbudget. rewrite search_unfold. cbv zeta.
  set (root_key := Obj.key root_state (store w)).
  destruct (with_root_lookup root_key w) as (node0 & Hnode0 & _).
  set (w0 := with_root root_key w) in *.
  assert (store w0 = store w) as Hstore0 by done.
  destruct (Z.to_nat (MCTS.n_simulations self)) as [|[|k]] eqn:Hk; [lia..|].
  assert ((MCTS.simulations self fuel root_state (S (S k)) w0).1 = Timeout)
    as Hsims.
  { rewrite <- Hstore0 in Halloc, Hout.
    pose proof (allocated_below _ _ Halloc) as Hbelow.
    set (n := length (Obj.instances (store w0))) in *.
    set (m := length (Obj.lists (store w0))) in *.
    cbn [MCTS.simulations]. rewrite bind_alloc.
    destruct (clone_frame n m (store w0) root_state Halloc
                (Nat.le_refl _) (Nat.le_refl _)) as (Hf0 & Ho0 & _).
    pose proof (clone_view _ _ Halloc) as Hviewc.
    set (σc := (Obj.clone root_state (store w0)).2) in *.
    set (state := (Obj.clone root_state (store w0)).1) in *.
    set (w1 := mkWorld σc (nodes w0) (draws w0)).
    pose proof (_simulate_enters_both no_six self fuel state w1) as Hfirst.
    pose proof (_simulate_spec self fuel state [] w1
                  (owned_allocated _ _ _ _ Ho0)) as Hspec.
    unfold bind at 1.
    destruct (MCTS._simulate self fuel state [] w1) as [[v|e|] w2];
      [|done|done].
    destruct Hspec as [[_ Hf] _]. specialize (Hf n m Ho0).
    destruct Hfirst as [Hroot Hpass]; cbn [store nodes w1].
    { by eapply owned_allocated. }
    { by rewrite Hviewc. }
    { rewrite Hviewc. by exists node0. }
    cbn [store w1] in Hroot, Hpass, Hf. rewrite Hviewc in Hroot, Hpass.
    assert (frame n m (store w0) (store w2)) as Hf2 by (by eapply frame_trans).
    pose proof (below_frame _ _ _ _ _ Hbelow Hf2) as Hbelow2.
    pose proof (below_view _ _ _ _ _ Hbelow Hf2) as Hview2.
    pose proof (below_allocated _ _ _ _ Hbelow2) as Halloc2.
    cbv beta iota. rewrite bind_alloc.
    pose proof (clone_view _ _ Halloc2) as Hviewc2.
    destruct (clone_frame n m (store w2) root_state Halloc2)
      as (_ & Ho2 & _).
    { destruct Hbelow2 as (? & _ & ? & _ & _ & ?). lia. }
    { destruct Hbelow2 as (? & _ & ? & _ & _ & ?). lia. }
    set (σc2 := (Obj.clone root_state (store w2)).2) in *.
    set (state2 := (Obj.clone root_state (store w2)).1) in *.
    pose proof (_simulate_never_returns no_six self fuel state2 []
                  (mkWorld σc2 (nodes w2) (draws w2))) as Hloop.
    unfold bind at 1.
    destruct (MCTS._simulate self fuel state2 [] _) as [r3 w3].
    cbn [fst] in Hloop. rewrite Hloop; [done|..]; cbn [store nodes].
    - by eapply owned_allocated.
    - by rewrite Hviewc2, Hview2.
    - by rewrite Hviewc2, Hview2.
    - by rewrite Hviewc2, Hview2. }
  destruct (MCTS.simulations self fuel root_state (S (S k)) w0) as [r w'].
  cbn [fst] in Hsims. by rewrite Hsims.
Qed.

Lemma search_never_returns_without_a_six_witness :
  let H := sample_runtime (λ _, 0%nat) in
  nobody_out (Obj.view (store start_world) 0) ∧
  (MCTS.search (MCTS.mk 1.4%float 2) 1000 0%nat start_world).1 = Timeout.
Proof.
  intros H.
  assert (nobody_out (Obj.view (store start_world) 0)) as Hout.
  { split_and!; [by repeat constructor..|done|done]. }
  split; [exact Hout|].
  apply (@search_never_returns_without_a_six H (MCTS.mk 1.4%float 2) 1000 0%nat
           start_world).
  - intros w. by vm_compute.
  - apply sample_store_allocated.
  - exact Hout.
  - simpl. lia.
Defined.
